(** * WarframePrimeNexus: the markdown dialect, its writer and its reader

    A shallow embedding of
      - [currentPrimes/main.js]: the row loops of [findSubTableData] and
        [findRelicTableData] with the rarity classifier,
        [cleanAndOrderRelics], [extractPrimes] and [generateMarkdown];
      - [htmlConverter/htmlConverter.js] (module [V1]) and the second,
        error-tolerant copy of the converter (module [V2]):
        [WarframeDataParser], [HTMLGenerator.separateWarframesWeapons],
        [utils.escapeHtml], [utils.sortRelics], [utils.groupParts],
        [utils.filterByCategory], [utils.filterItems],
        [view.renderPrimeItem] and
        [controller.toggleItem].

    JavaScript strings are modelled as lists of characters ([str]).  The
    characters are the bytes of the UTF-8 text; every separator the program
    looks for is ASCII, so searching, splitting and prefix tests agree with
    the code-unit view of the engine.  White space is the ASCII white space
    (tab, line feed, vertical tab, form feed, carriage return, space):
    texts are assumed to hold no other Unicode space character. *)

From Stdlib Require Import String.
From Stdlib Require Import List Ascii Bool Arith ZArith Lia Permutation.
From Stdlib Require Import Sorted.
Import ListNotations.

Set Implicit Arguments.

(** ** Strings *)

Abbreviation str := (list ascii).

(** A literal. *)
Definition L (s : string) : str := list_ascii_of_string s.
Arguments L s%_string.

Definition ch_eqb (a b : ascii) : bool := Ascii.eqb a b.

Lemma ch_eqb_eq a b : ch_eqb a b = true <-> a = b.
Proof. apply Ascii.eqb_eq. Qed.

Lemma ch_eqb_refl a : ch_eqb a a = true.
Proof. apply Ascii.eqb_refl. Qed.

Lemma ch_eqb_neq a b : ch_eqb a b = false <-> a <> b.
Proof. apply Ascii.eqb_neq. Qed.

Fixpoint str_eqb (a b : str) : bool :=
  match a, b with
  | [], [] => true
  | x :: a', y :: b' => ch_eqb x y && str_eqb a' b'
  | _, _ => false
  end.

Lemma str_eqb_eq a b : str_eqb a b = true <-> a = b.
Proof.
  revert b; induction a as [|x a IH]; intros [|y b]; simpl;
    try (split; congruence).
  rewrite andb_true_iff, ch_eqb_eq, IH. split.
  - intros [-> ->]; reflexivity.
  - intros H; inversion H; auto.
Qed.

Lemma str_eqb_refl a : str_eqb a a = true.
Proof. apply str_eqb_eq; reflexivity. Qed.

Lemma str_eqb_neq a b : str_eqb a b = false <-> a <> b.
Proof.
  rewrite <- str_eqb_eq. destruct (str_eqb a b); split; congruence.
Qed.

(** [s.startsWith(p)] *)
Fixpoint startsWith (p s : str) : bool :=
  match p, s with
  | [], _ => true
  | x :: p', y :: s' => ch_eqb x y && startsWith p' s'
  | _ :: _, [] => false
  end.

(** [s.includes(t)] *)
Fixpoint includes (t s : str) : bool :=
  startsWith t s ||
  match s with
  | [] => false
  | _ :: s' => includes t s'
  end.

(** [s.split(sep)] for a non-empty separator: cut at every occurrence,
    scanning from the left; after a match the scan resumes behind the
    separator ([skip] counts the separator characters still to pass). *)
Fixpoint split_go (sep : str) (skip : nat) (cur : str) (s : str) : list str :=
  match s with
  | [] => [rev cur]
  | c :: s' =>
      match skip with
      | S k => split_go sep k cur s'
      | O =>
          if startsWith sep s
          then rev cur :: split_go sep (length sep - 1) [] s'
          else split_go sep 0 (c :: cur) s'
      end
  end.

Definition split (sep s : str) : list str := split_go sep 0 [] s.

(** White space removed by [trim]. *)
Definition is_ws (c : ascii) : bool :=
  let n := nat_of_ascii c in
  (n =? 32) || ((9 <=? n) && (n <=? 13)).

Fixpoint trimStart (s : str) : str :=
  match s with
  | [] => []
  | c :: s' => if is_ws c then trimStart s' else s
  end.

Definition trimEnd (s : str) : str := rev (trimStart (rev s)).

(** [s.trim()] *)
Definition trim (s : str) : str := trimEnd (trimStart s).

(** [s.substring(n)] *)
Definition substring (n : nat) (s : str) : str := skipn n s.

(** [s.replace(c, '')] with a one-character string pattern: only the first
    occurrence goes. *)
Fixpoint remove_first (c : ascii) (s : str) : str :=
  match s with
  | [] => []
  | x :: s' => if ch_eqb x c then s' else x :: remove_first c s'
  end.

(** [s.replace(/c/g, r)]: every occurrence of the character is replaced. *)
Definition replaceAll (c : ascii) (r : str) (s : str) : str :=
  flat_map (fun x => if ch_eqb x c then r else [x]) s.

(** The first element of an array of strings, as a destructuring pattern
    or [a[0]] reads it; [split] never returns an empty array. *)
Definition first (l : list str) : str := hd [] l.

(** A value is "truthy" when it is neither [null]/[undefined] nor the empty
    string. *)
Definition truthy (o : option str) : bool :=
  match o with
  | Some (_ :: _) => true
  | _ => false
  end.

(** Substring, as a proposition. *)
Definition Substr (t s : str) : Prop := exists a b, s = a ++ t ++ b.

(** *** Facts on prefixes and substrings *)

Lemma startsWith_app p s : startsWith p (p ++ s) = true.
Proof. induction p; simpl; auto. rewrite ch_eqb_refl; auto. Qed.

Lemma startsWith_spec p s : startsWith p s = true <-> exists r, s = p ++ r.
Proof.
  split.
  - revert s; induction p as [|x p IH]; intros s H.
    + exists s; reflexivity.
    + destruct s as [|y s]; simpl in H; [discriminate|].
      apply andb_true_iff in H as [H1 H2]. apply ch_eqb_eq in H1; subst y.
      destruct (IH _ H2) as [r ->]. exists r; reflexivity.
  - intros [r ->]. apply startsWith_app.
Qed.

Lemma includes_startsWith t s : startsWith t s = true -> includes t s = true.
Proof. intros H. destruct s; simpl in *; rewrite H; reflexivity. Qed.

Lemma includes_spec t s : includes t s = true <-> Substr t s.
Proof.
  split.
  - induction s as [|c s IH]; simpl; intros H.
    + rewrite orb_false_r in H. apply startsWith_spec in H as [r Hr].
      exists [], r. exact Hr.
    + apply orb_true_iff in H as [H|H].
      * apply startsWith_spec in H as [r Hr]. exists [], r. exact Hr.
      * destruct (IH H) as (a & b & ->). exists (c :: a), b. reflexivity.
  - intros (a & b & ->). induction a as [|c a IH].
    + cbn [app]. apply includes_startsWith, startsWith_app.
    + simpl. rewrite IH. apply orb_true_r.
Qed.

Lemma includes_false t s : includes t s = false <-> ~ Substr t s.
Proof.
  rewrite <- includes_spec. destruct (includes t s); split; congruence.
Qed.

Lemma includes_cons_false t c s :
  includes t (c :: s) = false -> includes t s = false.
Proof. simpl. intros H. apply orb_false_iff in H as [_ H]. exact H. Qed.

Lemma includes_app_false_l t a b :
  includes t (a ++ b) = false -> includes t a = false.
Proof.
  rewrite !includes_false. intros H (x & y & ->). apply H.
  exists x, (y ++ b). now rewrite <- !app_assoc.
Qed.

Lemma includes_app_false_r t a b :
  includes t (a ++ b) = false -> includes t b = false.
Proof.
  rewrite !includes_false. intros H (x & y & ->). apply H.
  exists (a ++ x), y. now rewrite <- !app_assoc.
Qed.

(** Membership of one character, as [includes] sees it. *)
Lemma includes_char c s : includes [c] s = true <-> In c s.
Proof.
  rewrite includes_spec. split.
  - intros (a & b & ->). apply in_or_app. right. left. reflexivity.
  - intros H. apply in_split in H as (a & b & ->). exists a, b. reflexivity.
Qed.

Lemma includes_char_false c s : includes [c] s = false <-> ~ In c s.
Proof.
  rewrite <- includes_char. destruct (includes [c] s); split; congruence.
Qed.

(** *** Facts on [split] *)

(** Put a character in front of the first piece. *)
Definition cons_hd (c : ascii) (l : list str) : list str :=
  match l with
  | [] => [[c]]
  | h :: t => (c :: h) :: t
  end.

Lemma split_go_skip sep cur t s :
  split_go sep (length t) cur (t ++ s) = split_go sep 0 cur s.
Proof. induction t as [|x t IH]; simpl; auto. Qed.

Lemma split_go_cur sep cur s :
  split_go sep 0 cur s =
  match split_go sep 0 [] s with
  | h :: t => (rev cur ++ h) :: t
  | [] => []
  end.
Proof.
  revert cur; induction s as [|c s IH]; intros cur.
  - simpl. now rewrite app_nil_r.
  - cbn [split_go]. destruct (startsWith sep (c :: s)).
    + now rewrite app_nil_r.
    + rewrite (IH (c :: cur)), (IH [c]).
      destruct (split_go sep 0 [] s); [reflexivity|].
      simpl. now rewrite <- app_assoc.
Qed.

Lemma split_nil sep : split sep [] = [[]].
Proof. reflexivity. Qed.

Lemma split_go_not_nil sep k cur s : split_go sep k cur s <> [].
Proof.
  revert k cur; induction s as [|c s IH]; intros k cur; simpl.
  - discriminate.
  - destruct k; [|apply IH].
    destruct (startsWith sep (c :: s)); [discriminate|apply IH].
Qed.

Lemma split_not_nil sep s : split sep s <> [].
Proof. apply split_go_not_nil.
Qed.

Lemma split_match sep s : sep <> [] -> split sep (sep ++ s) = [] :: split sep s.
Proof.
  intros Hsep. destruct sep as [|x sep]; [congruence|].
  unfold split. change ((x :: sep) ++ s) with (x :: (sep ++ s)).
  cbn [split_go].
  change (x :: sep ++ s) with ((x :: sep) ++ s). rewrite startsWith_app.
  cbn [rev length]. rewrite Nat.sub_succ, Nat.sub_0_r.
  now rewrite split_go_skip.
Qed.

Lemma split_cons_nomatch sep c s :
  startsWith sep (c :: s) = false ->
  split sep (c :: s) = cons_hd c (split sep s).
Proof.
  intros H. unfold split. cbn [split_go]. rewrite H, split_go_cur.
  generalize (@split_not_nil sep s). unfold split.
  destruct (split_go sep 0 [] s); [congruence|reflexivity].
Qed.

(** The first piece is a prefix of the string. *)
Lemma split_first_prefix sep s :
  sep <> [] -> exists r, s = first (split sep s) ++ r.
Proof.
  intros Hsep. induction s as [|c s IH].
  - exists []. reflexivity.
  - destruct (startsWith sep (c :: s)) eqn:E.
    + apply startsWith_spec in E as [r Hr]. rewrite Hr.
      rewrite split_match by assumption. exists (sep ++ r). reflexivity.
    + rewrite split_cons_nomatch by assumption.
      destruct IH as [r Hr]. generalize (@split_not_nil sep s).
      destruct (split sep s) as [|h t]; [congruence|]. intros _.
      exists r. simpl in *. congruence.
Qed.

(** A string without the separator is returned whole. *)
Lemma split_none sep s : includes sep s = false -> split sep s = [s].
Proof.
  induction s as [|c s IH]; intros H; [reflexivity|].
  simpl in H. apply orb_false_iff in H as [H1 H2].
  rewrite split_cons_nomatch by assumption. rewrite IH by assumption.
  reflexivity.
Qed.

(** [a] is the text before the first occurrence of [sep] in [s]. *)
Definition FirstAt (sep a s : str) : Prop :=
  exists b, s = a ++ sep ++ b /\
    forall a' b', s = a' ++ sep ++ b' -> length a <= length a'.

Lemma split_first_occurrence sep a b :
  sep <> [] ->
  (forall a' b', a ++ sep ++ b = a' ++ sep ++ b' -> length a <= length a') ->
  split sep (a ++ sep ++ b) = a :: split sep b.
Proof.
  intros Hsep. induction a as [|x a IH]; intros Hmin.
  - cbn [app]. apply split_match; assumption.
  - change ((x :: a) ++ sep ++ b) with (x :: (a ++ sep ++ b)).
    rewrite split_cons_nomatch.
    + rewrite IH; [reflexivity|]. intros a' b' E.
      specialize (Hmin (x :: a') b'). simpl in Hmin.
      rewrite E in Hmin. specialize (Hmin eq_refl). lia.
    + destruct (startsWith sep (x :: a ++ sep ++ b)) eqn:E; [|reflexivity].
      apply startsWith_spec in E as [r Hr].
      specialize (Hmin [] r). simpl in Hmin. specialize (Hmin Hr). lia.
Qed.

(** An occurrence that starts before the end of [a] lies inside [a]
    followed by all but the last character of the separator. *)
Lemma early_occurrence sep a b a' b' :
  sep <> [] ->
  a ++ sep ++ b = a' ++ sep ++ b' ->
  length a' < length a ->
  Substr sep (a ++ removelast sep).
Proof.
  intros Hsep E Hlt.
  destruct (exists_last Hsep) as (ini & z & Hz).
  assert (Hr : removelast sep = ini)
    by (rewrite Hz; apply removelast_last).
  rewrite Hr.
  assert (E' : (a ++ ini) ++ (z :: b) = (a' ++ sep) ++ b').
  { rewrite <- !app_assoc. rewrite <- E. rewrite Hz at 1.
    rewrite <- !app_assoc. reflexivity. }
  apply app_eq_app in E' as [l [[H1 H2]|[H1 H2]]].
  - exists a', l. rewrite H1. now rewrite <- app_assoc.
  - assert (Hl : length (a' ++ sep) = length ((a ++ ini) ++ l))
      by now rewrite H1.
    rewrite !length_app in Hl. rewrite Hz in Hl at 1.
    rewrite length_app in Hl. simpl in Hl.
    destruct l; simpl in *; [|lia].
    rewrite app_nil_r in H1. exists a', []. rewrite app_nil_r. auto.
Qed.

Lemma split_first_char c a b :
  ~ In c a -> split [c] (a ++ c :: b) = a :: split [c] b.
Proof.
  intros Hin. apply (@split_first_occurrence [c] a b); [discriminate|].
  intros a' b' E. destruct (Nat.le_gt_cases (length a) (length a')); auto.
  exfalso. apply Hin.
  destruct (@early_occurrence [c] a b a' b') as (x & y & Hxy); auto;
    try discriminate.
  simpl in Hxy. rewrite app_nil_r in Hxy. rewrite Hxy.
  apply in_or_app. right. left. reflexivity.
Qed.

Lemma includes2_snoc c1 c2 a :
  c1 <> c2 -> includes [c1; c2] a = false ->
  includes [c1; c2] (a ++ [c1]) = false.
Proof.
  intros Hne. induction a as [|x a IH]; intros H.
  - simpl. rewrite ch_eqb_refl. reflexivity.
  - simpl in H. apply orb_false_iff in H as [H1 H2].
    cbn [app includes]. rewrite (IH H2), orb_false_r.
    destruct a as [|y a].
    + simpl. destruct (ch_eqb c1 x); [|reflexivity].
      simpl. apply ch_eqb_neq in Hne.
      rewrite <- Hne. unfold ch_eqb. rewrite Ascii.eqb_sym.
      destruct (Ascii.eqb c1 c2); reflexivity.
    + exact H1.
Qed.

Lemma split_first_two c1 c2 a b :
  c1 <> c2 -> includes [c1; c2] a = false ->
  split [c1; c2] (a ++ c1 :: c2 :: b) = a :: split [c1; c2] b.
Proof.
  intros Hne Hinc.
  apply (@split_first_occurrence [c1; c2] a b); [discriminate|].
  intros a' b' E. destruct (Nat.le_gt_cases (length a) (length a')); auto.
  exfalso.
  assert (Hs : Substr [c1; c2] (a ++ removelast [c1; c2])).
  { apply (@early_occurrence [c1; c2] a b a' b'); auto. discriminate. }
  apply includes_spec in Hs. simpl removelast in Hs.
  rewrite includes2_snoc in Hs; auto. discriminate.
Qed.

(** *** Facts on [trim] *)

Definition all_ws (w : str) : bool := forallb is_ws w.

Definition starts_nonws (s : str) : bool :=
  match s with
  | c :: _ => negb (is_ws c)
  | [] => false
  end.

Definition ends_nonws (s : str) : bool := starts_nonws (rev s).

(** A non-empty string with no white space at either end. *)
Definition clean (s : str) : bool := starts_nonws s && ends_nonws s.

Lemma all_ws_app a b : all_ws (a ++ b) = all_ws a && all_ws b.
Proof. apply forallb_app. Qed.

Lemma all_ws_rev a : all_ws (rev a) = all_ws a.
Proof.
  induction a as [|x a IH]; [reflexivity|].
  simpl. rewrite all_ws_app, IH. simpl. rewrite andb_true_r. apply andb_comm.
Qed.

Lemma trimStart_ws w s : all_ws w = true -> trimStart (w ++ s) = trimStart s.
Proof.
  induction w as [|x w IH]; simpl; intros H; [reflexivity|].
  apply andb_true_iff in H as [-> H]. auto.
Qed.

Lemma trimStart_nonws s : starts_nonws s = true -> trimStart s = s.
Proof.
  destruct s as [|c s]; simpl; [reflexivity|].
  destruct (is_ws c); [discriminate|reflexivity].
Qed.

Lemma trimStart_all_ws w : all_ws w = true -> trimStart w = [].
Proof.
  intros H. rewrite <- (app_nil_r w). now rewrite trimStart_ws.
Qed.

Lemma trimEnd_ws s w : all_ws w = true -> trimEnd (s ++ w) = trimEnd s.
Proof.
  intros H. unfold trimEnd. rewrite rev_app_distr, trimStart_ws; auto.
  now rewrite all_ws_rev.
Qed.

Lemma trimEnd_nonws s : ends_nonws s = true -> trimEnd s = s.
Proof.
  intros H. unfold trimEnd. rewrite trimStart_nonws by exact H.
  apply rev_involutive.
Qed.

Lemma starts_nonws_app a b :
  starts_nonws a = true -> starts_nonws (a ++ b) = true.
Proof. destruct a; simpl; [discriminate|auto]. Qed.

Lemma ends_nonws_app a b : ends_nonws b = true -> ends_nonws (a ++ b) = true.
Proof.
  unfold ends_nonws. rewrite rev_app_distr. apply starts_nonws_app.
Qed.

Lemma clean_not_nil s : clean s = true -> s <> [].
Proof. destruct s; [discriminate|discriminate]. Qed.

Lemma trim_decomp w1 m w2 :
  all_ws w1 = true -> all_ws w2 = true -> clean m = true ->
  trim (w1 ++ m ++ w2) = m.
Proof.
  intros H1 H2 Hm. apply andb_true_iff in Hm as [Hs He].
  unfold trim. rewrite trimStart_ws by assumption.
  rewrite trimStart_nonws by (apply starts_nonws_app; assumption).
  rewrite trimEnd_ws by assumption. now apply trimEnd_nonws.
Qed.

Lemma trim_all_ws w : all_ws w = true -> trim w = [].
Proof. intros H. unfold trim. now rewrite trimStart_all_ws. Qed.

Lemma trimStart_exists s :
  exists w t, s = w ++ t /\ all_ws w = true /\
              (t = [] \/ starts_nonws t = true).
Proof.
  induction s as [|c s (w & t & E & Hw & Ht)].
  - exists [], []. auto.
  - destruct (is_ws c) eqn:Ec.
    + exists (c :: w), t. subst s. simpl. rewrite Ec. auto.
    + exists [], (c :: s). simpl. rewrite Ec. auto.
Qed.

Lemma all_ws_not_starts w : all_ws w = true -> starts_nonws w = false.
Proof.
  destruct w as [|c w]; simpl; [reflexivity|].
  intros H. apply andb_true_iff in H as [-> _]. reflexivity.
Qed.

(** Every string is white space, a clean or empty middle, white space. *)
Lemma trim_exists s :
  exists w1 m w2, s = w1 ++ m ++ w2 /\ all_ws w1 = true /\
                  all_ws w2 = true /\ (m = [] \/ clean m = true).
Proof.
  destruct (trimStart_exists s) as (w1 & t & E & Hw1 & Ht).
  destruct Ht as [->|Ht].
  - exists w1, [], []. auto.
  - destruct (trimStart_exists (rev t)) as (w2 & u & E2 & Hw2 & Hu).
    assert (Et : t = rev u ++ rev w2).
    { rewrite <- (rev_involutive t), E2, rev_app_distr. reflexivity. }
    exists w1, (rev u), (rev w2). rewrite all_ws_rev. subst s.
    repeat split; auto; try congruence.
    destruct Hu as [->|Hu].
    + simpl in Et. subst t. rewrite all_ws_not_starts in Ht;
        [discriminate | now rewrite all_ws_rev].
    + right. unfold clean, ends_nonws. rewrite rev_involutive, Hu.
      rewrite andb_true_r. destruct u as [|x u]; [discriminate|].
      rewrite Et in Ht. destruct (rev (x :: u)) eqn:Er.
      * apply (f_equal (@length _)) in Er. rewrite length_rev in Er.
        discriminate.
      * exact Ht.
Qed.

Lemma trim_clean s : clean s = true -> trim s = s.
Proof.
  intros H. generalize (@trim_decomp [] s [] eq_refl eq_refl H).
  cbn [app]. now rewrite app_nil_r.
Qed.

Lemma trim_ws_l w s : all_ws w = true -> trim (w ++ s) = trim s.
Proof. intros H. unfold trim. now rewrite trimStart_ws. Qed.

Lemma trim_ws_r s w : all_ws w = true -> trim (s ++ w) = trim s.
Proof.
  intros H. destruct (trim_exists s) as (w1 & m & w2 & -> & H1 & H2 & Hm).
  destruct Hm as [->|Hm].
  - simpl. rewrite !trim_all_ws; auto; rewrite !all_ws_app, ?H1, ?H2, ?H; auto.
  - replace ((w1 ++ m ++ w2) ++ w) with (w1 ++ m ++ (w2 ++ w))
      by now rewrite <- !app_assoc.
    rewrite !trim_decomp; auto. now rewrite all_ws_app, H2, H.
Qed.

Lemma trim_rev s : trim (rev s) = rev (trim s).
Proof.
  destruct (trim_exists s) as (w1 & m & w2 & -> & H1 & H2 & Hm).
  rewrite !rev_app_distr, <- app_assoc.
  destruct Hm as [->|Hm].
  - simpl. rewrite !trim_all_ws; auto;
      rewrite !all_ws_app, ?all_ws_rev, ?H1, ?H2; auto.
  - rewrite !trim_decomp; auto; try now rewrite all_ws_rev.
    unfold clean, ends_nonws in *. rewrite rev_involutive.
    now rewrite andb_comm.
Qed.

Lemma trim_app_clean a b :
  starts_nonws a = true -> ends_nonws b = true -> trim (a ++ b) = a ++ b.
Proof.
  intros Ha Hb. apply trim_clean. unfold clean.
  now rewrite starts_nonws_app, ends_nonws_app.
Qed.

(** What [trim] returns is empty or clean. *)
Lemma trim_result s : trim s = [] \/ clean (trim s) = true.
Proof.
  destruct (trim_exists s) as (w1 & m & w2 & -> & H1 & H2 & Hm).
  destruct Hm as [->|Hm].
  - left. apply trim_all_ws. simpl. now rewrite all_ws_app, H1, H2.
  - right. now rewrite trim_decomp.
Qed.

Lemma trim_fixed s : trim s = s -> s <> [] -> clean s = true.
Proof.
  intros E Hne. destruct (trim_result s) as [H|H]; congruence.
Qed.

Lemma trim_idem s : trim (trim s) = trim s.
Proof.
  destruct (trim_result s) as [H|H].
  - rewrite H. reflexivity.
  - now apply trim_clean.
Qed.

(** ** Objects, arrays and templates *)

(** The line feed, and the text a template literal prints for a value that
    may be [undefined]. *)
Definition NL : str := ["010"%char].

Definition show (o : option str) : str :=
  match o with
  | Some s => s
  | None => L"undefined"
  end.

(** A plain object used as a dictionary, and a [Map]: the entries in
    enumeration order, one per key.  (An object enumerates keys that look
    like array indices first; the keys of this program are names, and the
    entry list stands for the order in which [for ... in], [Object.keys]
    and [Object.entries] visit them.) *)
Definition dict (V : Type) := list (str * V).

Section Dict.
Variable V : Type.

(** [o[k]] on own properties, [m.get(k)] *)
Fixpoint lookup (k : str) (o : dict V) : option V :=
  match o with
  | [] => None
  | (k', v) :: o' => if str_eqb k k' then Some v else lookup k o'
  end.

(** [o[k] = v], [m.set(k, v)]: an existing key keeps its place. *)
Fixpoint assign (k : str) (v : V) (o : dict V) : dict V :=
  match o with
  | [] => [(k, v)]
  | (k', v') :: o' =>
      if str_eqb k k' then (k', v) :: o' else (k', v') :: assign k v o'
  end.

(** Mutation of the value stored under [k], such as [o[k].push(x)]. *)
Fixpoint update (k : str) (f : V -> V) (o : dict V) : dict V :=
  match o with
  | [] => []
  | (k', v') :: o' =>
      if str_eqb k k' then (k', f v') :: o' else (k', v') :: update k f o'
  end.

Definition keys (o : dict V) : list str := map fst o.

Lemma lookup_assign_eq k v o : lookup k (assign k v o) = Some v.
Proof.
  induction o as [|[k' v'] o IH]; simpl.
  - now rewrite str_eqb_refl.
  - destruct (str_eqb k k') eqn:E; simpl; rewrite E; auto.
Qed.

Lemma lookup_assign_ne k k' v o :
  k' <> k -> lookup k' (assign k v o) = lookup k' o.
Proof.
  intros Hne. induction o as [|[k2 v2] o IH]; simpl.
  - apply str_eqb_neq in Hne. now rewrite Hne.
  - destruct (str_eqb k k2) eqn:E; simpl.
    + apply str_eqb_eq in E; subst k2.
      apply str_eqb_neq in Hne. now rewrite Hne.
    + destruct (str_eqb k' k2); auto.
Qed.

Lemma lookup_update_eq k f o :
  lookup k (update k f o) = option_map f (lookup k o).
Proof.
  induction o as [|[k' v'] o IH]; simpl; auto.
  destruct (str_eqb k k') eqn:E; simpl; rewrite E; auto.
Qed.

Lemma lookup_update_ne k k' f o :
  k' <> k -> lookup k' (update k f o) = lookup k' o.
Proof.
  intros Hne. induction o as [|[k2 v2] o IH]; simpl; auto.
  destruct (str_eqb k k2) eqn:E; simpl.
  - apply str_eqb_eq in E; subst k2.
    apply str_eqb_neq in Hne. now rewrite Hne.
  - destruct (str_eqb k' k2); auto.
Qed.

Lemma keys_update k f o : keys (update k f o) = keys o.
Proof.
  induction o as [|[k' v'] o IH]; simpl; auto.
  destruct (str_eqb k k'); simpl; congruence.
Qed.

Lemma lookup_None k o : lookup k o = None <-> ~ In k (keys o).
Proof.
  induction o as [|[k' v'] o IH]; simpl; [tauto|].
  destruct (str_eqb k k') eqn:E.
  - apply str_eqb_eq in E. split; [discriminate|].
    intros H. exfalso. apply H. left. auto.
  - apply str_eqb_neq in E. rewrite IH. split; intros H; [|tauto].
    intros [H1|H1]; [congruence|tauto].
Qed.


Lemma keys_assign_new k v o :
  lookup k o = None -> assign k v o = o ++ [(k, v)].
Proof.
  induction o as [|[k' v'] o IH]; simpl; auto.
  destruct (str_eqb k k'); [discriminate|]. intros H. now rewrite IH.
Qed.

Lemma keys_assign_old k v o :
  lookup k o <> None -> keys (assign k v o) = keys o.
Proof.
  induction o as [|[k' v'] o IH]; simpl; [congruence|].
  destruct (str_eqb k k'); simpl; auto. intros H. now rewrite IH.
Qed.

Lemma NoDup_keys_assign k v o : NoDup (keys o) -> NoDup (keys (assign k v o)).
Proof.
  intros Hnd. destruct (lookup k o) eqn:E.
  - rewrite keys_assign_old; [auto | congruence].
  - rewrite keys_assign_new by assumption. unfold keys. rewrite map_app.
    simpl. apply lookup_None in E.
    apply NoDup_rev in Hnd. rewrite <- (rev_involutive (map fst o ++ [k])).
    apply NoDup_rev. rewrite rev_app_distr. simpl. constructor; auto.
    now rewrite <- in_rev.
Qed.
End Dict.

(** [Array.prototype.sort(cmp)]: stable, ascending for the comparator; an
    element moves in front of those it does not compare greater than. *)
Section Sort.
Variable A : Type.
Variable cmp : A -> A -> Z.

Fixpoint insert (x : A) (l : list A) : list A :=
  match l with
  | [] => [x]
  | y :: l' => if (cmp x y <=? 0)%Z then x :: l else y :: insert x l'
  end.

Fixpoint sort (l : list A) : list A :=
  match l with
  | [] => []
  | x :: l' => insert x (sort l')
  end.

Lemma insert_perm x l : Permutation (x :: l) (insert x l).
Proof.
  induction l as [|y l IH]; simpl; auto.
  destruct (cmp x y <=? 0)%Z; auto.
  rewrite perm_swap. now constructor.
Qed.

Lemma sort_perm l : Permutation l (sort l).
Proof.
  induction l as [|x l IH]; simpl; auto.
  rewrite <- insert_perm. now constructor.
Qed.
End Sort.

(** The default comparison of [sort()]: strings by their characters. *)
Fixpoint compareStrings (a b : str) : Z :=
  match a, b with
  | [], [] => 0
  | [], _ :: _ => -1
  | _ :: _, [] => 1
  | x :: a', y :: b' =>
      match Nat.compare (nat_of_ascii x) (nat_of_ascii y) with
      | Lt => -1
      | Gt => 1
      | Eq => compareStrings a' b'
      end
  end%Z.

(** [l.indexOf(x)], [-1] when absent. *)
Fixpoint indexOf (x : str) (l : list str) : Z :=
  match l with
  | [] => -1
  | y :: l' =>
      if str_eqb x y then 0
      else let i := indexOf x l' in if (i <? 0)%Z then -1 else i + 1
  end%Z.

(** ** currentPrimes/main.js *)

Module Main.

(** A reward row [{ item, rarity }]; [extractPrimes] adds [source]. *)
Record RewardEntry := mkEntry {
  item : str;
  rarity : str;
  source : option str
}.

(** The rarity decided from the drop-chance cell in [findRelicTableData]. *)
Definition classifyRarity (rarityText : str) : str :=
  if includes (L"25.33%") rarityText then L"Common"
  else if includes (L"11.00%") rarityText then L"Uncommon"
  else if includes (L"2.00%") rarityText then L"Rare"
  else [].

(** The row loop of [findRelicTableData] over the rows that follow the
    heading, each given by the texts of its [td] cells.  A row without
    cells is skipped; reading [cells[1]] of a row with a single cell
    raises ([None]). *)
Fixpoint relicRows (rows : list (list str)) : option (list RewardEntry) :=
  match rows with
  | [] => Some []
  | cells :: rest =>
      match cells with
      | [] => relicRows rest
      | [_] => None
      | c0 :: c1 :: _ =>
          match relicRows rest with
          | Some out =>
              Some (mkEntry (trim c0) (classifyRarity (trim c1)) None :: out)
          | None => None
          end
      end
  end.

(** [item.split(' Prime')[0] + ' Prime'] *)
Definition primeNameOf (it : str) : str :=
  first (split (L" Prime") it) ++ L" Prime".

(** The body of the [forEach] callback of [extractPrimes].  Every key
    ends in [" Prime"], so [primes[primeName]] never reads a property
    inherited from [Object.prototype]. *)
Definition addPrime (relic : str) (primes : dict (list RewardEntry))
           (e : RewardEntry) : dict (list RewardEntry) :=
  if negb (includes (L"Forma") (item e)) && includes (L"Prime") (item e)
  then
    let primeName := primeNameOf (item e) in
    let primes1 :=
      match lookup primeName primes with
      | None => assign primeName [] primes
      | Some _ => primes
      end in
    update primeName
           (fun l => l ++ [mkEntry (item e) (rarity e) (Some relic)])
           primes1
  else primes.

Definition extractPrimes (relicData : dict (list RewardEntry))
  : dict (list RewardEntry) :=
  fold_left
    (fun primes kv => fold_left (addPrime (fst kv)) (snd kv) primes)
    relicData [].

Definition rarityOrder : list str := [L"Rare"; L"Uncommon"; L"Common"].

(** The comparator given to [primes[prime].sort]. *)
Definition byRarity (a b : RewardEntry) : Z :=
  (indexOf (rarity a) rarityOrder - indexOf (rarity b) rarityOrder)%Z.

Definition get (prime : str) (primes : dict (list RewardEntry))
  : list RewardEntry :=
  match lookup prime primes with
  | Some l => l
  | None => []
  end.

(** [Object.keys(primes).sort()] *)
Definition sortedPrimes (primes : dict (list RewardEntry)) : list str :=
  sort compareStrings (keys primes).

Definition sortedItems (primes : dict (list RewardEntry)) (prime : str)
  : list RewardEntry :=
  sort byRarity (get prime primes).

Definition partLine (e : RewardEntry) : str :=
  L"  - " ++ item e ++ L" (" ++ rarity e ++ L") -> " ++ show (source e).

Definition rewardLine (e : RewardEntry) : str :=
  L"- " ++ item e ++ L" (" ++ rarity e ++ L")".

(** What one turn of [sortedPrimes.forEach] appends. *)
Definition primeBlock (primes : dict (list RewardEntry)) (prime : str)
  : str :=
  L"- " ++ prime ++ NL ++
  flat_map (fun e => partLine e ++ NL) (sortedItems primes prime).

(** What one turn of [for (const relic in relicData)] appends. *)
Definition relicBlock (relicLocations : str -> option str)
           (kv : str * list RewardEntry) : str :=
  L"## " ++ fst kv ++ NL ++ NL ++
  flat_map (fun e => rewardLine e ++ NL) (snd kv) ++
  NL ++ L"**Location**: " ++
  show (relicLocations (first (split (L" ") (fst kv)))) ++ NL ++ NL.

(** [generateMarkdown]; [currentDate] is the text of today's date and
    [relicLocations k] the value of [relicLocations[k]], if any. *)
Definition generateMarkdown (currentDate : str)
           (primes relicData : dict (list RewardEntry))
           (relicLocations : str -> option str) : str :=
  L"# Generated on " ++ currentDate ++ NL ++ NL ++ L"# Primes" ++ NL ++ NL ++
  flat_map (primeBlock primes) (sortedPrimes primes) ++
  NL ++ L"# Relics" ++ NL ++ NL ++
  flat_map (relicBlock relicLocations) relicData.

End Main.

(** ** The markdown reader: data shared by the two converters *)

(** A part of a prime [{ part, rarity, relic }] and a reward of a relic
    [{ part, rarity }] (no [relic] property). *)
Record PartInfo := mkPart {
  part : str;
  rarity : str;
  relic : option str
}.

Record Prime := mkPrime { name : str; parts : list PartInfo }.

Record Relic := mkRelic { location : str; rewards : list PartInfo }.

(** The values [currentSection] takes besides [null].  [sections[line]]
    is a property read on an object literal, so a line that spells a member
    of [Object.prototype] finds that member, which is truthy and is
    neither ['primes'] nor ['relics']. *)
Inductive sectionValue := SecPrimes | SecRelics | SecInherited.

Record Parser := mkParser {
  primes : dict Prime;
  relics : dict Relic;
  currentSection : option sectionValue;
  currentItem : option str
}.

(** [new WarframeDataParser()] *)
Definition newParser : Parser := mkParser [] [] None None.

(** What a handler did: returned [true] after its effects, returned
    [false] (no effect), or let an exception escape. *)
Inductive outcome := Done (p : Parser) | Pass | Raise.

Definition objectPrototypeKeys : list str :=
  [L"constructor"; L"__defineGetter__"; L"__defineSetter__";
   L"hasOwnProperty"; L"__lookupGetter__"; L"__lookupSetter__";
   L"isPrototypeOf"; L"propertyIsEnumerable"; L"toString"; L"valueOf";
   L"__proto__"; L"toLocaleString"].

Definition sections (line : str) : option sectionValue :=
  if str_eqb line (L"# Primes") then Some SecPrimes
  else if str_eqb line (L"# Relics") then Some SecRelics
  else if existsb (str_eqb line) objectPrototypeKeys then Some SecInherited
  else None.

(** [handleSectionHeaders], the same in both converters. *)
Definition handleSectionHeaders (p : Parser) (line : str) : outcome :=
  match sections line with
  | Some sec => Done (mkParser (primes p) (relics p) (Some sec) None)
  | None => Pass
  end.

Definition inPrimes (p : Parser) : bool :=
  match currentSection p with
  | Some SecPrimes => true
  | _ => false
  end.

Definition inRelics (p : Parser) : bool :=
  match currentSection p with
  | Some SecRelics => true
  | _ => false
  end.

Definition isEmpty (s : str) : bool :=
  match s with
  | [] => true
  | _ => false
  end.

(** [line.replace(/^[- ]+/, '')] *)
Fixpoint stripDashes (s : str) : str :=
  match s with
  | [] => []
  | c :: s' =>
      if ch_eqb c "-"%char || ch_eqb c " "%char then stripDashes s' else s
  end.

(** [a.join(sep)] *)
Fixpoint join (sep : str) (l : list str) : str :=
  match l with
  | [] => []
  | [x] => x
  | x :: l' => x ++ sep ++ join sep l'
  end.

(** [this.primes.get(currentItem).parts.push(partInfo)] *)
Definition pushPart (ci : str) (x : PartInfo) (p : Parser) : Parser :=
  mkParser
    (update ci (fun e => mkPrime (name e) (parts e ++ [x])) (primes p))
    (relics p) (currentSection p) (currentItem p).

(** [this.relics.get(currentItem).rewards.push(reward)] *)
Definition pushReward (ci : str) (x : PartInfo) (p : Parser) : Parser :=
  mkParser (primes p)
    (update ci (fun e => mkRelic (location e) (rewards e ++ [x])) (relics p))
    (currentSection p) (currentItem p).

(** [this.relics.get(currentItem).location = loc] *)
Definition setLocation (ci : str) (loc : str) (p : Parser) : Parser :=
  mkParser (primes p)
    (update ci (fun e => mkRelic loc (rewards e)) (relics p))
    (currentSection p) (currentItem p).

(** [this.currentItem = n; this.primes.set(n, { name: n, parts: [] })] *)
Definition openPrime (n : str) (p : Parser) : Parser :=
  mkParser (assign n (mkPrime n []) (primes p)) (relics p)
           (currentSection p) (Some n).

(** [this.currentItem = n; this.relics.set(n, { location: '', rewards: [] })] *)
Definition openRelic (n : str) (p : Parser) : Parser :=
  mkParser (primes p) (assign n (mkRelic [] []) (relics p))
           (currentSection p) (Some n).

(** The object [parse] returns: [Object.fromEntries] of the two maps. *)
Record Parsed := mkParsed {
  parsedPrimes : dict Prime;
  parsedRelics : dict Relic
}.

(** [content.trim().split('\n').map(line => line.trim())] *)
Definition linesOf (content : str) : list str :=
  map trim (split NL (trim content)).

(** ** The page: data shared by the two converters *)

(** The two buckets of [separateWarframesWeapons]. *)
Record Separated := mkSeparated {
  warframes : dict Prime;
  weapons : dict Prime
}.

(** [o[k] = v] on an object literal.  ["__proto__"] names the accessor
    inherited from [Object.prototype]: assigning an object to it replaces
    the prototype and adds no own property. *)
Definition setProperty (V : Type) (k : str) (v : V) (o : dict V) : dict V :=
  if str_eqb k (L"__proto__") then o else assign k v o.

(** [parts.some(part => part.part.includes(t))] *)
Definition somePart (t : str) (info : Prime) : bool :=
  existsb (fun x => includes t (part x)) (parts info).

(** A group of [utils.groupParts]: [{ part, rarity, relics }]. *)
Record Group := mkGroup {
  groupPart : str;
  groupRarity : str;
  relicsOf : list (option str)
}.

Definition opt_eqb (a b : option str) : bool :=
  match a, b with
  | Some x, Some y => str_eqb x y
  | None, None => true
  | _, _ => false
  end.

(** [[...new Set(l)]]: the first occurrence of each value, in order. *)
Fixpoint dedupe_go (seen l : list (option str)) : list (option str) :=
  match l with
  | [] => []
  | x :: l' =>
      if existsb (opt_eqb x) seen then dedupe_go seen l'
      else x :: dedupe_go (x :: seen) l'
  end.

Definition dedupe (l : list (option str)) : list (option str) :=
  dedupe_go [] l.

(** [state.expandedItems.has(name)] *)
Definition has (name : str) (expandedItems : list str) : bool :=
  existsb (str_eqb name) expandedItems.

(** The double quote, template text (written with a backquote where the
    markup has a double quote) and runs of spaces. *)
Definition dq : ascii := "034"%char.

Definition T (s : string) : str :=
  map (fun c => if ch_eqb c "`"%char then dq else c) (L s).
Arguments T s%_string.

Definition sp (n : nat) : str := repeat " "%char n.

(** ** htmlConverter/htmlConverter.js *)

Module V1.

Definition parsePartAndRarity (info : str) : str * str :=
  let pieces := map trim (split (L"(") info) in
  let rarityWithParen := nth_error pieces 1 in
  (first pieces,
   if truthy rarityWithParen
   then remove_first ")"%char (show rarityWithParen)
   else []).

Definition parsePartInfo (line : str) : PartInfo :=
  let partLine := stripDashes line in
  let pieces := map trim (split (L"->") partLine) in
  let pr := parsePartAndRarity (first pieces) in
  mkPart (fst pr) (snd pr) (nth_error pieces 1).

Definition parseRewardInfo (line : str) : PartInfo :=
  let rewardLine := substring 2 line in
  let pr := parsePartAndRarity rewardLine in
  mkPart (fst pr) (snd pr) None.

Definition handlePrimeSection (p : Parser) (line : str) : outcome :=
  if negb (inPrimes p) then Pass
  else if startsWith (L"- ") line && negb (includes (L"->") line) then
    Done (openPrime (substring 2 line) p)
  else if (startsWith (L"  - ") line
           || (startsWith (L"- ") line && includes (L"->") line))
          && truthy (currentItem p) then
    let partInfo := parsePartInfo line in
    match lookup (show (currentItem p)) (primes p) with
    | Some _ => Done (pushPart (show (currentItem p)) partInfo p)
    | None => Raise
    end
  else Pass.

Definition handleRelicSection (p : Parser) (line : str) : outcome :=
  if negb (inRelics p) then Pass
  else if startsWith (L"## ") line then
    Done (openRelic (substring 3 line) p)
  else if startsWith (L"**Location**:") line && truthy (currentItem p) then
    match lookup (show (currentItem p)) (relics p),
          nth_error (split (L":") line) 1 with
    | Some _, Some loc => Done (setLocation (show (currentItem p)) (trim loc) p)
    | _, _ => Raise
    end
  else if startsWith (L"- ") line && truthy (currentItem p) then
    let reward := parseRewardInfo line in
    match lookup (show (currentItem p)) (relics p) with
    | Some _ => Done (pushReward (show (currentItem p)) reward p)
    | None => Raise
    end
  else Pass.

(** The callback of [lines.forEach]; [None] when an exception escapes. *)
Definition processLine (p : Parser) (line : str) : option Parser :=
  if isEmpty line then Some p
  else
    match handleSectionHeaders p line with
    | Done p' => Some p'
    | Raise => None
    | Pass =>
        match handlePrimeSection p line with
        | Done p' => Some p'
        | Raise => None
        | Pass =>
            match handleRelicSection p line with
            | Done p' => Some p'
            | Raise => None
            | Pass => Some p
            end
        end
    end.

Fixpoint run (p : Parser) (lines : list str) : option Parser :=
  match lines with
  | [] => Some p
  | line :: rest =>
      match processLine p line with
      | Some p' => run p' rest
      | None => None
      end
  end.

Definition parse (content : str) : option Parsed :=
  match run newParser (linesOf content) with
  | Some p => Some (mkParsed (primes p) (relics p))
  | None => None
  end.

Definition isWarframe (info : Prime) : bool := somePart (L"Systems") info.

Definition separateWarframesWeapons (primes : dict Prime) : Separated :=
  fold_left
    (fun separated kv =>
       if isWarframe (snd kv)
       then mkSeparated (setProperty (fst kv) (snd kv) (warframes separated))
                        (weapons separated)
       else mkSeparated (warframes separated)
                        (setProperty (fst kv) (snd kv) (weapons separated)))
    primes (mkSeparated [] []).

Section Page.

(** [utils.sortRelics]: its comparator subtracts table entries that may be
    [undefined]; the order the engine then produces is not fixed by the
    program and is left open. *)
Variable sortRelics : list (option str) -> list (option str).

Variable expandedItems : list str.

Definition groupKey (x : PartInfo) : str := part x ++ L"|" ++ rarity x.

Definition addToGroup (grouped : dict Group) (x : PartInfo) : dict Group :=
  let key := groupKey x in
  let grouped1 :=
    match lookup key grouped with
    | None => assign key (mkGroup (part x) (rarity x) []) grouped
    | Some _ => grouped
    end in
  update key
         (fun g => mkGroup (groupPart g) (groupRarity g)
                           (relicsOf g ++ [relic x]))
         grouped1.

Definition groupParts (l : list PartInfo) : list Group :=
  map (fun kv =>
         mkGroup (groupPart (snd kv)) (groupRarity (snd kv))
                 (sortRelics (dedupe (relicsOf (snd kv)))))
      (fold_left addToGroup l []).

Definition relicSpan (r : option str) : str :=
  NL ++ sp 48 ++ T"<span class=`relic-hover`" ++ NL ++ sp 52 ++
  T"onmouseover=`controller.showRelicPopup('" ++ show r ++ T"')`" ++ NL ++
  sp 52 ++ T"onmouseout=`controller.hideRelicPopup()`>" ++ NL ++ sp 52 ++
  show r ++ NL ++ sp 48 ++ T"</span>" ++ NL ++ sp 44.

Definition partItem (p : Group) : str :=
  NL ++ sp 36 ++ T"<li class=`part-item`>" ++ NL ++ sp 40 ++
  T"<span class=`rarity-" ++ groupRarity p ++ T"`>" ++ groupPart p ++
  T"</span>" ++ NL ++ sp 40 ++ T"<span>→</span>" ++ NL ++ sp 40 ++
  T"<span class=`part-link`>" ++ NL ++ sp 44 ++
  join (L" > ") (map relicSpan (relicsOf p)) ++ NL ++ sp 40 ++ T"</span>" ++
  NL ++ sp 36 ++ T"</li>" ++ NL ++ sp 32.

Definition renderPrimeItem (name : str) (info : Prime) : str :=
  let groupedParts := groupParts (parts info) in
  NL ++ sp 20 ++ T"<div class=`prime-item`>" ++ NL ++ sp 24 ++
  T"<div class=`prime-header` onclick=`controller.toggleItem('" ++ name ++
  T"')`>" ++ NL ++ sp 28 ++ T"<span>" ++ name ++ T"</span>" ++ NL ++ sp 28 ++
  T"<span>" ++ (if has name expandedItems then T"▼" else T"▶") ++
  T"</span>" ++ NL ++ sp 24 ++ T"</div>" ++ NL ++ sp 24 ++
  T"<div class=`prime-content " ++
  (if has name expandedItems then T"active" else []) ++ T"`>" ++ NL ++
  sp 28 ++ T"<ul class=`part-list`>" ++ NL ++ sp 32 ++
  join [] (map partItem groupedParts) ++ NL ++ sp 28 ++ T"</ul>" ++ NL ++
  sp 24 ++ T"</div>" ++ NL ++ sp 20 ++ T"</div>" ++ NL ++ sp 16.

End Page.

End V1.

(** ** The second, error-tolerant converter *)

Module V2.

(** The text after a ["("]: one or more characters other than [")"],
    then [")"], then the end of the string. *)
Definition parenBody (rest : str) : option str :=
  match rev rest with
  | c :: body =>
      if ch_eqb c ")"%char && negb (isEmpty body)
         && negb (existsb (ch_eqb ")"%char) body)
      then Some (rev body)
      else None
  | [] => None
  end.

(** [info.match(/\(([^)]+)\)$/)]: the index of the leftmost match and
    its group. *)
Fixpoint rarityMatch (info : str) : option (nat * str) :=
  match info with
  | [] => None
  | c :: rest =>
      match (if ch_eqb c "("%char then parenBody rest else None) with
      | Some body => Some (0, body)
      | None =>
          match rarityMatch rest with
          | Some (i, body) => Some (S i, body)
          | None => None
          end
      end
  end.

Definition parsePartAndRarity (info : str) : str * str :=
  if isEmpty info then ([], [])
  else
    match rarityMatch info with
    | Some (index, group) => (trim (firstn index info), trim group)
    | None => (info, [])
    end.

(** [None] stands for the [Error] thrown on a line without ["->"]. *)
Definition parsePartInfo (line : str) : option PartInfo :=
  let partLine := stripDashes line in
  let pieces := map trim (split (L"->") partLine) in
  if length pieces <? 2 then None
  else
    let pr := parsePartAndRarity (first pieces) in
    Some (mkPart (fst pr) (snd pr) (Some (show (nth_error pieces 1)))).

(** [None] stands for the [Error] thrown on an empty reward. *)
Definition parseRewardInfo (line : str) : option PartInfo :=
  let rewardLine := trim (substring 2 line) in
  if isEmpty rewardLine then None
  else
    let pr := parsePartAndRarity rewardLine in
    Some (mkPart (fst pr) (snd pr) None).

Definition handlePrimeSection (p : Parser) (line : str) : outcome :=
  if negb (inPrimes p) then Pass
  else if startsWith (L"- ") line && negb (includes (L"->") line) then
    let primeName := trim (substring 2 line) in
    if isEmpty primeName then Pass
    else Done (openPrime primeName p)
  else if truthy (currentItem p)
          && (startsWith (L"  - ") line
              || (startsWith (L"- ") line && includes (L"->") line)) then
    (* try { ... } catch (error) { return false } *)
    match parsePartInfo line, lookup (show (currentItem p)) (primes p) with
    | Some partInfo, Some _ =>
        Done (pushPart (show (currentItem p)) partInfo p)
    | _, _ => Pass
    end
  else Pass.

Definition handleRelicSection (p : Parser) (line : str) : outcome :=
  if negb (inRelics p) then Pass
  else if startsWith (L"## ") line then
    let relicName := trim (substring 3 line) in
    if isEmpty relicName then Pass
    else Done (openRelic relicName p)
  else if negb (truthy (currentItem p)) then Pass
  else if startsWith (L"**Location**:") line then
    let loc := trim (join (L":") (tl (split (L":") line))) in
    match lookup (show (currentItem p)) (relics p) with
    | Some _ => Done (setLocation (show (currentItem p)) loc p)
    | None => Raise
    end
  else if startsWith (L"- ") line then
    (* try { ... } catch (error) { return false } *)
    match parseRewardInfo line, lookup (show (currentItem p)) (relics p) with
    | Some reward, Some _ =>
        Done (pushReward (show (currentItem p)) reward p)
    | _, _ => Pass
    end
  else Pass.

(** The callback of [lines.forEach]; [None] when an exception escapes. *)
Definition processLine (p : Parser) (line : str) : option Parser :=
  if isEmpty line then Some p
  else
    match handleSectionHeaders p line with
    | Done p' => Some p'
    | Raise => None
    | Pass =>
        match handlePrimeSection p line with
        | Done p' => Some p'
        | Raise => None
        | Pass =>
            match handleRelicSection p line with
            | Done p' => Some p'
            | Raise => None
            | Pass => Some p
            end
        end
    end.

Fixpoint run (p : Parser) (lines : list str) : option Parser :=
  match lines with
  | [] => Some p
  | line :: rest =>
      match processLine p line with
      | Some p' => run p' rest
      | None => None
      end
  end.

Definition parse (content : str) : option Parsed :=
  match run newParser (linesOf content) with
  | Some p => Some (mkParsed (primes p) (relics p))
  | None => None
  end.

Definition isWarframe (info : Prime) : bool :=
  somePart (L"Systems") info || somePart (L"Chassis") info
  || somePart (L"Neuroptics") info.

Definition separateWarframesWeapons (primes : dict Prime) : Separated :=
  fold_left
    (fun separated kv =>
       if isWarframe (snd kv)
       then mkSeparated (setProperty (fst kv) (snd kv) (warframes separated))
                        (weapons separated)
       else mkSeparated (warframes separated)
                        (setProperty (fst kv) (snd kv) (weapons separated)))
    primes (mkSeparated [] []).

(** [utils.escapeHtml] *)
Definition escapeHtml (unsafe : str) : str :=
  replaceAll "'"%char (L"&#039;")
    (replaceAll dq (L"&quot;")
       (replaceAll ">"%char (L"&gt;")
          (replaceAll "<"%char (L"&lt;")
             (replaceAll "&"%char (L"&amp;") unsafe)))).

Section Page.

(** [utils.sortRelics]: ties between tiers are broken by [localeCompare],
    whose order belongs to the engine's locale data and is left open. *)
Variable sortRelics : list (option str) -> list (option str).

Variable expandedItems : list str.

Definition groupKey (x : PartInfo) : str := part x ++ L"|" ++ rarity x.

Definition addToGroup (grouped : dict Group) (x : PartInfo) : dict Group :=
  if isEmpty (part x) then grouped
  else
    let key := groupKey x in
    let grouped1 :=
      match lookup key grouped with
      | None => assign key (mkGroup (part x) (rarity x) []) grouped
      | Some _ => grouped
      end in
    if truthy (relic x)
    then update key
                (fun g => mkGroup (groupPart g) (groupRarity g)
                                  (relicsOf g ++ [relic x]))
                grouped1
    else grouped1.

Definition groupParts (l : list PartInfo) : list Group :=
  map (fun kv =>
         mkGroup (groupPart (snd kv)) (groupRarity (snd kv))
                 (sortRelics (dedupe (filter truthy (relicsOf (snd kv))))))
      (fold_left addToGroup l []).

Definition relicSpan (r : option str) : str :=
  NL ++ sp 48 ++ T"<span class=`relic-hover`" ++ NL ++ sp 52 ++
  T"onmouseover=`controller.showRelicPopup('" ++ escapeHtml (show r) ++
  T"')`" ++ NL ++ sp 52 ++
  T"onmouseout=`controller.hideRelicPopupWithDelay()`>" ++ NL ++ sp 52 ++
  escapeHtml (show r) ++ NL ++ sp 48 ++ T"</span>" ++ NL ++ sp 44.

Definition partItem (p : Group) : str :=
  NL ++ sp 36 ++ T"<li class=`part-item`>" ++ NL ++ sp 40 ++
  T"<span class=`rarity-" ++ groupRarity p ++ T"`>" ++
  escapeHtml (groupPart p) ++ T"</span>" ++ NL ++ sp 40 ++
  T"<span>→</span>" ++ NL ++ sp 40 ++ T"<span class=`part-link`>" ++ NL ++
  sp 44 ++ join (L" > ") (map relicSpan (relicsOf p)) ++ NL ++ sp 40 ++
  T"</span>" ++ NL ++ sp 36 ++ T"</li>" ++ NL ++ sp 32.

Definition renderPrimeItem (name : str) (info : Prime) : str :=
  let escapedName := escapeHtml name in
  let groupedParts := groupParts (parts info) in
  NL ++ sp 20 ++ T"<div class=`prime-item`>" ++ NL ++ sp 24 ++
  T"<div class=`prime-header` onclick=`controller.toggleItem('" ++
  escapedName ++ T"')`>" ++ NL ++ sp 28 ++ T"<span>" ++ escapedName ++
  T"</span>" ++ NL ++ sp 28 ++ T"<span>" ++
  (if has name expandedItems then T"▼" else T"▶") ++ T"</span>" ++ NL ++
  sp 24 ++ T"</div>" ++ NL ++ sp 24 ++ T"<div class=`prime-content " ++
  (if has name expandedItems then T"active" else []) ++ T"`>" ++ NL ++
  sp 28 ++ T"<ul class=`part-list`>" ++ NL ++ sp 32 ++
  join [] (map partItem groupedParts) ++ NL ++ sp 28 ++ T"</ul>" ++ NL ++
  sp 24 ++ T"</div>" ++ NL ++ sp 20 ++ T"</div>" ++ NL ++ sp 16.

End Page.

End V2.

(** * Properties *)

(** ** The rarity classifier *)

Lemma Substr_includes t s : Substr t s -> includes t s = true.
Proof. apply includes_spec. Qed.

Lemma not_Substr_includes t s : ~ Substr t s -> includes t s = false.
Proof. apply includes_false. Qed.

(** C6: the rarity read off the drop-chance cell is decided by substring
    containment against three literal percentages in a fixed order, the
    first match winning: "25.33%" gives Common, otherwise "11.00%" gives
    Uncommon, otherwise "2.00%" gives Rare, and any other text gives the
    empty string; the row loop of [findRelicTableData] stores exactly this
    value, computed from the trimmed second cell. *)
Theorem classifyRarity_first_match (rarityText : str) :
  (Substr (L"25.33%") rarityText ->
   Main.classifyRarity rarityText = L"Common") /\
  (~ Substr (L"25.33%") rarityText -> Substr (L"11.00%") rarityText ->
   Main.classifyRarity rarityText = L"Uncommon") /\
  (~ Substr (L"25.33%") rarityText -> ~ Substr (L"11.00%") rarityText ->
   Substr (L"2.00%") rarityText ->
   Main.classifyRarity rarityText = L"Rare") /\
  (~ Substr (L"25.33%") rarityText -> ~ Substr (L"11.00%") rarityText ->
   ~ Substr (L"2.00%") rarityText ->
   Main.classifyRarity rarityText = []) /\
  (forall c0 more rest,
     Main.relicRows ((c0 :: rarityText :: more) :: rest) =
     option_map
       (cons (Main.mkEntry (trim c0) (Main.classifyRarity (trim rarityText))
                           None))
       (Main.relicRows rest)).
Proof.
  unfold Main.classifyRarity. split; [|split; [|split; [|split]]].
  - intros H. now rewrite (Substr_includes H).
  - intros H1 H2.
    now rewrite (not_Substr_includes H1), (Substr_includes H2).
  - intros H1 H2 H3.
    now rewrite (not_Substr_includes H1), (not_Substr_includes H2),
      (Substr_includes H3).
  - intros H1 H2 H3.
    now rewrite (not_Substr_includes H1), (not_Substr_includes H2),
      (not_Substr_includes H3).
  - intros c0 more rest. simpl. destruct (Main.relicRows rest); reflexivity.
Qed.

Lemma classifyRarity_first_match_witness :
  Main.classifyRarity (L"Uncommon (25.33%)") = L"Common" /\
  Main.classifyRarity (L"Uncommon (11.00%)") = L"Uncommon" /\
  Main.classifyRarity (L"Rare (2.00%)") = L"Rare" /\
  Main.classifyRarity (L"Legendary (0.50%)") = [].
Proof.
  split; [|split; [|split]].
  - apply (proj1 (classifyRarity_first_match (L"Uncommon (25.33%)"))).
    exists (L"Uncommon ("), (L")"). reflexivity.
  - apply (proj1 (proj2 (classifyRarity_first_match (L"Uncommon (11.00%)")))).
    + apply includes_false. reflexivity.
    + exists (L"Uncommon ("), (L")"). reflexivity.
  - apply (proj1 (proj2 (proj2
             (classifyRarity_first_match (L"Rare (2.00%)"))))).
    + apply includes_false. reflexivity.
    + apply includes_false. reflexivity.
    + exists (L"Rare ("), (L")"). reflexivity.
  - apply (proj1 (proj2 (proj2 (proj2
             (classifyRarity_first_match (L"Legendary (0.50%)")))))).
    + apply includes_false. reflexivity.
    + apply includes_false. reflexivity.
    + apply includes_false. reflexivity.
Defined.

(** ** The grouper *)

(** An entry is taken when its name holds "Prime" and not "Forma". *)
Definition qualifies (it : str) : Prop :=
  Substr (L"Prime") it /\ ~ Substr (L"Forma") it.

Definition qualifiesb (it : str) : bool :=
  negb (includes (L"Forma") it) && includes (L"Prime") it.

Lemma qualifiesb_spec it : qualifiesb it = true <-> qualifies it.
Proof.
  unfold qualifiesb, qualifies.
  rewrite andb_true_iff, negb_true_iff, includes_false, includes_spec. tauto.
Qed.

(** The fold of [extractPrimes], from any intermediate object. *)
Definition extractFrom (primes relicData : dict (list Main.RewardEntry)) :=
  fold_left
    (fun primes kv => fold_left (Main.addPrime (fst kv)) (snd kv) primes)
    relicData primes.

(** What holds of every entry stored in the groups: its name qualifies, it
    sits under the key derived from its name, and its source is one of the
    relics [P] accepts. *)
Definition Grouped (P : str -> Prop) (primes : dict (list Main.RewardEntry))
  : Prop :=
  forall k l x, lookup k primes = Some l -> In x l ->
    qualifies (Main.item x) /\ Main.primeNameOf (Main.item x) = k /\
    exists r, Main.source x = Some r /\ P r.

Lemma lookup_addPrime relic primes e k :
  qualifiesb (Main.item e) = true ->
  lookup k (Main.addPrime relic primes e) =
  if str_eqb k (Main.primeNameOf (Main.item e))
  then Some (Main.get k primes ++
             [Main.mkEntry (Main.item e) (Main.rarity e) (Some relic)])
  else lookup k primes.
Proof.
  intros Hq. unfold Main.addPrime. fold (qualifiesb (Main.item e)).
  rewrite Hq. cbv zeta. set (pn := Main.primeNameOf (Main.item e)).
  destruct (str_eqb k pn) eqn:E.
  - apply str_eqb_eq in E. subst k. rewrite lookup_update_eq.
    unfold Main.get. destruct (lookup pn primes) eqn:El.
    + rewrite El. reflexivity.
    + rewrite lookup_assign_eq. reflexivity.
  - apply str_eqb_neq in E. rewrite lookup_update_ne by assumption.
    destruct (lookup pn primes); [reflexivity|].
    now rewrite lookup_assign_ne.
Qed.

Lemma addPrime_skip relic primes e :
  qualifiesb (Main.item e) = false -> Main.addPrime relic primes e = primes.
Proof.
  intros Hq. unfold Main.addPrime. fold (qualifiesb (Main.item e)).
  now rewrite Hq.
Qed.

Lemma Grouped_addPrime (P : str -> Prop) relic primes e :
  P relic -> Grouped P primes -> Grouped P (Main.addPrime relic primes e).
Proof.
  intros HP HG. destruct (qualifiesb (Main.item e)) eqn:Hq.
  - intros k l x Hl Hx. rewrite lookup_addPrime in Hl by assumption.
    destruct (str_eqb k (Main.primeNameOf (Main.item e))) eqn:E.
    + apply str_eqb_eq in E. inversion Hl; subst l; clear Hl.
      apply in_app_or in Hx as [Hx|[Hx|[]]].
      * unfold Main.get in Hx.
        destruct (lookup k primes) eqn:El; [|destruct Hx].
        exact (HG _ _ _ El Hx).
      * subst x. simpl. apply qualifiesb_spec in Hq. eauto.
    + exact (HG _ _ _ Hl Hx).
  - now rewrite addPrime_skip.
Qed.

Lemma Grouped_rows (P : str -> Prop) relic rows primes :
  P relic -> Grouped P primes ->
  Grouped P (fold_left (Main.addPrime relic) rows primes).
Proof.
  intros HP. revert primes.
  induction rows as [|e rows IH]; intros primes HG; simpl; auto.
  apply IH. now apply Grouped_addPrime.
Qed.

Lemma Grouped_extractFrom (P : str -> Prop) relicData primes :
  (forall r, In r (keys relicData) -> P r) ->
  Grouped P primes -> Grouped P (extractFrom primes relicData).
Proof.
  revert primes. induction relicData as [|[r rows] rd IH];
    intros primes HP HG; simpl; auto.
  apply IH.
  - intros r' Hr'. apply HP. now right.
  - apply Grouped_rows; auto. apply HP. now left.
Qed.

Lemma Grouped_extractPrimes relicData :
  Grouped (fun r => In r (keys relicData)) (Main.extractPrimes relicData).
Proof.
  apply (@Grouped_extractFrom (fun r => In r (keys relicData))); auto.
  intros k l x H. discriminate.
Qed.

(** C9: every part recorded in the groups that [extractPrimes] returns
    carries a source, and that source is a key of the relic dataset given
    to it: every part references an existing container. *)
Theorem extractPrimes_source_exists
        (relicData : dict (list Main.RewardEntry)) (key : str)
        (group : list Main.RewardEntry) (x : Main.RewardEntry) :
  lookup key (Main.extractPrimes relicData) = Some group ->
  In x group ->
  exists relic, Main.source x = Some relic /\ In relic (keys relicData).
Proof.
  intros Hl Hx. pose proof (Grouped_extractPrimes relicData) as HG.
  destruct (HG _ _ _ Hl Hx) as (_ & _ & H). exact H.
Qed.

(** A small dataset: two relics, one prime shared by both. *)
Definition sampleRelics : dict (list Main.RewardEntry) :=
  [(L"Lith A1 Relic",
    [Main.mkEntry (L"Volt Prime Systems") (L"Rare") None;
     Main.mkEntry (L"Forma Blueprint") (L"Common") None]);
   (L"Axi B2 Relic",
    [Main.mkEntry (L"Volt Prime Chassis") (L"Common") None])].

Lemma extractPrimes_source_exists_witness :
  exists relic,
    Main.source (Main.mkEntry (L"Volt Prime Chassis") (L"Common")
                              (Some (L"Axi B2 Relic"))) = Some relic /\
    In relic (keys sampleRelics).
Proof.
  apply (@extractPrimes_source_exists sampleRelics (L"Volt Prime")
           [Main.mkEntry (L"Volt Prime Systems") (L"Rare")
                         (Some (L"Lith A1 Relic"));
            Main.mkEntry (L"Volt Prime Chassis") (L"Common")
                         (Some (L"Axi B2 Relic"))]).
  - reflexivity.
  - simpl. auto.
Defined.

(** [x] is recorded under [key]. *)
Definition Holds (x : Main.RewardEntry) (key : str)
           (primes : dict (list Main.RewardEntry)) : Prop :=
  exists l, lookup key primes = Some l /\ In x l.

Lemma addPrime_keeps relic primes e x k :
  Holds x k primes -> Holds x k (Main.addPrime relic primes e).
Proof.
  intros (l & Hl & Hx). destruct (qualifiesb (Main.item e)) eqn:Hq.
  - unfold Holds. rewrite lookup_addPrime by assumption.
    destruct (str_eqb k (Main.primeNameOf (Main.item e))).
    + eexists; split; [reflexivity|]. apply in_or_app. left.
      unfold Main.get. now rewrite Hl.
    + eauto.
  - rewrite addPrime_skip by assumption. exists l; auto.
Qed.

Lemma addPrime_adds relic primes e :
  qualifiesb (Main.item e) = true ->
  Holds (Main.mkEntry (Main.item e) (Main.rarity e) (Some relic))
        (Main.primeNameOf (Main.item e)) (Main.addPrime relic primes e).
Proof.
  intros Hq. unfold Holds. rewrite lookup_addPrime by assumption.
  rewrite str_eqb_refl. eexists; split; [reflexivity|].
  apply in_or_app. right. now left.
Qed.

Lemma rows_keeps relic rows primes x k :
  Holds x k primes -> Holds x k (fold_left (Main.addPrime relic) rows primes).
Proof.
  revert primes. induction rows as [|e rows IH]; intros primes H; simpl; auto.
  apply IH. now apply addPrime_keeps.
Qed.

Lemma rows_adds relic rows primes e :
  In e rows -> qualifiesb (Main.item e) = true ->
  Holds (Main.mkEntry (Main.item e) (Main.rarity e) (Some relic))
        (Main.primeNameOf (Main.item e))
        (fold_left (Main.addPrime relic) rows primes).
Proof.
  revert primes. induction rows as [|e' rows IH]; intros primes Hin Hq.
  - destruct Hin.
  - simpl. destruct Hin as [->|Hin].
    + apply rows_keeps. now apply addPrime_adds.
    + now apply IH.
Qed.

Lemma extractFrom_keeps relicData primes x k :
  Holds x k primes -> Holds x k (extractFrom primes relicData).
Proof.
  revert primes. induction relicData as [|[r rows] rd IH];
    intros primes H; simpl; auto.
  apply IH. now apply rows_keeps.
Qed.

Lemma extractFrom_adds relicData primes relic rows e :
  In (relic, rows) relicData -> In e rows ->
  qualifiesb (Main.item e) = true ->
  Holds (Main.mkEntry (Main.item e) (Main.rarity e) (Some relic))
        (Main.primeNameOf (Main.item e)) (extractFrom primes relicData).
Proof.
  revert primes. induction relicData as [|[r rows'] rd IH];
    intros primes Hin He Hq.
  - destruct Hin.
  - simpl. destruct Hin as [Hin|Hin].
    + inversion Hin; subst. apply extractFrom_keeps. now apply rows_adds.
    + now apply IH.
Qed.

Lemma primeNameOf_first_occurrence a it :
  FirstAt (L" Prime") a it -> Main.primeNameOf it = a ++ L" Prime".
Proof.
  intros (b & -> & Hmin). unfold Main.primeNameOf.
  rewrite split_first_occurrence; [reflexivity|discriminate|exact Hmin].
Qed.

Lemma primeNameOf_no_occurrence it :
  ~ Substr (L" Prime") it -> Main.primeNameOf it = it ++ L" Prime".
Proof.
  intros H. unfold Main.primeNameOf.
  rewrite split_none; [reflexivity|]. now apply includes_false.
Qed.

(** The key as the specification words it: the name cut at the marker
    "Prime", and the marker put back. *)
Definition markerKey (it : str) : str :=
  first (split (L"Prime") it) ++ L"Prime".

(** C5, as stated, fails: an entry named "Primed Chamber" holds "Prime" and
    no "Forma", so it is grouped; cutting at the marker "Prime" would give
    the key "Prime", but the code cuts at " Prime" (with the space), finds
    none, and files the entry under "Primed Chamber Prime". *)
Lemma extractPrimes_marker_key_counterexample :
  let rd := [(L"Lith A1 Relic",
              [Main.mkEntry (L"Primed Chamber") (L"Rare") None])] in
  qualifiesb (L"Primed Chamber") = true /\
  markerKey (L"Primed Chamber") = L"Prime" /\
  lookup (markerKey (L"Primed Chamber")) (Main.extractPrimes rd) = None /\
  lookup (L"Primed Chamber Prime") (Main.extractPrimes rd) =
  Some [Main.mkEntry (L"Primed Chamber") (L"Rare") (Some (L"Lith A1 Relic"))].
Proof. vm_compute. repeat split. Qed.

(** C5 (amended): a reward entry of the dataset is recorded in some group
    if and only if its name holds "Prime" and not "Forma"; it is then
    recorded under the key [primeNameOf], and under no other key, where the
    key is the name cut at the first occurrence of " Prime" (the marker
    with its leading space; the whole name when there is none) followed by
    " Prime"; "Volt Prime Systems" is filed under "Volt Prime"; and no
    group holds an entry whose name contains "Forma". *)
Theorem extractPrimes_grouping
        (relicData : dict (list Main.RewardEntry)) (relic : str)
        (rows : list Main.RewardEntry) (e : Main.RewardEntry) :
  In (relic, rows) relicData -> In e rows ->
  let primes := Main.extractPrimes relicData in
  let x := Main.mkEntry (Main.item e) (Main.rarity e) (Some relic) in
  ((exists key, Holds x key primes) <-> qualifies (Main.item e)) /\
  (qualifies (Main.item e) ->
   Holds x (Main.primeNameOf (Main.item e)) primes) /\
  (forall key, Holds x key primes -> key = Main.primeNameOf (Main.item e)) /\
  (forall a, FirstAt (L" Prime") a (Main.item e) ->
     Main.primeNameOf (Main.item e) = a ++ L" Prime") /\
  (~ Substr (L" Prime") (Main.item e) ->
     Main.primeNameOf (Main.item e) = Main.item e ++ L" Prime") /\
  Main.primeNameOf (L"Volt Prime Systems") = L"Volt Prime" /\
  (forall key l y, lookup key primes = Some l -> In y l ->
     ~ Substr (L"Forma") (Main.item y)).
Proof.
  intros Hrel He primes x.
  pose proof (Grouped_extractPrimes relicData) as HG.
  assert (Hadd : qualifies (Main.item e) ->
                 Holds x (Main.primeNameOf (Main.item e)) primes).
  { intros Hq. apply qualifiesb_spec in Hq.
    exact (@extractFrom_adds relicData [] relic rows e Hrel He Hq). }
  split; [|split; [|split; [|split; [|split; [|split]]]]].
  - split.
    + intros (key & l & Hl & Hx). destruct (HG _ _ _ Hl Hx) as (Hq & _).
      exact Hq.
    + intros Hq. eexists. apply Hadd. exact Hq.
  - exact Hadd.
  - intros key (l & Hl & Hx). destruct (HG _ _ _ Hl Hx) as (_ & Hk & _).
    simpl in Hk. congruence.
  - intros a. apply primeNameOf_first_occurrence.
  - apply primeNameOf_no_occurrence.
  - reflexivity.
  - intros key l y Hl Hy. destruct (HG _ _ _ Hl Hy) as ((_ & Hq) & _).
    exact Hq.
Qed.

Lemma extractPrimes_grouping_witness :
  Holds (Main.mkEntry (L"Volt Prime Systems") (L"Rare")
                      (Some (L"Lith A1 Relic")))
        (L"Volt Prime") (Main.extractPrimes sampleRelics).
Proof.
  assert (Hin : In (L"Lith A1 Relic",
                    [Main.mkEntry (L"Volt Prime Systems") (L"Rare") None;
                     Main.mkEntry (L"Forma Blueprint") (L"Common") None])
                   sampleRelics) by (left; reflexivity).
  assert (He : In (Main.mkEntry (L"Volt Prime Systems") (L"Rare") None)
                  [Main.mkEntry (L"Volt Prime Systems") (L"Rare") None;
                   Main.mkEntry (L"Forma Blueprint") (L"Common") None])
    by (left; reflexivity).
  apply (proj1 (proj2 (extractPrimes_grouping _ _ _ _ Hin He))).
  apply qualifiesb_spec. reflexivity.
Defined.

(** ** The writer's orderings *)

(** What [sort] guarantees for a comparator that never calls both [a]
    after [b] and [b] after [a]: neighbours are in order. *)
Lemma insert_sorted (A : Type) (cmp : A -> A -> Z) x l :
  (forall a b, (cmp a b > 0)%Z -> (cmp b a <= 0)%Z) ->
  Sorted (fun a b => (cmp a b <= 0)%Z) l ->
  Sorted (fun a b => (cmp a b <= 0)%Z) (insert cmp x l).
Proof.
  intros Hc. induction l as [|y l IH]; intros Hs; simpl.
  - constructor; constructor.
  - destruct (cmp x y <=? 0)%Z eqn:E.
    + constructor; auto. constructor. now apply Z.leb_le.
    + apply Z.leb_gt in E. inversion Hs as [|? ? Hs' Hhd]; subst.
      constructor; auto.
      destruct l as [|z l]; simpl.
      * constructor. apply Hc. lia.
      * destruct (cmp x z <=? 0)%Z.
        -- constructor. apply Hc. lia.
        -- constructor. now inversion Hhd.
Qed.

Lemma sort_sorted (A : Type) (cmp : A -> A -> Z) l :
  (forall a b, (cmp a b > 0)%Z -> (cmp b a <= 0)%Z) ->
  Sorted (fun a b => (cmp a b <= 0)%Z) (sort cmp l).
Proof.
  intros Hc. induction l as [|x l IH]; simpl.
  - constructor.
  - now apply insert_sorted.
Qed.

(** The place of a rarity in the order the writer sorts by: the index in
    [rarityOrder], and [-1], in front of "Rare", for any other text,
    the empty rarity included. *)
Definition rarityRank (r : str) : Z := indexOf r Main.rarityOrder.

Lemma sortedItems_by_rank primes prime :
  Sorted
    (fun a b => (rarityRank (Main.rarity a) <= rarityRank (Main.rarity b))%Z)
    (Main.sortedItems primes prime).
Proof.
  unfold Main.sortedItems.
  generalize (@sort_sorted _ Main.byRarity (Main.get prime primes)).
  unfold Main.byRarity, rarityRank. intros H.
  assert (Hs := H ltac:(intros; lia)). clear H.
  induction Hs as [|a l Hs IH Hhd]; constructor; auto.
  destruct Hhd; constructor. lia.
Qed.

Lemma rarityRank_values :
  rarityRank [] = (-1)%Z /\ rarityRank (L"Rare") = 0%Z /\
  rarityRank (L"Uncommon") = 1%Z /\ rarityRank (L"Common") = 2%Z.
Proof. repeat split. Qed.

(** A relic whose table holds a row with a drop chance the classifier does
    not know, so that one part has the empty rarity. *)
Definition relicsWithUnknownRarity : dict (list Main.RewardEntry) :=
  [(L"Lith A1 Relic",
    [Main.mkEntry (L"Volt Prime Systems") (L"Rare") None;
     Main.mkEntry (L"Volt Prime Chassis") [] None])].

(** C2: on [relicsWithUnknownRarity] the part with the empty rarity is
    written in front of the Rare part, not after the Common ones: the
    comparator ranks a rarity by [indexOf] in [Rare, Uncommon, Common],
    which is [-1] for the empty text. *)
Theorem generateMarkdown_unknown_rarity_first
        (currentDate : str) (relicLocations : str -> option str) :
  let primes := Main.extractPrimes relicsWithUnknownRarity in
  map Main.rarity (Main.sortedItems primes (L"Volt Prime")) = [[]; L"Rare"] /\
  Main.generateMarkdown currentDate primes relicsWithUnknownRarity
                        relicLocations =
  L"# Generated on " ++ currentDate ++ NL ++ NL ++
  L"# Primes" ++ NL ++ NL ++
  L"- Volt Prime" ++ NL ++
  L"  - Volt Prime Chassis () -> Lith A1 Relic" ++ NL ++
  L"  - Volt Prime Systems (Rare) -> Lith A1 Relic" ++ NL ++
  NL ++ L"# Relics" ++ NL ++ NL ++
  L"## Lith A1 Relic" ++ NL ++ NL ++
  L"- Volt Prime Systems (Rare)" ++ NL ++
  L"- Volt Prime Chassis ()" ++ NL ++
  NL ++ L"**Location**: " ++ show (relicLocations (L"Lith")) ++ NL ++ NL.
Proof.
  split.
  - reflexivity.
  - unfold Main.generateMarkdown, relicsWithUnknownRarity.
    cbn [flat_map]. rewrite app_nil_r. vm_compute. reflexivity.
Qed.

(** ** The two buckets *)

(** One turn of the [forEach] of [separateWarframesWeapons], for a given
    test. *)
Definition bucketStep (isW : Prime -> bool) (separated : Separated)
           (kv : str * Prime) : Separated :=
  if isW (snd kv)
  then mkSeparated (setProperty (fst kv) (snd kv) (warframes separated))
                   (weapons separated)
  else mkSeparated (warframes separated)
                   (setProperty (fst kv) (snd kv) (weapons separated)).

Lemma v1_separate_fold primes :
  V1.separateWarframesWeapons primes =
  fold_left (bucketStep V1.isWarframe) primes (mkSeparated [] []).
Proof. reflexivity. Qed.

Lemma v2_separate_fold primes :
  V2.separateWarframesWeapons primes =
  fold_left (bucketStep V2.isWarframe) primes (mkSeparated [] []).
Proof. reflexivity. Qed.

Lemma lookup_setProperty_ne (V : Type) k k' (v : V) o :
  k' <> k -> lookup k' (setProperty k v o) = lookup k' o.
Proof.
  intros H. unfold setProperty. destruct (str_eqb k (L"__proto__")); auto.
  now apply lookup_assign_ne.
Qed.

Lemma bucket_frame isW l acc k :
  ~ In k (keys l) ->
  lookup k (warframes (fold_left (bucketStep isW) l acc)) =
    lookup k (warframes acc) /\
  lookup k (weapons (fold_left (bucketStep isW) l acc)) =
    lookup k (weapons acc).
Proof.
  revert acc. induction l as [|[k' v] l IH]; intros acc Hin; simpl; auto.
  assert (Hne : k <> k') by (intros ->; apply Hin; now left).
  destruct (IH (bucketStep isW acc (k', v))) as [H1 H2].
  { intros H. apply Hin. now right. }
  rewrite H1, H2. unfold bucketStep. simpl.
  destruct (isW v); simpl; rewrite ?lookup_setProperty_ne; auto.
Qed.

(** Every entry whose name is not ["__proto__"] lands in exactly one
    bucket, the one its test selects. *)
Lemma bucket_placement isW l acc k info :
  NoDup (keys l) -> In (k, info) l -> k <> L"__proto__" ->
  lookup k (warframes acc) = None -> lookup k (weapons acc) = None ->
  let r := fold_left (bucketStep isW) l acc in
  if isW info
  then lookup k (warframes r) = Some info /\ lookup k (weapons r) = None
  else lookup k (warframes r) = None /\ lookup k (weapons r) = Some info.
Proof.
  revert acc. induction l as [|[k' v] l IH]; intros acc Hnd Hin Hp Hw Hv;
    [destruct Hin|].
  simpl in Hnd. inversion Hnd as [|? ? Hnotin Hnd']; subst.
  destruct Hin as [Heq|Hin].
  - inversion Heq; subst k' v. cbn zeta. simpl fold_left.
    destruct (@bucket_frame isW l (bucketStep isW acc (k, info)) k Hnotin)
      as [H1 H2].
    rewrite H1, H2. unfold bucketStep, setProperty. cbn [fst snd].
    apply str_eqb_neq in Hp. rewrite Hp.
    destruct (isW info); cbn [warframes weapons];
      rewrite lookup_assign_eq; auto.
  - assert (Hne : k <> k').
    { intros ->. apply Hnotin. apply (in_map fst) in Hin. exact Hin. }
    simpl fold_left. apply IH; auto.
    + unfold bucketStep. simpl.
      destruct (isW v); simpl; rewrite ?lookup_setProperty_ne; auto.
    + unfold bucketStep. simpl.
      destruct (isW v); simpl; rewrite ?lookup_setProperty_ne; auto.
Qed.

Lemma includes_somePart t info x :
  In x (parts info) -> Substr t (part x) -> somePart t info = true.
Proof.
  intros Hin Hs. unfold somePart. apply existsb_exists.
  exists x. split; auto. now apply includes_spec.
Qed.

(** In the second converter a prime with a "Chassis" part is frame-like,
    and a prime none of whose parts names a frame component is
    weapon-like. *)
Lemma v2_separate_chassis primes k info x :
  NoDup (keys primes) -> In (k, info) primes -> k <> L"__proto__" ->
  In x (parts info) -> Substr (L"Chassis") (part x) ->
  lookup k (warframes (V2.separateWarframesWeapons primes)) = Some info /\
  lookup k (weapons (V2.separateWarframesWeapons primes)) = None.
Proof.
  intros Hnd Hin Hp Hx Hs.
  generalize (@bucket_placement V2.isWarframe primes (mkSeparated [] [])
                k info Hnd Hin Hp eq_refl eq_refl).
  cbn zeta. unfold V2.isWarframe at 1.
  rewrite (includes_somePart _ _ Hx Hs), orb_true_r. simpl. auto.
Qed.

Lemma v2_separate_weapon primes k info :
  NoDup (keys primes) -> In (k, info) primes -> k <> L"__proto__" ->
  V2.isWarframe info = false ->
  lookup k (warframes (V2.separateWarframesWeapons primes)) = None /\
  lookup k (weapons (V2.separateWarframesWeapons primes)) = Some info.
Proof.
  intros Hnd Hin Hp Hw.
  generalize (@bucket_placement V2.isWarframe primes (mkSeparated [] [])
                k info Hnd Hin Hp eq_refl eq_refl).
  cbn zeta. rewrite Hw. auto.
Qed.

(** A prime whose only part is its chassis. *)
Definition chassisOnlyMarkdown : str :=
  L"# Primes" ++ NL ++
  L"- Volt Prime" ++ NL ++
  L"  - Volt Prime Chassis (Common) -> Lith A1 Relic" ++ NL.

Definition chassisOnlyPrime : Prime :=
  mkPrime (L"Volt Prime")
          [mkPart (L"Volt Prime Chassis") (L"Common")
                  (Some (L"Lith A1 Relic"))].

(** C3: on the dataset parsed from [chassisOnlyMarkdown],
    [htmlConverter.js] tests only for "Systems" and puts the prime, whose
    one part is "Volt Prime Chassis", in the weapons bucket; the second
    converter, which also tests for "Chassis" and "Neuroptics", puts the
    same prime in the warframes bucket. *)
Theorem separate_chassis_only :
  option_map (fun d => V1.separateWarframesWeapons (parsedPrimes d))
             (V1.parse chassisOnlyMarkdown) =
  Some (mkSeparated [] [(L"Volt Prime", chassisOnlyPrime)]) /\
  option_map (fun d => V2.separateWarframesWeapons (parsedPrimes d))
             (V2.parse chassisOnlyMarkdown) =
  Some (mkSeparated [(L"Volt Prime", chassisOnlyPrime)] []).
Proof. split; vm_compute; reflexivity. Qed.

(** ** Escaping *)

Definition escapeChar (c : ascii) : str :=
  if ch_eqb c "&"%char then L"&amp;"
  else if ch_eqb c "<"%char then L"&lt;"
  else if ch_eqb c ">"%char then L"&gt;"
  else if ch_eqb c dq then L"&quot;"
  else if ch_eqb c "'"%char then L"&#039;"
  else [c].

Lemma replaceAll_app c r a b :
  replaceAll c r (a ++ b) = replaceAll c r a ++ replaceAll c r b.
Proof. apply flat_map_app. Qed.

(** The five replacements in a row amount to one pass that maps each
    character to its entity. *)
Lemma escapeHtml_flat_map s : V2.escapeHtml s = flat_map escapeChar s.
Proof.
  unfold V2.escapeHtml. induction s as [|c s IH]; [reflexivity|].
  change (c :: s) with ([c] ++ s). rewrite !replaceAll_app, IH.
  rewrite flat_map_app. f_equal.
  unfold escapeChar. simpl.
  destruct (ch_eqb c "&"%char) eqn:E1; [reflexivity|].
  simpl. destruct (ch_eqb c "<"%char) eqn:E2; [reflexivity|].
  simpl. destruct (ch_eqb c ">"%char) eqn:E3; [reflexivity|].
  simpl. destruct (ch_eqb c dq) eqn:E4; [reflexivity|].
  simpl. destruct (ch_eqb c "'"%char) eqn:E5; reflexivity.
Qed.

(** Escaped text holds no angle bracket and no quote. *)
Lemma escapeHtml_safe s c :
  In c (V2.escapeHtml s) ->
  c <> "<"%char /\ c <> ">"%char /\ c <> dq /\ c <> "'"%char.
Proof.
  rewrite escapeHtml_flat_map. intros H. apply in_flat_map in H as (x & _ & H).
  unfold escapeChar in H.
  destruct (ch_eqb x "&"%char) eqn:E1;
    [simpl in H; repeat destruct H as [<-|H]; try easy|].
  destruct (ch_eqb x "<"%char) eqn:E2;
    [simpl in H; repeat destruct H as [<-|H]; try easy|].
  destruct (ch_eqb x ">"%char) eqn:E3;
    [simpl in H; repeat destruct H as [<-|H]; try easy|].
  destruct (ch_eqb x dq) eqn:E4;
    [simpl in H; repeat destruct H as [<-|H]; try easy|].
  destruct (ch_eqb x "'"%char) eqn:E5;
    [simpl in H; repeat destruct H as [<-|H]; try easy|].
  destruct H as [<-|[]].
  apply ch_eqb_neq in E2, E3, E4, E5. auto.
Qed.

(** A prime whose name holds markup, and a part whose rarity does. *)
Definition markupMarkdown : str :=
  L"# Primes" ++ NL ++
  L"- <b>Volt</b> Prime" ++ NL ++
  L"  - Volt Prime Chassis (<i>) -> Lith A1 Relic" ++ NL.

Definition markupPrime : Prime :=
  mkPrime (L"<b>Volt</b> Prime")
          [mkPart (L"Volt Prime Chassis") (L"<i>") (Some (L"Lith A1 Relic"))].

(** C4: on the dataset parsed from [markupMarkdown], [renderPrimeItem] of
    [htmlConverter.js] inserts the prime name as it is, angle brackets
    included; the second converter escapes the name, yet inserts the rarity
    of the part unescaped into the class attribute. *)
Theorem renderPrimeItem_unescaped
        (sortRelics : list (option str) -> list (option str))
        (expandedItems : list str) :
  option_map parsedPrimes (V1.parse markupMarkdown) =
    Some [(L"<b>Volt</b> Prime", markupPrime)] /\
  option_map parsedPrimes (V2.parse markupMarkdown) =
    Some [(L"<b>Volt</b> Prime", markupPrime)] /\
  includes (L"<span><b>Volt</b> Prime</span>")
           (V1.renderPrimeItem sortRelics expandedItems
                               (L"<b>Volt</b> Prime") markupPrime) = true /\
  includes (L"<span>&lt;b&gt;Volt&lt;/b&gt; Prime</span>")
           (V2.renderPrimeItem sortRelics expandedItems
                               (L"<b>Volt</b> Prime") markupPrime) = true /\
  includes (T"<span class=`rarity-<i>`>")
           (V2.renderPrimeItem sortRelics expandedItems
                               (L"<b>Volt</b> Prime") markupPrime) = true.
Proof.
  split; [vm_compute; reflexivity|].
  split; [vm_compute; reflexivity|].
  split; [vm_compute; reflexivity|].
  split; [vm_compute; reflexivity|].
  unfold V2.renderPrimeItem.
  destruct (has (L"<b>Volt</b> Prime") expandedItems);
    vm_compute; reflexivity.
Qed.

(** ** The reader never raises *)

Arguments startsWith : simpl never.
Arguments includes : simpl never.
Arguments split : simpl never.
Arguments trim : simpl never.
Arguments substring : simpl never.
Arguments L : simpl never.

(** Whenever an item is open in a section, the map of that section has an
    entry for it. *)
Definition Open (p : Parser) : Prop :=
  forall ci, currentItem p = Some ci ->
    (inPrimes p = true -> lookup ci (primes p) <> None) /\
    (inRelics p = true -> lookup ci (relics p) <> None).

(** The invariant of the reader: the open item has its entry, and a map
    holds one entry per name. *)
Definition Inv (p : Parser) : Prop :=
  Open p /\ NoDup (keys (primes p)) /\ NoDup (keys (relics p)).

Lemma Inv_newParser : Inv newParser.
Proof.
  split; [|split; constructor]. intros ci H. discriminate.
Qed.

Lemma Inv_enter p sec :
  Inv p -> Inv (mkParser (primes p) (relics p) (Some sec) None).
Proof.
  intros (_ & H1 & H2). split; [|split; assumption].
  intros ci H. discriminate.
Qed.

Lemma Inv_openPrime n p : Inv p -> inPrimes p = true -> Inv (openPrime n p).
Proof.
  intros (_ & H1 & H2) Hp. split; [|split].
  - intros ci H. simpl in H. inversion H; subst ci. split.
    + intros _. simpl. now rewrite lookup_assign_eq.
    + unfold inPrimes, inRelics in *. simpl.
      destruct (currentSection p) as [[]|]; discriminate.
  - cbn [openPrime primes]. now apply NoDup_keys_assign.
  - exact H2.
Qed.

Lemma Inv_openRelic n p : Inv p -> inRelics p = true -> Inv (openRelic n p).
Proof.
  intros (_ & H1 & H2) Hp. split; [|split].
  - intros ci H. simpl in H. inversion H; subst ci. split.
    + unfold inPrimes, inRelics in *. simpl.
      destruct (currentSection p) as [[]|]; discriminate.
    + intros _. simpl. now rewrite lookup_assign_eq.
  - exact H1.
  - cbn [openRelic relics]. now apply NoDup_keys_assign.
Qed.

Lemma lookup_update_some (V : Type) k k' (f : V -> V) o :
  lookup k' o <> None -> lookup k' (update k f o) <> None.
Proof.
  intros H. destruct (str_eqb k' k) eqn:E.
  - apply str_eqb_eq in E. subst k'. rewrite lookup_update_eq.
    destruct (lookup k o); [discriminate|congruence].
  - apply str_eqb_neq in E. now rewrite lookup_update_ne.
Qed.

Lemma Inv_pushPart ci x p : Inv p -> Inv (pushPart ci x p).
Proof.
  intros (HI & N1 & N2). split; [|split].
  - intros c Hc. destruct (HI c Hc) as [H1 H2]. split; intros H.
    + simpl. apply lookup_update_some. now apply H1.
    + now apply H2.
  - cbn [pushPart primes]. now rewrite keys_update.
  - exact N2.
Qed.

Lemma Inv_pushReward ci x p : Inv p -> Inv (pushReward ci x p).
Proof.
  intros (HI & N1 & N2). split; [|split].
  - intros c Hc. destruct (HI c Hc) as [H1 H2]. split; intros H.
    + now apply H1.
    + simpl. apply lookup_update_some. now apply H2.
  - exact N1.
  - cbn [pushReward relics]. now rewrite keys_update.
Qed.

Lemma Inv_setLocation ci loc p : Inv p -> Inv (setLocation ci loc p).
Proof.
  intros (HI & N1 & N2). split; [|split].
  - intros c Hc. destruct (HI c Hc) as [H1 H2]. split; intros H.
    + now apply H1.
    + simpl. apply lookup_update_some. now apply H2.
  - exact N1.
  - cbn [setLocation relics]. now rewrite keys_update.
Qed.

Lemma truthy_show o : truthy o = true -> o = Some (show o).
Proof. destruct o as [[|c s]|]; simpl; intros H; congruence. Qed.

Lemma Inv_lookup_primes p :
  Inv p -> inPrimes p = true -> truthy (currentItem p) = true ->
  exists e, lookup (show (currentItem p)) (primes p) = Some e.
Proof.
  intros HI Hp Ht. apply truthy_show in Ht.
  destruct (proj1 HI _ Ht) as [H _]. specialize (H Hp).
  destruct (lookup (show (currentItem p)) (primes p)) as [e|];
    [exists e; reflexivity | congruence].
Qed.

Lemma Inv_lookup_relics p :
  Inv p -> inRelics p = true -> truthy (currentItem p) = true ->
  exists e, lookup (show (currentItem p)) (relics p) = Some e.
Proof.
  intros HI Hp Ht. apply truthy_show in Ht.
  destruct (proj1 HI _ Ht) as [_ H]. specialize (H Hp).
  destruct (lookup (show (currentItem p)) (relics p)) as [e|];
    [exists e; reflexivity | congruence].
Qed.

Lemma split_second_exists c a b :
  exists x, nth_error (split [c] (a ++ c :: b)) 1 = Some x.
Proof.
  induction a as [|y a IH].
  - cbn [app]. change (c :: b) with ([c] ++ b).
    rewrite split_match by discriminate.
    generalize (@split_not_nil [c] b). destruct (split [c] b) as [|h t];
      [congruence|]. intros _. exists h. reflexivity.
  - change ((y :: a) ++ c :: b) with (y :: (a ++ c :: b)).
    destruct (startsWith [c] (y :: a ++ c :: b)) eqn:E.
    + apply startsWith_spec in E as [r Hr]. rewrite Hr.
      rewrite split_match by discriminate.
      generalize (@split_not_nil [c] r). destruct (split [c] r) as [|h t];
        [congruence|]. intros _. exists h. reflexivity.
    + rewrite split_cons_nomatch by assumption.
      destruct IH as [x Hx].
      destruct (split [c] (a ++ c :: b)) as [|h [|h2 t]]; try discriminate.
      exists x. exact Hx.
Qed.

(** The outcome of the handlers of [htmlConverter.js] in a state that
    satisfies the invariant. *)
Lemma v1_prime_outcome p line :
  Inv p ->
  match V1.handlePrimeSection p line with
  | Done p' => Inv p'
  | Pass => True
  | Raise => False
  end.
Proof.
  intros HI. unfold V1.handlePrimeSection.
  destruct (inPrimes p) eqn:Hp; cbn [negb]; auto.
  destruct (startsWith (L"- ") line && negb (includes (L"->") line)).
  - now apply Inv_openPrime.
  - destruct ((startsWith (L"  - ") line
               || startsWith (L"- ") line && includes (L"->") line)
              && truthy (currentItem p)) eqn:E; auto.
    apply andb_true_iff in E as [_ Ht].
    destruct (Inv_lookup_primes HI Hp Ht) as [e He]. rewrite He.
    now apply Inv_pushPart.
Qed.

Lemma v1_relic_outcome p line :
  Inv p ->
  match V1.handleRelicSection p line with
  | Done p' => Inv p'
  | Pass => True
  | Raise => False
  end.
Proof.
  intros HI. unfold V1.handleRelicSection.
  destruct (inRelics p) eqn:Hp; cbn [negb]; auto.
  destruct (startsWith (L"## ") line).
  - now apply Inv_openRelic.
  - destruct (startsWith (L"**Location**:") line && truthy (currentItem p))
      eqn:E.
    + apply andb_true_iff in E as [Hs Ht].
      destruct (Inv_lookup_relics HI Hp Ht) as [e He]. rewrite He.
      apply startsWith_spec in Hs as [r ->].
      destruct (@split_second_exists ":"%char (L"**Location**") r) as [x Hx].
      change (L"**Location**:" ++ r) with (L"**Location**" ++ ":"%char :: r).
      change (L":") with [":"%char]. rewrite Hx.
      now apply Inv_setLocation.
    + destruct (startsWith (L"- ") line && truthy (currentItem p)) eqn:E2;
        auto.
      apply andb_true_iff in E2 as [_ Ht].
      destruct (Inv_lookup_relics HI Hp Ht) as [e He]. rewrite He.
      now apply Inv_pushReward.
Qed.

Lemma v1_processLine_total p line :
  Inv p -> exists p', V1.processLine p line = Some p' /\ Inv p'.
Proof.
  intros HI. unfold V1.processLine.
  destruct (isEmpty line); [eauto|].
  unfold handleSectionHeaders. destruct (sections line).
  - eexists; split; [reflexivity|]. now apply Inv_enter.
  - generalize (@v1_prime_outcome p line HI).
    destruct (V1.handlePrimeSection p line); [eauto| |tauto].
    intros _. generalize (@v1_relic_outcome p line HI).
    destruct (V1.handleRelicSection p line); [eauto|eauto|tauto].
Qed.

Lemma v1_run_total lines p :
  Inv p -> exists p', V1.run p lines = Some p' /\ Inv p'.
Proof.
  revert p. induction lines as [|line rest IH]; intros p HI; simpl; eauto.
  destruct (v1_processLine_total line HI) as (p' & -> & HI'). now apply IH.
Qed.

(** The outcome of the handlers of the second converter. *)
Lemma v2_prime_outcome p line :
  Inv p ->
  match V2.handlePrimeSection p line with
  | Done p' => Inv p'
  | Pass => True
  | Raise => False
  end.
Proof.
  intros HI. unfold V2.handlePrimeSection.
  destruct (inPrimes p) eqn:Hp; cbn [negb]; auto.
  destruct (startsWith (L"- ") line && negb (includes (L"->") line)).
  - destruct (isEmpty (trim (substring 2 line))); auto.
    now apply Inv_openPrime.
  - destruct (truthy (currentItem p)
              && (startsWith (L"  - ") line
                  || startsWith (L"- ") line && includes (L"->") line));
      auto.
    destruct (V2.parsePartInfo line); auto.
    destruct (lookup (show (currentItem p)) (primes p)); auto.
    now apply Inv_pushPart.
Qed.

Lemma v2_relic_outcome p line :
  Inv p ->
  match V2.handleRelicSection p line with
  | Done p' => Inv p'
  | Pass => True
  | Raise => False
  end.
Proof.
  intros HI. unfold V2.handleRelicSection.
  destruct (inRelics p) eqn:Hp; cbn [negb]; auto.
  destruct (startsWith (L"## ") line).
  - destruct (isEmpty (trim (substring 3 line))); auto.
    now apply Inv_openRelic.
  - destruct (truthy (currentItem p)) eqn:Ht; cbn [negb]; auto.
    destruct (Inv_lookup_relics HI Hp Ht) as [e He]. rewrite He.
    destruct (startsWith (L"**Location**:") line).
    + now apply Inv_setLocation.
    + destruct (startsWith (L"- ") line); auto.
      destruct (V2.parseRewardInfo line); auto.
      now apply Inv_pushReward.
Qed.

Lemma v2_processLine_total p line :
  Inv p -> exists p', V2.processLine p line = Some p' /\ Inv p'.
Proof.
  intros HI. unfold V2.processLine.
  destruct (isEmpty line); [eauto|].
  unfold handleSectionHeaders. destruct (sections line).
  - eexists; split; [reflexivity|]. now apply Inv_enter.
  - generalize (@v2_prime_outcome p line HI).
    destruct (V2.handlePrimeSection p line); [eauto| |tauto].
    intros _. generalize (@v2_relic_outcome p line HI).
    destruct (V2.handleRelicSection p line); [eauto|eauto|tauto].
Qed.

Lemma v2_run_total lines p :
  Inv p -> exists p', V2.run p lines = Some p' /\ Inv p'.
Proof.
  revert p. induction lines as [|line rest IH]; intros p HI; simpl; eauto.
  destruct (v2_processLine_total line HI) as (p' & -> & HI'). now apply IH.
Qed.

(** [parse] returns a dataset for every text. *)
Lemma v1_parse_total content : exists d, V1.parse content = Some d.
Proof.
  unfold V1.parse.
  destruct (v1_run_total (linesOf content) Inv_newParser) as (p & -> & _).
  eauto.
Qed.

Lemma v2_parse_total content : exists d, V2.parse content = Some d.
Proof.
  unfold V2.parse.
  destruct (v2_run_total (linesOf content) Inv_newParser) as (p & -> & _).
  eauto.
Qed.

(** ** Line by line *)

(** The lines [handleSectionHeaders] reacts to. *)
Definition sectionKeys : list str :=
  L"# Primes" :: L"# Relics" :: objectPrototypeKeys.

Lemma sections_Some_In line sec : sections line = Some sec -> In line sectionKeys.
Proof.
  unfold sections, sectionKeys. intros H.
  destruct (str_eqb line (L"# Primes")) eqn:E1.
  { apply str_eqb_eq in E1. left. auto. }
  destruct (str_eqb line (L"# Relics")) eqn:E2.
  { apply str_eqb_eq in E2. right. left. auto. }
  destruct (existsb (str_eqb line) objectPrototypeKeys) eqn:E3;
    [|discriminate].
  apply existsb_exists in E3 as (k & Hk & E). apply str_eqb_eq in E.
  subst k. right. right. exact Hk.
Qed.

(** No such line starts with a prefix that none of them starts with. *)
Lemma sections_none_prefix pre line :
  forallb (fun k => negb (startsWith pre k)) sectionKeys = true ->
  startsWith pre line = true -> sections line = None.
Proof.
  intros Hall Hs. destruct (sections line) as [sec|] eqn:E; [|reflexivity].
  apply sections_Some_In in E. rewrite forallb_forall in Hall.
  specialize (Hall _ E). rewrite Hs in Hall. discriminate.
Qed.

Lemma sections_none_dash line :
  startsWith (L"- ") line = true -> sections line = None.
Proof. apply sections_none_prefix. reflexivity. Qed.

Lemma sections_none_hashes line :
  startsWith (L"## ") line = true -> sections line = None.
Proof. apply sections_none_prefix. reflexivity. Qed.

Lemma sections_none_location line :
  startsWith (L"**Location**:") line = true -> sections line = None.
Proof. apply sections_none_prefix. reflexivity. Qed.

Lemma sections_none_generated line :
  startsWith (L"# Generated on") line = true -> sections line = None.
Proof. apply sections_none_prefix. reflexivity. Qed.

Lemma startsWith_trans p q s :
  startsWith p q = true -> startsWith q s = true -> startsWith p s = true.
Proof.
  rewrite !startsWith_spec. intros [r1 ->] [r2 ->].
  exists (r1 ++ r2). now rewrite app_assoc.
Qed.

(** Two prefixes that differ in a character exclude each other. *)
Lemma startsWith_excl p q s :
  startsWith p s = true ->
  startsWith p q = false -> startsWith q p = false ->
  startsWith q s = false.
Proof.
  revert q s. induction p as [|x p IH]; intros q s Hs Hpq Hqp.
  - discriminate.
  - destruct s as [|y s]; [discriminate|].
    unfold startsWith in Hs; fold startsWith in Hs.
    apply andb_true_iff in Hs as [Hxy Hs]. apply ch_eqb_eq in Hxy. subst y.
    destruct q as [|z q]; [discriminate|].
    unfold startsWith in *; fold startsWith in *.
    destruct (ch_eqb z x) eqn:E; [|reflexivity].
    apply ch_eqb_eq in E. subst z. rewrite ch_eqb_refl in *.
    cbn [andb] in *. now apply IH.
Qed.

Lemma startsWith_not_empty p s :
  p <> [] -> startsWith p s = true -> isEmpty s = false.
Proof. destruct p; [congruence|]. destruct s; [discriminate|reflexivity]. Qed.

Lemma not_inPrimes_of_inRelics p : inRelics p = true -> inPrimes p = false.
Proof.
  unfold inRelics, inPrimes.
  destruct (currentSection p) as [[]|]; auto; discriminate.
Qed.

Lemma not_inRelics_of_inPrimes p : inPrimes p = true -> inRelics p = false.
Proof.
  unfold inRelics, inPrimes.
  destruct (currentSection p) as [[]|]; auto; discriminate.
Qed.

(** *** Steps of [htmlConverter.js] *)

Lemma v1_step_empty p : V1.processLine p [] = Some p.
Proof. reflexivity. Qed.

Lemma v1_step_enter p line sec :
  sections line = Some sec ->
  V1.processLine p line =
  Some (mkParser (primes p) (relics p) (Some sec) None).
Proof.
  intros H. unfold V1.processLine, handleSectionHeaders. rewrite H.
  destruct (isEmpty line) eqn:E; [|reflexivity].
  destruct line; [discriminate H | discriminate E].
Qed.

Lemma v1_step_inert p line :
  currentSection p = None -> sections line = None ->
  V1.processLine p line = Some p.
Proof.
  intros Hs Hl. unfold V1.processLine, handleSectionHeaders.
  rewrite Hl. unfold V1.handlePrimeSection, V1.handleRelicSection,
    inPrimes, inRelics. rewrite Hs. cbn [negb].
  destruct (isEmpty line); reflexivity.
Qed.

Lemma v1_step_open p line :
  inPrimes p = true -> startsWith (L"- ") line = true ->
  includes (L"->") line = false ->
  V1.processLine p line = Some (openPrime (substring 2 line) p).
Proof.
  intros Hp Hs Hi. unfold V1.processLine, handleSectionHeaders.
  rewrite (startsWith_not_empty (p:=L"- ")) by (discriminate || auto).
  rewrite sections_none_dash by assumption.
  unfold V1.handlePrimeSection. rewrite Hp, Hs, Hi. reflexivity.
Qed.

Lemma v1_step_part p line :
  Inv p -> inPrimes p = true -> truthy (currentItem p) = true ->
  startsWith (L"- ") line = true -> includes (L"->") line = true ->
  V1.processLine p line =
  Some (pushPart (show (currentItem p)) (V1.parsePartInfo line) p).
Proof.
  intros HI Hp Ht Hs Hi. unfold V1.processLine, handleSectionHeaders.
  rewrite (startsWith_not_empty (p:=L"- ")) by (discriminate || auto).
  rewrite sections_none_dash by assumption.
  unfold V1.handlePrimeSection. rewrite Hp, Hs, Hi, Ht.
  cbn [negb andb orb]. rewrite orb_true_r. cbn [andb].
  destruct (Inv_lookup_primes HI Hp Ht) as [e He]. rewrite He. reflexivity.
Qed.

Lemma v1_step_relic p line :
  inRelics p = true -> startsWith (L"## ") line = true ->
  V1.processLine p line = Some (openRelic (substring 3 line) p).
Proof.
  intros Hp Hs. unfold V1.processLine, handleSectionHeaders.
  rewrite (startsWith_not_empty (p:=L"## ")) by (discriminate || auto).
  rewrite sections_none_hashes by assumption.
  unfold V1.handlePrimeSection. rewrite (not_inPrimes_of_inRelics _ Hp).
  cbn [negb]. unfold V1.handleRelicSection. rewrite Hp, Hs. reflexivity.
Qed.

Lemma v1_step_reward p line :
  Inv p -> inRelics p = true -> truthy (currentItem p) = true ->
  startsWith (L"- ") line = true ->
  V1.processLine p line =
  Some (pushReward (show (currentItem p)) (V1.parseRewardInfo line) p).
Proof.
  intros HI Hp Ht Hs. unfold V1.processLine, handleSectionHeaders.
  rewrite (startsWith_not_empty (p:=L"- ")) by (discriminate || auto).
  rewrite sections_none_dash by assumption.
  unfold V1.handlePrimeSection. rewrite (not_inPrimes_of_inRelics _ Hp).
  cbn [negb]. unfold V1.handleRelicSection. rewrite Hp, Hs, Ht.
  rewrite (@startsWith_excl (L"- ") (L"## ") line Hs eq_refl eq_refl).
  rewrite (@startsWith_excl (L"- ") (L"**Location**:") line Hs eq_refl eq_refl).
  cbn [negb andb].
  destruct (Inv_lookup_relics HI Hp Ht) as [e He]. rewrite He. reflexivity.
Qed.

Lemma v1_step_location p line loc :
  Inv p -> inRelics p = true -> truthy (currentItem p) = true ->
  startsWith (L"**Location**:") line = true ->
  nth_error (split (L":") line) 1 = Some loc ->
  V1.processLine p line =
  Some (setLocation (show (currentItem p)) (trim loc) p).
Proof.
  intros HI Hp Ht Hs Hn. unfold V1.processLine, handleSectionHeaders.
  rewrite (startsWith_not_empty (p:=L"**Location**:"))
    by (discriminate || auto).
  rewrite sections_none_location by assumption.
  unfold V1.handlePrimeSection. rewrite (not_inPrimes_of_inRelics _ Hp).
  cbn [negb]. unfold V1.handleRelicSection. rewrite Hp, Hs, Ht, Hn.
  rewrite (@startsWith_excl (L"**Location**:") (L"## ") line Hs eq_refl eq_refl).
  cbn [negb andb].
  destruct (Inv_lookup_relics HI Hp Ht) as [e He]. rewrite He. reflexivity.
Qed.

(** *** Steps of the second converter *)

Lemma v2_step_empty p : V2.processLine p [] = Some p.
Proof. reflexivity. Qed.

Lemma v2_step_enter p line sec :
  sections line = Some sec ->
  V2.processLine p line =
  Some (mkParser (primes p) (relics p) (Some sec) None).
Proof.
  intros H. unfold V2.processLine, handleSectionHeaders. rewrite H.
  destruct (isEmpty line) eqn:E; [|reflexivity].
  destruct line; [discriminate H | discriminate E].
Qed.

Lemma v2_step_inert p line :
  currentSection p = None -> sections line = None ->
  V2.processLine p line = Some p.
Proof.
  intros Hs Hl. unfold V2.processLine, handleSectionHeaders.
  rewrite Hl. unfold V2.handlePrimeSection, V2.handleRelicSection,
    inPrimes, inRelics. rewrite Hs. cbn [negb].
  destruct (isEmpty line); reflexivity.
Qed.

Lemma v2_step_open p line :
  inPrimes p = true -> startsWith (L"- ") line = true ->
  includes (L"->") line = false ->
  isEmpty (trim (substring 2 line)) = false ->
  V2.processLine p line = Some (openPrime (trim (substring 2 line)) p).
Proof.
  intros Hp Hs Hi Hn. unfold V2.processLine, handleSectionHeaders.
  rewrite (startsWith_not_empty (p:=L"- ")) by (discriminate || auto).
  rewrite sections_none_dash by assumption.
  unfold V2.handlePrimeSection. rewrite Hp, Hs, Hi, Hn. reflexivity.
Qed.

Lemma v2_step_part p line x :
  Inv p -> inPrimes p = true -> truthy (currentItem p) = true ->
  startsWith (L"- ") line = true -> includes (L"->") line = true ->
  V2.parsePartInfo line = Some x ->
  V2.processLine p line = Some (pushPart (show (currentItem p)) x p).
Proof.
  intros HI Hp Ht Hs Hi Hx. unfold V2.processLine, handleSectionHeaders.
  rewrite (startsWith_not_empty (p:=L"- ")) by (discriminate || auto).
  rewrite sections_none_dash by assumption.
  unfold V2.handlePrimeSection. rewrite Hp, Hs, Hi, Ht, Hx.
  cbn [negb andb orb]. rewrite orb_true_r.
  destruct (Inv_lookup_primes HI Hp Ht) as [e He]. rewrite He. reflexivity.
Qed.

Lemma v2_step_relic p line :
  inRelics p = true -> startsWith (L"## ") line = true ->
  isEmpty (trim (substring 3 line)) = false ->
  V2.processLine p line = Some (openRelic (trim (substring 3 line)) p).
Proof.
  intros Hp Hs Hn. unfold V2.processLine, handleSectionHeaders.
  rewrite (startsWith_not_empty (p:=L"## ")) by (discriminate || auto).
  rewrite sections_none_hashes by assumption.
  unfold V2.handlePrimeSection. rewrite (not_inPrimes_of_inRelics _ Hp).
  cbn [negb]. unfold V2.handleRelicSection. rewrite Hp, Hs, Hn. reflexivity.
Qed.

Lemma v2_step_reward p line x :
  Inv p -> inRelics p = true -> truthy (currentItem p) = true ->
  startsWith (L"- ") line = true ->
  V2.parseRewardInfo line = Some x ->
  V2.processLine p line = Some (pushReward (show (currentItem p)) x p).
Proof.
  intros HI Hp Ht Hs Hx. unfold V2.processLine, handleSectionHeaders.
  rewrite (startsWith_not_empty (p:=L"- ")) by (discriminate || auto).
  rewrite sections_none_dash by assumption.
  unfold V2.handlePrimeSection. rewrite (not_inPrimes_of_inRelics _ Hp).
  cbn [negb]. unfold V2.handleRelicSection. rewrite Hp, Hs, Ht, Hx.
  rewrite (@startsWith_excl (L"- ") (L"## ") line Hs eq_refl eq_refl).
  rewrite (@startsWith_excl (L"- ") (L"**Location**:") line Hs eq_refl eq_refl).
  cbn [negb].
  destruct (Inv_lookup_relics HI Hp Ht) as [e He]. rewrite He. reflexivity.
Qed.

Lemma v2_step_location p line :
  Inv p -> inRelics p = true -> truthy (currentItem p) = true ->
  startsWith (L"**Location**:") line = true ->
  V2.processLine p line =
  Some (setLocation (show (currentItem p))
                    (trim (join (L":") (tl (split (L":") line)))) p).
Proof.
  intros HI Hp Ht Hs. unfold V2.processLine, handleSectionHeaders.
  rewrite (startsWith_not_empty (p:=L"**Location**:"))
    by (discriminate || auto).
  rewrite sections_none_location by assumption.
  unfold V2.handlePrimeSection. rewrite (not_inPrimes_of_inRelics _ Hp).
  cbn [negb]. unfold V2.handleRelicSection. rewrite Hp, Hs, Ht.
  rewrite (@startsWith_excl (L"**Location**:") (L"## ") line Hs eq_refl eq_refl).
  cbn [negb].
  destruct (Inv_lookup_relics HI Hp Ht) as [e He]. rewrite He. reflexivity.
Qed.

(** ** Reading back what the writer wrote *)

(** Literals and concatenations with literals, spelled out. *)
Ltac lit := unfold L, NL; cbn [list_ascii_of_string app].

Definition nl : ascii := "010"%char.

Definition lastIs (c : ascii) (s : str) : bool :=
  match rev s with
  | x :: _ => ch_eqb c x
  | [] => false
  end.

Definition headIs (c : ascii) (s : str) : bool :=
  match s with
  | x :: _ => ch_eqb c x
  | [] => false
  end.

Lemma lastIs_cons c x y s : lastIs c (x :: y :: s) = lastIs c (y :: s).
Proof.
  unfold lastIs. cbn [rev]. destruct (rev s) as [|z t]; simpl; auto.
Qed.

Lemma includes2_nil c1 c2 : includes [c1; c2] [] = false.
Proof. reflexivity. Qed.

Lemma includes2_cons c1 c2 x s :
  includes [c1; c2] (x :: s) =
  (ch_eqb c1 x && headIs c2 s) || includes [c1; c2] s.
Proof.
  unfold includes; fold includes. f_equal.
  unfold startsWith, headIs. destruct s; [reflexivity|].
  now rewrite andb_true_r.
Qed.

(** A two-character pattern occurs in [a ++ b] inside [a], inside [b], or
    across the seam. *)
Lemma includes2_app c1 c2 a b :
  includes [c1; c2] (a ++ b) =
  includes [c1; c2] a || includes [c1; c2] b || (lastIs c1 a && headIs c2 b).
Proof.
  induction a as [|x a IH].
  - cbn [app]. rewrite includes2_nil. unfold lastIs. cbn [rev andb orb].
    now rewrite orb_false_r.
  - cbn [app]. rewrite !includes2_cons, IH.
    destruct a as [|y a].
    + cbn [app]. rewrite includes2_nil.
      unfold lastIs. cbn [rev app]. unfold headIs at 2.
      generalize (ch_eqb c1 x), (headIs c2 b), (includes [c1; c2] b).
      intros [] [] []; reflexivity.
    + rewrite lastIs_cons. cbn [app].
      change (headIs c2 (y :: a ++ b)) with (headIs c2 (y :: a)).
      generalize (ch_eqb c1 x), (headIs c2 b), (includes [c1; c2] b),
        (headIs c2 (y :: a)), (includes [c1; c2] (y :: a)),
        (lastIs c1 (y :: a)).
      intros [] [] [] [] [] []; reflexivity.
Qed.

Lemma headIs_literal c x s : headIs c (x :: s) = ch_eqb c x.
Proof. reflexivity. Qed.

(** A string fit for a line of the document: not empty, no white space at
    either end, on one line. *)
Definition tidy (s : str) : Prop := clean s = true /\ ~ In nl s.

(** A name that can stand in front of a parenthesized rarity. *)
Definition plainItem (it : str) : Prop :=
  tidy it /\ ~ In "("%char it /\ includes (L"->") it = false.

(** A rarity label that can stand between parentheses. *)
Definition plainRarity (r : str) : Prop :=
  ~ In "("%char r /\ ~ In ")"%char r /\ includes (L"->") r = false /\
  ~ In nl r /\ (r = [] \/ clean r = true).

Lemma clean_starts s : clean s = true -> starts_nonws s = true.
Proof. unfold clean. intros H. now apply andb_true_iff in H as [H _]. Qed.

Lemma clean_ends s : clean s = true -> ends_nonws s = true.
Proof. unfold clean. intros H. now apply andb_true_iff in H as [_ H]. Qed.

Lemma remove_first_snoc c r : ~ In c r -> remove_first c (r ++ [c]) = r.
Proof.
  induction r as [|x r IH]; intros H; cbn [app remove_first].
  - now rewrite ch_eqb_refl.
  - destruct (ch_eqb x c) eqn:E.
    + apply ch_eqb_eq in E. subst x. exfalso. apply H. now left.
    + rewrite IH; auto. intros Hin. apply H. now right.
Qed.

Lemma trim_rarity_paren r :
  r = [] \/ clean r = true -> trim (r ++ L")") = r ++ L")".
Proof.
  intros [->|Hc].
  - reflexivity.
  - apply trim_app_clean; [now apply clean_starts | reflexivity].
Qed.

Lemma trim_space_r s : clean s = true -> trim (s ++ L" ") = s.
Proof. intros H. rewrite trim_ws_r by reflexivity. now apply trim_clean. Qed.

Lemma trim_space_l s : clean s = true -> trim (L" " ++ s) = s.
Proof. intros H. rewrite trim_ws_l by reflexivity. now apply trim_clean. Qed.

Lemma not_In_app (c : ascii) a b : ~ In c a -> ~ In c b -> ~ In c (a ++ b).
Proof. intros Ha Hb H. apply in_app_or in H. tauto. Qed.

(** [item (rarity)] read by [htmlConverter.js]. *)
Lemma v1_parsePartAndRarity_written it r :
  plainItem it -> plainRarity r ->
  V1.parsePartAndRarity (it ++ L" (" ++ r ++ L")") = (it, r).
Proof.
  intros ((Hc & _) & Hp & _) (Hr1 & Hr2 & _ & _ & Hr).
  unfold V1.parsePartAndRarity.
  replace (it ++ L" (" ++ r ++ L")")
    with ((it ++ L" ") ++ "("%char :: (r ++ L")"))
    by (rewrite <- app_assoc; reflexivity).
  change (L"(") with ["("%char].
  rewrite split_first_char
    by (apply not_In_app; [assumption | intros [H|[]]; discriminate]).
  rewrite split_none.
  2:{ apply includes_char_false. apply not_In_app; auto.
      intros [H|[]]; discriminate. }
  cbn [map first hd nth_error].
  rewrite trim_space_r, trim_rarity_paren by assumption.
  f_equal.
  match goal with
  | |- context [truthy ?o] =>
      assert (Ht : truthy o = true) by (destruct r; reflexivity); rewrite Ht
  end.
  cbn [show]. now apply remove_first_snoc.
Qed.

Lemma parenBody_written r :
  r <> [] -> ~ In ")"%char r -> V2.parenBody (r ++ L")") = Some r.
Proof.
  intros Hne Hin. unfold V2.parenBody.
  change (L")") with [")"%char]. rewrite rev_app_distr. cbn [rev app].
  rewrite ch_eqb_refl.
  replace (isEmpty (rev r)) with false.
  2:{ destruct r as [|x r]; [congruence|]. cbn [rev].
      destruct (rev r); reflexivity. }
  replace (existsb (ch_eqb ")"%char) (rev r)) with false.
  2:{ symmetry. apply not_true_is_false. intros H.
      apply existsb_exists in H as (x & Hx & E). apply ch_eqb_eq in E.
      subst x. apply Hin. now apply in_rev. }
  cbn [andb negb]. now rewrite rev_involutive.
Qed.

Lemma rarityMatch_first a rest body :
  ~ In "("%char a -> V2.parenBody rest = Some body ->
  V2.rarityMatch (a ++ "("%char :: rest) = Some (length a, body).
Proof.
  intros Ha Hb. induction a as [|x a IH].
  - cbn [app V2.rarityMatch]. rewrite ch_eqb_refl, Hb. reflexivity.
  - cbn [app V2.rarityMatch length].
    destruct (ch_eqb x "("%char) eqn:E.
    + apply ch_eqb_eq in E. subst x. exfalso. apply Ha. now left.
    + rewrite IH; [reflexivity|]. intros H. apply Ha. now right.
Qed.

Lemma firstn_length_app (A : Type) (a b : list A) :
  firstn (length a) (a ++ b) = a.
Proof.
  rewrite firstn_app, Nat.sub_diag, firstn_all. cbn [firstn].
  apply app_nil_r.
Qed.

(** [item (rarity)] read by the second converter: the rarity must not be
    empty for the pattern to match. *)
Lemma v2_parsePartAndRarity_written it r :
  plainItem it -> plainRarity r -> r <> [] ->
  V2.parsePartAndRarity (it ++ L" (" ++ r ++ L")") = (it, r).
Proof.
  intros ((Hc & _) & Hp & _) (Hr1 & Hr2 & _ & _ & Hr) Hne.
  unfold V2.parsePartAndRarity.
  replace (isEmpty (it ++ L" (" ++ r ++ L")")) with false.
  2:{ apply clean_not_nil in Hc. destruct it; [congruence|reflexivity]. }
  replace (it ++ L" (" ++ r ++ L")")
    with ((it ++ L" ") ++ "("%char :: (r ++ L")"))
    by (rewrite <- app_assoc; reflexivity).
  rewrite (@rarityMatch_first (it ++ L" ") (r ++ L")") r).
  - rewrite firstn_length_app, trim_space_r by assumption.
    f_equal. destruct Hr as [->|Hr]; [congruence|]. now apply trim_clean.
  - apply not_In_app; [assumption | intros [H|[]]; discriminate].
  - now apply parenBody_written.
Qed.

(** With an empty rarity the pattern of the second converter fails, and
    the parentheses stay in the part. *)
Lemma rarityMatch_no_paren a : ~ In "("%char a -> V2.rarityMatch a = None.
Proof.
  induction a as [|x a IH]; intros H; [reflexivity|].
  cbn [V2.rarityMatch]. destruct (ch_eqb x "("%char) eqn:E.
  - apply ch_eqb_eq in E. subst x. exfalso. apply H. now left.
  - rewrite IH; [reflexivity|]. intros Hin. apply H. now right.
Qed.

Lemma arrow_free_half it r :
  plainItem it -> plainRarity r ->
  includes (L"->") (it ++ L" (" ++ r ++ L") ") = false.
Proof.
  intros (_ & _ & Hit) (_ & _ & Hr & _).
  change (L"->") with ["-"%char; ">"%char] in *.
  rewrite includes2_app, Hit.
  rewrite (includes2_app _ _ (L" (")), (includes2_app _ _ r), Hr.
  change (headIs ">"%char (L" (" ++ r ++ L") ")) with false.
  change (includes ["-"%char; ">"%char] (L" (")) with false.
  change (includes ["-"%char; ">"%char] (L") ")) with false.
  change (headIs ">"%char (L") ")) with false.
  change (lastIs "-"%char (L" (")) with false.
  rewrite ?andb_false_r. reflexivity.
Qed.

Lemma arrow_free_key p : includes (L"->") p = false ->
  includes (L"->") (L"- " ++ p) = false.
Proof.
  intros H. change (L"->") with ["-"%char; ">"%char] in *.
  rewrite includes2_app, H.
  change (includes ["-"%char; ">"%char] (L"- ")) with false.
  change (lastIs "-"%char (L"- ")) with false. reflexivity.
Qed.

Lemma arrow_free_space c : includes (L"->") c = false ->
  includes (L"->") (L" " ++ c) = false.
Proof.
  intros H. change (L"->") with ["-"%char; ">"%char] in *.
  rewrite includes2_app, H.
  change (includes ["-"%char; ">"%char] (L" ")) with false.
  change (lastIs "-"%char (L" ")) with false. reflexivity.
Qed.

Lemma nonws_not_space c : is_ws c = false -> ch_eqb c " "%char = false.
Proof.
  intros H. apply ch_eqb_neq. intros ->. discriminate.
Qed.

Lemma stripDashes_written it rest :
  starts_nonws it = true -> startsWith (L"-") it = false ->
  stripDashes (L"- " ++ it ++ rest) = it ++ rest.
Proof.
  intros Hs Hd. destruct it as [|c it]; [discriminate|].
  lit. cbn [stripDashes]. change (ch_eqb "-"%char "-"%char) with true.
  cbn [orb]. change (ch_eqb " "%char "-"%char) with false.
  change (ch_eqb " "%char " "%char) with true. cbn [orb].
  unfold starts_nonws in Hs. apply negb_true_iff in Hs.
  rewrite (nonws_not_space _ Hs).
  unfold L in Hd. cbn [list_ascii_of_string] in Hd.
  unfold startsWith in Hd. rewrite andb_true_r in Hd.
  assert (Hc : ch_eqb c "-"%char = false).
  { apply ch_eqb_neq. apply ch_eqb_neq in Hd. congruence. }
  rewrite Hc. reflexivity.
Qed.

(** The parts the two readers return for a part line as the writer lays
    it out, once [parse] has trimmed it. *)
Definition writtenPartLine (it r c : str) : str :=
  L"- " ++ it ++ L" (" ++ r ++ L") -> " ++ c.

Definition writtenRewardLine (it r : str) : str :=
  L"- " ++ it ++ L" (" ++ r ++ L")".

Lemma written_pieces it r c :
  plainItem it -> plainRarity r -> startsWith (L"-") it = false ->
  clean c = true -> includes (L"->") c = false ->
  map trim (split (L"->") (stripDashes (writtenPartLine it r c))) =
  [it ++ L" (" ++ r ++ L")"; c].
Proof.
  intros Hit Hr Hd Hc Hca. unfold writtenPartLine.
  assert (Hs : starts_nonws it = true).
  { destruct Hit as ((H & _) & _). now apply clean_starts. }
  rewrite stripDashes_written by assumption.
  replace (it ++ L" (" ++ r ++ L") -> " ++ c)
    with ((it ++ L" (" ++ r ++ L") ") ++
          "-"%char :: ">"%char :: (L" " ++ c)).
  2:{ rewrite <- !app_assoc. reflexivity. }
  change (L"->") with ["-"%char; ">"%char].
  rewrite split_first_two
    by (discriminate || apply (arrow_free_half Hit Hr)).
  rewrite split_none by (apply (arrow_free_space _ Hca)).
  cbn [map]. rewrite trim_space_l by assumption. f_equal.
  replace (it ++ L" (" ++ r ++ L") ")
    with ((it ++ L" (" ++ r ++ L")") ++ L" ")
    by (rewrite <- !app_assoc; reflexivity).
  rewrite trim_ws_r by reflexivity.
  apply trim_app_clean; [assumption|].
  apply ends_nonws_app. apply ends_nonws_app. reflexivity.
Qed.

Lemma v1_parsePartInfo_written it r c :
  plainItem it -> plainRarity r -> startsWith (L"-") it = false ->
  clean c = true -> includes (L"->") c = false ->
  V1.parsePartInfo (writtenPartLine it r c) = mkPart it r (Some c).
Proof.
  intros Hit Hr Hd Hc Hca. unfold V1.parsePartInfo.
  rewrite written_pieces by assumption. cbn [first hd nth_error].
  now rewrite v1_parsePartAndRarity_written.
Qed.

Lemma v2_parsePartInfo_written it r c :
  plainItem it -> plainRarity r -> r <> [] ->
  startsWith (L"-") it = false ->
  clean c = true -> includes (L"->") c = false ->
  V2.parsePartInfo (writtenPartLine it r c) = Some (mkPart it r (Some c)).
Proof.
  intros Hit Hr Hne Hd Hc Hca. unfold V2.parsePartInfo.
  rewrite written_pieces by assumption.
  cbn [first hd nth_error length Nat.ltb Nat.leb show].
  now rewrite v2_parsePartAndRarity_written.
Qed.

Lemma v1_parseRewardInfo_written it r :
  plainItem it -> plainRarity r ->
  V1.parseRewardInfo (writtenRewardLine it r) = mkPart it r None.
Proof.
  intros Hit Hr. unfold V1.parseRewardInfo, writtenRewardLine.
  change (substring 2 (L"- " ++ it ++ L" (" ++ r ++ L")"))
    with (it ++ L" (" ++ r ++ L")").
  now rewrite v1_parsePartAndRarity_written.
Qed.

Lemma written_reward_clean it r :
  plainItem it -> clean (it ++ L" (" ++ r ++ L")") = true.
Proof.
  intros ((Hc & _) & _). unfold clean.
  rewrite starts_nonws_app by (now apply clean_starts).
  cbn [andb]. do 3 apply ends_nonws_app. reflexivity.
Qed.

Lemma v2_parseRewardInfo_written it r :
  plainItem it -> plainRarity r -> r <> [] ->
  V2.parseRewardInfo (writtenRewardLine it r) = Some (mkPart it r None).
Proof.
  intros Hit Hr Hne. unfold V2.parseRewardInfo, writtenRewardLine.
  change (substring 2 (L"- " ++ it ++ L" (" ++ r ++ L")"))
    with (it ++ L" (" ++ r ++ L")").
  rewrite trim_clean by (now apply written_reward_clean).
  replace (isEmpty (it ++ L" (" ++ r ++ L")")) with false.
  2:{ destruct Hit as ((Hc & _) & _). apply clean_not_nil in Hc.
      destruct it; [congruence|reflexivity]. }
  now rewrite v2_parsePartAndRarity_written.
Qed.

(** ** Reward lines without a rarity *)

Lemma clean_dash_text text :
  clean (L"- " ++ text) = true -> trim text <> [].
Proof.
  intros H Ht.
  destruct (trim_exists text) as (w1 & m & w2 & E & H1 & H2 & Hm).
  destruct Hm as [->|Hm].
  - assert (Hw : all_ws (rev text) = true).
    { subst text. cbn [app]. now rewrite all_ws_rev, all_ws_app, H1, H2. }
    apply clean_ends in H. unfold ends_nonws in H.
    rewrite rev_app_distr in H. destruct (rev text) as [|c t].
    + vm_compute in H. discriminate.
    + cbn [app starts_nonws] in H. cbn [all_ws forallb] in Hw.
      apply andb_true_iff in Hw as [Hw _]. rewrite Hw in H. discriminate.
  - subst text. rewrite trim_decomp in Ht by assumption.
    now apply clean_not_nil in Hm.
Qed.

Lemma isEmpty_false s : s <> [] -> isEmpty s = false.
Proof. destruct s; [congruence|reflexivity]. Qed.

Lemma v1_parseReward_no_paren text :
  ~ In "("%char text ->
  V1.parseRewardInfo (L"- " ++ text) = mkPart (trim text) [] None.
Proof.
  intros H. unfold V1.parseRewardInfo, V1.parsePartAndRarity.
  change (substring 2 (L"- " ++ text)) with text.
  change (L"(") with ["("%char].
  rewrite split_none by (now apply includes_char_false). reflexivity.
Qed.

Lemma parenBody_Some rest body :
  V2.parenBody rest = Some body -> rest = body ++ L")".
Proof.
  unfold V2.parenBody. destruct (rev rest) as [|c rb] eqn:E; [discriminate|].
  destruct (ch_eqb c ")"%char) eqn:Ec; cbn [andb]; [|discriminate].
  destruct (negb (isEmpty rb)); cbn [andb]; [|discriminate].
  destruct (negb (existsb (ch_eqb ")"%char) rb)); [|discriminate].
  intros H. inversion H; subst body. apply ch_eqb_eq in Ec.
  subst c. rewrite <- (rev_involutive rest), E. reflexivity.
Qed.

Lemma rarityMatch_Some s i body :
  V2.rarityMatch s = Some (i, body) ->
  exists a, s = a ++ "("%char :: body ++ L")".
Proof.
  revert i. induction s as [|c s IH]; intros i H; [discriminate|].
  cbn [V2.rarityMatch] in H.
  destruct (ch_eqb c "("%char) eqn:Ec.
  - destruct (V2.parenBody s) as [b|] eqn:Eb.
    + inversion H; subst. apply ch_eqb_eq in Ec. subst c.
      apply parenBody_Some in Eb. exists []. now rewrite Eb.
    + destruct (V2.rarityMatch s) as [[j b]|]; [|discriminate].
      inversion H; subst. destruct (IH _ eq_refl) as [a ->].
      exists (c :: a). reflexivity.
  - destruct (V2.rarityMatch s) as [[j b]|]; [|discriminate].
    inversion H; subst. destruct (IH _ eq_refl) as [a ->].
    exists (c :: a). reflexivity.
Qed.

(** The text ends with a parenthesized group. *)
Definition ParenSuffix (s : str) : Prop :=
  exists a b, s = a ++ "("%char :: b ++ L")".

Lemma v2_parseReward_no_suffix text :
  trim text <> [] -> ~ ParenSuffix (trim text) ->
  V2.parseRewardInfo (L"- " ++ text) = Some (mkPart (trim text) [] None).
Proof.
  intros Hne Hs. unfold V2.parseRewardInfo, V2.parsePartAndRarity.
  change (substring 2 (L"- " ++ text)) with text.
  rewrite (isEmpty_false Hne).
  destruct (V2.rarityMatch (trim text)) as [[i body]|] eqn:E; [|reflexivity].
  exfalso. apply Hs. destruct (rarityMatch_Some _ E) as [a Ha].
  exists a, body. exact Ha.
Qed.

Lemma lookup_pushReward ci x p e :
  lookup ci (relics p) = Some e ->
  lookup ci (relics (pushReward ci x p)) =
  Some (mkRelic (location e) (rewards e ++ [x])).
Proof. intros H. cbn [pushReward relics]. now rewrite lookup_update_eq, H. Qed.

Lemma lookup_pushPart ci x p e :
  lookup ci (primes p) = Some e ->
  lookup ci (primes (pushPart ci x p)) =
  Some (mkPrime (name e) (parts e ++ [x])).
Proof. intros H. cbn [pushPart primes]. now rewrite lookup_update_eq, H. Qed.

(** C8, as stated, fails twice.  In [htmlConverter.js] a text with a
    parenthesis that is not a suffix, "Gold (x) bar", is cut at the
    parenthesis: the part is "Gold" and the rarity "x bar".  And in both
    converters the part is the trimmed text: after "- " the line
    "-  BadLineNoParen" holds " BadLineNoParen", the part is
    "BadLineNoParen". *)
Lemma reward_line_counterexample :
  ~ ParenSuffix (L"Gold (x) bar") /\
  V1.parse (L"# Relics" ++ NL ++ L"## Lith A1 Relic" ++ NL ++
            L"- Gold (x) bar") =
  Some (mkParsed []
          [(L"Lith A1 Relic",
            mkRelic [] [mkPart (L"Gold") (L"x bar") None])]) /\
  substring 2 (L"-  BadLineNoParen") = L" BadLineNoParen" /\
  V1.parse (L"# Relics" ++ NL ++ L"## Lith A1 Relic" ++ NL ++
            L"-  BadLineNoParen") =
  Some (mkParsed []
          [(L"Lith A1 Relic",
            mkRelic [] [mkPart (L"BadLineNoParen") [] None])]) /\
  V2.parse (L"# Relics" ++ NL ++ L"## Lith A1 Relic" ++ NL ++
            L"-  BadLineNoParen") =
  Some (mkParsed []
          [(L"Lith A1 Relic",
            mkRelic [] [mkPart (L"BadLineNoParen") [] None])]).
Proof.
  split; [|repeat split; vm_compute; reflexivity].
  intros (a & b & E).
  apply (f_equal (@rev ascii)) in E.
  change (a ++ "("%char :: b ++ L")") with (a ++ ("("%char :: b) ++ L")") in E.
  rewrite !rev_app_distr in E. discriminate E.
Qed.

(** C8 (amended): in the relics section with a container open, a line
    "- text" (as [parse] hands it over, trimmed) whose text holds no "("
    in [htmlConverter.js], or has no parenthesized suffix in the second
    converter, raises nothing: the line is handled, the reward appended to
    the open container has the empty rarity and the trimmed text as its
    part, and the rest of the document is parsed to the end. *)
Theorem reward_line_without_rarity (lines rest : list str) (text : str) :
  clean (L"- " ++ text) = true ->
  (forall p, V1.run newParser lines = Some p ->
     inRelics p = true -> truthy (currentItem p) = true ->
     ~ In "("%char text ->
     let ci := show (currentItem p) in
     let x := mkPart (trim text) [] None in
     V1.processLine p (L"- " ++ text) = Some (pushReward ci x p) /\
     (exists e, lookup ci (relics p) = Some e /\
        lookup ci (relics (pushReward ci x p)) =
        Some (mkRelic (location e) (rewards e ++ [x]))) /\
     exists final, V1.run p ((L"- " ++ text) :: rest) = Some final) /\
  (forall p, V2.run newParser lines = Some p ->
     inRelics p = true -> truthy (currentItem p) = true ->
     ~ ParenSuffix (trim text) ->
     let ci := show (currentItem p) in
     let x := mkPart (trim text) [] None in
     V2.processLine p (L"- " ++ text) = Some (pushReward ci x p) /\
     (exists e, lookup ci (relics p) = Some e /\
        lookup ci (relics (pushReward ci x p)) =
        Some (mkRelic (location e) (rewards e ++ [x]))) /\
     exists final, V2.run p ((L"- " ++ text) :: rest) = Some final).
Proof.
  intros Hline. split.
  - intros p Hrun Hr Ht Hno ci x.
    destruct (v1_run_total lines Inv_newParser) as (p0 & Hp0 & HI).
    rewrite Hrun in Hp0. inversion Hp0; subst p0; clear Hp0.
    assert (Hstep : V1.processLine p (L"- " ++ text) =
                    Some (pushReward ci x p)).
    { rewrite v1_step_reward by (auto using startsWith_app).
      now rewrite v1_parseReward_no_paren. }
    split; [exact Hstep|]. split.
    + destruct (Inv_lookup_relics HI Hr Ht) as [e He].
      exists e. split; [exact He|]. now apply lookup_pushReward.
    + cbn [V1.run]. rewrite Hstep.
      destruct (@v1_run_total rest (pushReward ci x p)) as (f & Hf & _);
        [now apply Inv_pushReward | eauto].
  - intros p Hrun Hr Ht Hno ci x.
    destruct (v2_run_total lines Inv_newParser) as (p0 & Hp0 & HI).
    rewrite Hrun in Hp0. inversion Hp0; subst p0; clear Hp0.
    assert (Hstep : V2.processLine p (L"- " ++ text) =
                    Some (pushReward ci x p)).
    { apply v2_step_reward; auto using startsWith_app.
      apply v2_parseReward_no_suffix; auto. now apply clean_dash_text. }
    split; [exact Hstep|]. split.
    + destruct (Inv_lookup_relics HI Hr Ht) as [e He].
      exists e. split; [exact He|]. now apply lookup_pushReward.
    + cbn [V2.run]. rewrite Hstep.
      destruct (@v2_run_total rest (pushReward ci x p)) as (f & Hf & _);
        [now apply Inv_pushReward | eauto].
Qed.

Lemma no_paren_suffix s : lastIs ")"%char s = false -> ~ ParenSuffix s.
Proof.
  intros H (a & b & E). subst s. unfold lastIs in H.
  change (a ++ "("%char :: b ++ L")") with (a ++ ("("%char :: b) ++ L")") in H.
  rewrite !rev_app_distr in H. unfold L in H.
  cbn [rev app list_ascii_of_string] in H.
  rewrite ch_eqb_refl in H. discriminate.
Qed.

(** The state after "# Relics" and "## Lith A1 Relic". *)
Definition relicOpen : Parser :=
  mkParser [] [(L"Lith A1 Relic", mkRelic [] [])] (Some SecRelics)
           (Some (L"Lith A1 Relic")).

Lemma reward_line_without_rarity_witness :
  V1.processLine relicOpen (L"- BadLineNoParen") =
    Some (pushReward (L"Lith A1 Relic")
                     (mkPart (L"BadLineNoParen") [] None) relicOpen) /\
  V2.processLine relicOpen (L"- BadLineNoParen") =
    Some (pushReward (L"Lith A1 Relic")
                     (mkPart (L"BadLineNoParen") [] None) relicOpen).
Proof.
  destruct (@reward_line_without_rarity
              [L"# Relics"; L"## Lith A1 Relic"] [] (L"BadLineNoParen")
              eq_refl) as [H1 H2].
  split.
  - apply (H1 relicOpen eq_refl eq_refl eq_refl).
    apply includes_char_false. reflexivity.
  - apply (H2 relicOpen eq_refl eq_refl eq_refl).
    apply no_paren_suffix. reflexivity.
Defined.

(** ** Part lines *)

Lemma split_two sep s :
  sep <> [] -> includes sep s = true -> 2 <= length (split sep s).
Proof.
  intros Hsep. induction s as [|c s IH]; intros H.
  - destruct sep; [congruence|discriminate].
  - destruct (startsWith sep (c :: s)) eqn:E.
    + apply startsWith_spec in E as [r ->]. rewrite split_match by assumption.
      generalize (@split_not_nil sep r). destruct (split sep r);
        [congruence|]. intros _. cbn [length]. lia.
    + rewrite split_cons_nomatch by assumption.
      unfold includes in H; fold includes in H. rewrite E in H.
      cbn [orb] in H. specialize (IH H).
      destruct (split sep s); cbn [cons_hd length] in *; lia.
Qed.

Lemma v2_parsePartInfo_arrow line :
  includes (L"->") (stripDashes line) = true ->
  exists x, V2.parsePartInfo line = Some x.
Proof.
  intros H. unfold V2.parsePartInfo.
  assert (Hl : 2 <= length (map trim (split (L"->") (stripDashes line)))).
  { rewrite length_map. apply split_two; [discriminate|assumption]. }
  destruct (length (map trim (split (L"->") (stripDashes line))) <? 2)
    eqn:E; [apply Nat.ltb_lt in E; lia|].
  eauto.
Qed.

Lemma stripDashes_suffix s : exists a, s = a ++ stripDashes s.
Proof.
  induction s as [|c s [a IH]]; [exists []; reflexivity|].
  cbn [stripDashes].
  destruct (ch_eqb c "-"%char || ch_eqb c " "%char).
  - exists (c :: a). cbn [app]. congruence.
  - exists []. reflexivity.
Qed.

Lemma includes_stripDashes t s :
  includes t (stripDashes s) = true -> includes t s = true.
Proof.
  intros H. destruct (stripDashes_suffix s) as [a E].
  destruct (includes t s) eqn:Ei; [reflexivity|].
  rewrite E in Ei. apply includes_app_false_r in Ei. congruence.
Qed.

(** C7, as stated, fails: [parse] trims every line before it dispatches,
    so a line indented by two spaces that holds no "->" reaches the handler
    as a plain "- " line and opens a new item; nothing is appended to the
    item that was open. *)
Lemma indented_line_counterexample :
  let md := L"# Primes" ++ NL ++ L"- Volt Prime" ++ NL ++
            L"  - Volt Prime Chassis" in
  startsWith (L"  - ") (L"  - Volt Prime Chassis") = true /\
  V1.parse md =
  Some (mkParsed [(L"Volt Prime", mkPrime (L"Volt Prime") []);
                  (L"Volt Prime Chassis", mkPrime (L"Volt Prime Chassis") [])]
                 []) /\
  V2.parse md =
  Some (mkParsed [(L"Volt Prime", mkPrime (L"Volt Prime") []);
                  (L"Volt Prime Chassis", mkPrime (L"Volt Prime Chassis") [])]
                 []).
Proof. repeat split; vm_compute; reflexivity. Qed.

(** C7 (amended): in the primes section with an item open, a line that,
    trimmed as [parse] hands it over, starts with "- " and holds "->"
    (in the second converter: still holds "->" behind its leading dashes
    and spaces), whether it was indented or not, is appended as a part to
    the open item and opens no item: the keys of the map and the open item
    stay as they were.  The part is read from the text behind the leading
    dashes and spaces, cut at "->": a line laid out as
    "- part (rarity) -> container" gives that part, that rarity and that
    container, when part and container are one-line texts without white
    space at either end and without "->", the part holds no "(" and does
    not begin with "-", the rarity holds no parenthesis and, for the second
    converter, is not empty. *)
Theorem part_line_appended (lines : list str) (line : str) :
  startsWith (L"- ") line = true ->
  (forall p, V1.run newParser lines = Some p ->
     inPrimes p = true -> truthy (currentItem p) = true ->
     includes (L"->") line = true ->
     let ci := show (currentItem p) in
     let p' := pushPart ci (V1.parsePartInfo line) p in
     V1.processLine p line = Some p' /\
     keys (primes p') = keys (primes p) /\
     currentItem p' = currentItem p /\
     exists e, lookup ci (primes p) = Some e /\
       lookup ci (primes p') =
       Some (mkPrime (name e) (parts e ++ [V1.parsePartInfo line]))) /\
  (forall p, V2.run newParser lines = Some p ->
     inPrimes p = true -> truthy (currentItem p) = true ->
     includes (L"->") (stripDashes line) = true ->
     let ci := show (currentItem p) in
     exists x, V2.parsePartInfo line = Some x /\
       let p' := pushPart ci x p in
       V2.processLine p line = Some p' /\
       keys (primes p') = keys (primes p) /\
       currentItem p' = currentItem p /\
       exists e, lookup ci (primes p) = Some e /\
         lookup ci (primes p') = Some (mkPrime (name e) (parts e ++ [x]))) /\
  (forall it r c,
     plainItem it -> plainRarity r -> startsWith (L"-") it = false ->
     clean c = true -> includes (L"->") c = false ->
     line = writtenPartLine it r c ->
     V1.parsePartInfo line = mkPart it r (Some c) /\
     (r <> [] -> V2.parsePartInfo line = Some (mkPart it r (Some c)))).
Proof.
  intros Hs. split; [|split].
  - intros p Hrun Hp Ht Hi ci p'.
    destruct (v1_run_total lines Inv_newParser) as (p0 & Hp0 & HI).
    rewrite Hrun in Hp0. inversion Hp0; subst p0; clear Hp0.
    split; [now apply v1_step_part|].
    split; [apply keys_update|]. split; [reflexivity|].
    destruct (Inv_lookup_primes HI Hp Ht) as [e He].
    exists e. split; [exact He|]. now apply lookup_pushPart.
  - intros p Hrun Hp Ht Hi ci.
    destruct (v2_run_total lines Inv_newParser) as (p0 & Hp0 & HI).
    rewrite Hrun in Hp0. inversion Hp0; subst p0; clear Hp0.
    destruct (v2_parsePartInfo_arrow _ Hi) as [x Hx].
    exists x. split; [exact Hx|]. cbv zeta.
    split; [apply v2_step_part; auto; now apply includes_stripDashes|].
    split; [apply keys_update|]. split; [reflexivity|].
    destruct (Inv_lookup_primes HI Hp Ht) as [e He].
    exists e. split; [exact He|]. now apply lookup_pushPart.
  - intros it r c Hit Hr Hd Hc Hca ->. split.
    + now apply v1_parsePartInfo_written.
    + intros Hne. now apply v2_parsePartInfo_written.
Qed.

(** The state after "# Primes" and "- Volt Prime". *)
Definition primeOpen : Parser :=
  mkParser [(L"Volt Prime", mkPrime (L"Volt Prime") [])] []
           (Some SecPrimes) (Some (L"Volt Prime")).

Lemma part_line_appended_witness :
  V1.processLine primeOpen
    (L"- Volt Prime Chassis (Common) -> Lith A1 Relic") =
  Some (pushPart (L"Volt Prime")
          (mkPart (L"Volt Prime Chassis") (L"Common")
                  (Some (L"Lith A1 Relic"))) primeOpen).
Proof.
  destruct (@part_line_appended
              [L"# Primes"; L"- Volt Prime"]
              (L"- Volt Prime Chassis (Common) -> Lith A1 Relic")
              eq_refl) as (H1 & _ & _).
  exact (proj1 (H1 primeOpen eq_refl eq_refl eq_refl eq_refl)).
Defined.

(** ** Runs in two pieces *)

Lemma lookup_assign (V : Type) k k' (v : V) o :
  lookup k' (assign k v o) = if str_eqb k' k then Some v else lookup k' o.
Proof.
  destruct (str_eqb k' k) eqn:E.
  - apply str_eqb_eq in E. subst k'. apply lookup_assign_eq.
  - apply str_eqb_neq in E. now apply lookup_assign_ne.
Qed.

Lemma lookup_update (V : Type) k k' (f : V -> V) o :
  lookup k' (update k f o) =
  if str_eqb k' k then option_map f (lookup k' o) else lookup k' o.
Proof.
  destruct (str_eqb k' k) eqn:E.
  - apply str_eqb_eq in E. subst k'. apply lookup_update_eq.
  - apply str_eqb_neq in E. now apply lookup_update_ne.
Qed.

Lemma v1_run_app a b p :
  V1.run p (a ++ b) =
  match V1.run p a with
  | Some p' => V1.run p' b
  | None => None
  end.
Proof.
  revert p. induction a as [|x a IH]; intros p; cbn [app V1.run]; auto.
  destruct (V1.processLine p x); auto.
Qed.

Lemma v2_run_app a b p :
  V2.run p (a ++ b) =
  match V2.run p a with
  | Some p' => V2.run p' b
  | None => None
  end.
Proof.
  revert p. induction a as [|x a IH]; intros p; cbn [app V2.run]; auto.
  destruct (V2.processLine p x); auto.
Qed.

Lemma inPrimes_section p : inPrimes p = true -> currentSection p = Some SecPrimes.
Proof.
  unfold inPrimes. destruct (currentSection p) as [[]|]; auto; discriminate.
Qed.

Lemma inRelics_section p : inRelics p = true -> currentSection p = Some SecRelics.
Proof.
  unfold inRelics. destruct (currentSection p) as [[]|]; auto; discriminate.
Qed.

(** The state right after the header of a section in an empty document. *)
Definition entered (sec : sectionValue) : Parser :=
  mkParser [] [] (Some sec) None.

Lemma Inv_entered sec : Inv (entered sec).
Proof. apply (@Inv_enter newParser sec Inv_newParser). Qed.

(** "Volt Prime" declared twice, with a part after each declaration. *)
Definition twiceDeclared : str :=
  L"# Primes" ++ NL ++
  L"- Volt Prime" ++ NL ++
  L"  - Volt Prime Systems (Rare) -> Lith A1 Relic" ++ NL ++
  L"- Volt Prime" ++ NL ++
  L"  - Volt Prime Chassis (Common) -> Axi B2 Relic".

(** ** The document as a list of lines *)

(** [ls.map(l => l + '\n').join('')] *)
Definition unlines (ls : list str) : str := flat_map (fun l => l ++ NL) ls.

Definition nonEmpty (s : str) : bool := negb (isEmpty s).

(** The lines [parse] acts on: trimmed, the empty ones left out. *)
Definition proc (s : str) : list str :=
  filter nonEmpty (map trim (split NL s)).

Lemma split_char_cons c x s :
  split [c] (x :: s) =
  if ch_eqb c x then [] :: split [c] s else cons_hd x (split [c] s).
Proof.
  destruct (ch_eqb c x) eqn:E.
  - apply ch_eqb_eq in E. subst x. change (c :: s) with ([c] ++ s).
    apply split_match. discriminate.
  - apply split_cons_nomatch. unfold startsWith. now rewrite E.
Qed.

Lemma split_last_exists sep s : exists ini la, split sep s = ini ++ [la].
Proof.
  destruct (exists_last (@split_not_nil sep s)) as (ini & la & E). eauto.
Qed.

(** The pieces of [a ++ b]: those of [a], the last of them continued by
    the first piece of [b], then the other pieces of [b]. *)
Lemma split_char_app c a b ia la hb tb :
  split [c] a = ia ++ [la] -> split [c] b = hb :: tb ->
  split [c] (a ++ b) = ia ++ (la ++ hb) :: tb.
Proof.
  intros Ha Hb. revert ia la Ha. induction a as [|x a IH]; intros ia la Ha.
  - rewrite split_nil in Ha. destruct ia as [|i ia].
    + inversion Ha; subst. exact Hb.
    + destruct ia; discriminate.
  - cbn [app]. rewrite split_char_cons in *.
    destruct (split_last_exists [c] a) as (ia' & la' & Ea).
    rewrite Ea in Ha. specialize (IH _ _ Ea). rewrite IH.
    destruct (ch_eqb c x).
    + change ([] :: ia' ++ [la']) with (([] :: ia') ++ [la']) in Ha.
      apply app_inj_tail in Ha as [<- <-]. reflexivity.
    + destruct ia' as [|h t].
      * cbn [app cons_hd] in *. destruct ia as [|i ia].
        -- inversion Ha; subst. reflexivity.
        -- destruct ia; discriminate.
      * cbn [app cons_hd] in *.
        change ((x :: h) :: t ++ [la']) with (((x :: h) :: t) ++ [la']) in Ha.
        apply app_inj_tail in Ha as [<- <-]. reflexivity.
Qed.

Lemma split_all_ws c w :
  all_ws w = true -> Forall (fun l => all_ws l = true) (split [c] w).
Proof.
  induction w as [|x w IH]; intros H.
  - rewrite split_nil. repeat constructor.
  - cbn [all_ws forallb] in H. apply andb_true_iff in H as [Hx Hw].
    specialize (IH Hw). rewrite split_char_cons.
    destruct (ch_eqb c x).
    + constructor; auto.
    + destruct (split [c] w) as [|h t]; cbn [cons_hd].
      * repeat constructor. cbn. now rewrite Hx.
      * inversion IH; subst. constructor; auto. cbn. now rewrite Hx.
Qed.

Lemma filter_trim_all_ws l :
  Forall (fun l => all_ws l = true) l -> filter nonEmpty (map trim l) = [].
Proof.
  induction 1 as [|x l Hx _ IH]; [reflexivity|].
  cbn [map filter]. now rewrite trim_all_ws, IH.
Qed.

Lemma proc_ws_r s w : all_ws w = true -> proc (s ++ w) = proc s.
Proof.
  intros Hw. unfold proc, NL.
  destruct (split_last_exists ["010"%char] s) as (ia & la & Ea).
  pose proof (@split_all_ws "010"%char w Hw) as Hall.
  destruct (split ["010"%char] w) as [|hb tb] eqn:Eb;
    [now apply split_not_nil in Eb|].
  rewrite (@split_char_app _ _ _ _ _ _ _ Ea Eb), Ea.
  inversion Hall; subst.
  rewrite !map_app, !filter_app. cbn [map filter].
  rewrite trim_ws_r by assumption.
  rewrite (@filter_trim_all_ws tb) by assumption. reflexivity.
Qed.

Lemma proc_ws_l w s : all_ws w = true -> proc (w ++ s) = proc s.
Proof.
  intros Hw. unfold proc, NL.
  destruct (split_last_exists ["010"%char] w) as (ia & la & Ea).
  pose proof (@split_all_ws "010"%char w Hw) as Hall.
  destruct (split ["010"%char] s) as [|hb tb] eqn:Eb;
    [now apply split_not_nil in Eb|].
  rewrite (@split_char_app _ _ _ _ _ _ _ Ea Eb). rewrite Ea in Hall.
  apply Forall_app in Hall as [Hia Hla]. inversion Hla; subst.
  rewrite map_app, filter_app. cbn [map filter].
  rewrite (@filter_trim_all_ws ia) by assumption.
  rewrite trim_ws_l by assumption. reflexivity.
Qed.

(** Trimming the whole text first changes nothing for [parse]. *)
Lemma proc_trim s : proc (trim s) = proc s.
Proof.
  destruct (trim_exists s) as (w1 & m & w2 & -> & H1 & H2 & Hm).
  rewrite proc_ws_l by assumption. rewrite proc_ws_r by assumption.
  destruct Hm as [->|Hm].
  - rewrite trim_all_ws; [reflexivity|]. cbn [app].
    now rewrite all_ws_app, H1, H2.
  - now rewrite trim_decomp.
Qed.

Lemma unlines_cons l ls : unlines (l :: ls) = l ++ nl :: unlines ls.
Proof. unfold unlines. cbn [flat_map]. now rewrite <- app_assoc. Qed.

Lemma split_unlines ls :
  Forall (fun l => ~ In nl l) ls -> split NL (unlines ls) = ls ++ [[]].
Proof.
  induction 1 as [|l ls Hl _ IH]; [reflexivity|].
  rewrite unlines_cons. change NL with [nl] in *.
  rewrite split_first_char by exact Hl. now rewrite IH.
Qed.

Lemma proc_unlines ls :
  Forall (fun l => ~ In nl l) ls ->
  proc (unlines ls) = filter nonEmpty (map trim ls).
Proof.
  intros H. unfold proc. rewrite split_unlines by assumption.
  rewrite map_app, filter_app. cbn [map filter]. now rewrite app_nil_r.
Qed.

Lemma unlines_app a b : unlines (a ++ b) = unlines a ++ unlines b.
Proof. apply flat_map_app. Qed.

Lemma flat_map_unlines (A : Type) (f : A -> str) l :
  flat_map (fun e => f e ++ NL) l = unlines (map f l).
Proof.
  induction l as [|x l IH]; [reflexivity|].
  unfold unlines in *. cbn [flat_map map]. now rewrite IH.
Qed.

Lemma flat_map_blocks (A : Type) (f : A -> str) (g : A -> list str) l :
  (forall x, f x = unlines (g x)) ->
  flat_map f l = unlines (flat_map g l).
Proof.
  intros H. induction l as [|x l IH]; [reflexivity|].
  cbn [flat_map]. now rewrite unlines_app, H, IH.
Qed.

(** The lines of the document [generateMarkdown] writes. *)
Definition primeLines (primes : dict (list Main.RewardEntry)) (prime : str)
  : list str :=
  (L"- " ++ prime) :: map Main.partLine (Main.sortedItems primes prime).

Definition locationOf (relicLocations : str -> option str) (relic : str)
  : str :=
  show (relicLocations (first (split (L" ") relic))).

Definition relicLines (relicLocations : str -> option str)
           (kv : str * list Main.RewardEntry) : list str :=
  [L"## " ++ fst kv; []] ++ map Main.rewardLine (snd kv) ++
  [[]; L"**Location**: " ++ locationOf relicLocations (fst kv); []].

Definition markdownLines (currentDate : str)
           (primes relicData : dict (list Main.RewardEntry))
           (relicLocations : str -> option str) : list str :=
  [L"# Generated on " ++ currentDate; []; L"# Primes"; []] ++
  flat_map (primeLines primes) (Main.sortedPrimes primes) ++
  [[]; L"# Relics"; []] ++
  flat_map (relicLines relicLocations) relicData.

Lemma primeBlock_unlines primes prime :
  Main.primeBlock primes prime = unlines (primeLines primes prime).
Proof.
  unfold Main.primeBlock, primeLines. rewrite flat_map_unlines.
  rewrite unlines_cons, <- ?app_assoc. reflexivity.
Qed.

Lemma relicBlock_unlines locs kv :
  Main.relicBlock locs kv = unlines (relicLines locs kv).
Proof.
  unfold Main.relicBlock, relicLines, locationOf.
  rewrite flat_map_unlines, !unlines_app.
  rewrite !unlines_cons. change (unlines []) with (@nil ascii).
  rewrite <- ?app_assoc. reflexivity.
Qed.

Lemma generateMarkdown_unlines date primes rd locs :
  Main.generateMarkdown date primes rd locs =
  unlines (markdownLines date primes rd locs).
Proof.
  unfold Main.generateMarkdown, markdownLines.
  rewrite (flat_map_blocks _ _ _ (primeBlock_unlines primes)).
  rewrite (flat_map_blocks _ _ _ (relicBlock_unlines locs)).
  rewrite !unlines_app. rewrite !unlines_cons.
  change (unlines []) with (@nil ascii).
  rewrite <- ?app_assoc. reflexivity.
Qed.

(** ** The round trip *)

(** The part and the reward the readers should give back for an entry. *)
Definition toPart (e : Main.RewardEntry) : PartInfo :=
  mkPart (Main.item e) (Main.rarity e) (Main.source e).

Definition toReward (e : Main.RewardEntry) : PartInfo :=
  mkPart (Main.item e) (Main.rarity e) None.

(** The maps the readers should build. *)
Definition expectedPrimes (primes : dict (list Main.RewardEntry))
  : dict Prime :=
  map (fun k => (k, mkPrime k (map toPart (Main.sortedItems primes k))))
      (Main.sortedPrimes primes).

Definition expectedRelics (relicLocations : str -> option str)
           (relicData : dict (list Main.RewardEntry)) : dict Relic :=
  map (fun kv => (fst kv,
                  mkRelic (locationOf relicLocations (fst kv))
                          (map toReward (snd kv))))
      relicData.

Lemma trim_nil : trim [] = [].
Proof. reflexivity. Qed.

Lemma trim_keyLine k : clean k = true -> trim (L"- " ++ k) = L"- " ++ k.
Proof.
  intros H. apply trim_app_clean; [reflexivity | now apply clean_ends].
Qed.

Lemma trim_relicLine n : clean n = true -> trim (L"## " ++ n) = L"## " ++ n.
Proof.
  intros H. apply trim_app_clean; [reflexivity | now apply clean_ends].
Qed.

Lemma trim_locationLine loc :
  clean loc = true ->
  trim (L"**Location**: " ++ loc) = L"**Location**: " ++ loc.
Proof.
  intros H. apply trim_app_clean; [reflexivity | now apply clean_ends].
Qed.

Lemma trim_rewardLine e :
  trim (Main.rewardLine e) =
  writtenRewardLine (Main.item e) (Main.rarity e).
Proof.
  unfold Main.rewardLine, writtenRewardLine.
  apply trim_app_clean; [reflexivity|].
  do 3 apply ends_nonws_app. reflexivity.
Qed.

Lemma trim_partLine e c :
  Main.source e = Some c -> clean c = true ->
  trim (Main.partLine e) = writtenPartLine (Main.item e) (Main.rarity e) c.
Proof.
  intros Hs Hc. unfold Main.partLine, writtenPartLine. rewrite Hs.
  cbn [show].
  change (L"  - " ++ Main.item e ++ L" (" ++ Main.rarity e ++ L") -> " ++ c)
    with (L"  " ++
          (L"- " ++ Main.item e ++ L" (" ++ Main.rarity e ++ L") -> " ++ c)).
  rewrite trim_ws_l by reflexivity.
  apply trim_app_clean; [reflexivity|].
  do 4 apply ends_nonws_app. now apply clean_ends.
Qed.

Lemma trim_generatedLine date :
  startsWith (L"# Generated on") (trim (L"# Generated on " ++ date)) = true.
Proof.
  change (L"# Generated on " ++ date)
    with (L"# Generated on" ++ (L" " ++ date)).
  destruct (trim_exists (L" " ++ date)) as (w1 & m & w2 & E & H1 & H2 & Hm).
  rewrite E. destruct Hm as [->|Hm].
  - cbn [app]. rewrite trim_ws_r by (now rewrite all_ws_app, H1, H2).
    reflexivity.
  - replace (L"# Generated on" ++ w1 ++ m ++ w2)
      with ((L"# Generated on" ++ w1 ++ m) ++ w2)
      by now rewrite <- !app_assoc.
    rewrite trim_ws_r by assumption.
    rewrite trim_app_clean.
    + apply startsWith_app.
    + reflexivity.
    + apply ends_nonws_app. now apply clean_ends.
Qed.

Lemma update_last (V : Type) k (f : V -> V) m v :
  ~ In k (keys m) -> update k f (m ++ [(k, v)]) = m ++ [(k, f v)].
Proof.
  induction m as [|[k' v'] m IH]; intros H; cbn [app update].
  - now rewrite str_eqb_refl.
  - destruct (str_eqb k k') eqn:E.
    + apply str_eqb_eq in E. subst k'. exfalso. apply H. now left.
    + rewrite IH; [reflexivity|]. intros Hin. apply H. now right.
Qed.

Lemma assign_last (V : Type) k (v : V) m :
  ~ In k (keys m) -> assign k v m = m ++ [(k, v)].
Proof. intros H. apply keys_assign_new. now apply lookup_None. Qed.

Lemma join_cons (sep x y : str) l :
  join sep (x :: y :: l) = x ++ sep ++ join sep (y :: l).
Proof. reflexivity. Qed.

Lemma join_split_char c s : join [c] (split [c] s) = s.
Proof.
  induction s as [|x s IH]; [reflexivity|].
  rewrite split_char_cons.
  generalize (@split_not_nil [c] s).
  destruct (split [c] s) as [|h t]; [congruence|]. intros _.
  destruct (ch_eqb c x) eqn:E.
  - apply ch_eqb_eq in E. subst x. rewrite join_cons, IH. reflexivity.
  - cbn [cons_hd]. destruct t as [|h2 t].
    + cbn [join] in *. congruence.
    + rewrite join_cons in *. cbn [app] in *. congruence.
Qed.

Section RoundTrip.

(** [processLine] of a converter, the rarities and the locations it reads
    back, and what the proof needs of it: its steps on the lines that
    [generateMarkdown] writes. *)
Variable step : Parser -> str -> option Parser.
Variable okRarity : str -> Prop.
Variable okLocation : str -> Prop.

Fixpoint runWith (p : Parser) (lines : list str) : option Parser :=
  match lines with
  | [] => Some p
  | line :: rest =>
      match step p line with
      | Some p' => runWith p' rest
      | None => None
      end
  end.

Hypothesis step_total :
  forall p line, Inv p -> exists p', step p line = Some p' /\ Inv p'.
Hypothesis step_empty : forall p, step p [] = Some p.
Hypothesis step_enter :
  forall p line sec, sections line = Some sec ->
    step p line = Some (mkParser (primes p) (relics p) (Some sec) None).
Hypothesis step_inert :
  forall p line, currentSection p = None -> sections line = None ->
    step p line = Some p.
Hypothesis step_open :
  forall p k, inPrimes p = true -> clean k = true ->
    includes (L"->") k = false ->
    step p (L"- " ++ k) = Some (openPrime k p).
Hypothesis step_part :
  forall p it r c, Inv p -> inPrimes p = true ->
    truthy (currentItem p) = true ->
    plainItem it -> okRarity r -> startsWith (L"-") it = false ->
    clean c = true -> includes (L"->") c = false ->
    step p (writtenPartLine it r c) =
    Some (pushPart (show (currentItem p)) (mkPart it r (Some c)) p).
Hypothesis step_relic :
  forall p n, inRelics p = true -> clean n = true ->
    step p (L"## " ++ n) = Some (openRelic n p).
Hypothesis step_reward :
  forall p it r, Inv p -> inRelics p = true ->
    truthy (currentItem p) = true -> plainItem it -> okRarity r ->
    step p (writtenRewardLine it r) =
    Some (pushReward (show (currentItem p)) (mkPart it r None) p).
Hypothesis step_location :
  forall p loc, Inv p -> inRelics p = true ->
    truthy (currentItem p) = true -> okLocation loc ->
    step p (L"**Location**: " ++ loc) =
    Some (setLocation (show (currentItem p)) loc p).
Hypothesis okLocation_clean : forall loc, okLocation loc -> clean loc = true.

(** An entry and a relic the converter reads back as written. *)
Definition goodEntry (e : Main.RewardEntry) : Prop :=
  plainItem (Main.item e) /\ startsWith (L"-") (Main.item e) = false /\
  okRarity (Main.rarity e).

Definition goodName (n : str) : Prop :=
  tidy n /\ includes (L"->") n = false.

Definition goodPart (x : Main.RewardEntry) : Prop :=
  goodEntry x /\ exists c, Main.source x = Some c /\ goodName c.

Lemma runWith_app a b p :
  runWith p (a ++ b) =
  match runWith p a with
  | Some p' => runWith p' b
  | None => None
  end.
Proof.
  revert p. induction a as [|x a IH]; intros p; cbn [app runWith]; auto.
  destruct (step p x); auto.
Qed.

Lemma runWith_Inv lines p p' :
  Inv p -> runWith p lines = Some p' -> Inv p'.
Proof.
  revert p. induction lines as [|x l IH]; intros p HI H; cbn [runWith] in H.
  - inversion H; subst. exact HI.
  - destruct (step_total x HI) as (p1 & Hp1 & HI1). rewrite Hp1 in H.
    now apply (IH p1).
Qed.

Lemma runWith_filter lines p :
  runWith p (filter nonEmpty lines) = runWith p lines.
Proof.
  revert p. induction lines as [|x l IH]; intros p; [reflexivity|].
  cbn [filter]. destruct x as [|c x]; cbn [nonEmpty isEmpty negb].
  - cbn [runWith]. now rewrite step_empty.
  - cbn [runWith]. destruct (step p (c :: x)); auto.
Qed.

(** The part lines of an item, read after its declaration. *)
Lemma run_parts xs m rl k acc :
  k <> [] -> ~ In k (keys m) ->
  Inv (mkParser (m ++ [(k, mkPrime k acc)]) rl (Some SecPrimes) (Some k)) ->
  Forall goodPart xs ->
  runWith (mkParser (m ++ [(k, mkPrime k acc)]) rl (Some SecPrimes) (Some k))
          (map trim (map Main.partLine xs)) =
  Some (mkParser (m ++ [(k, mkPrime k (acc ++ map toPart xs))]) rl
                 (Some SecPrimes) (Some k)).
Proof.
  intros Hk Hm. revert acc. induction xs as [|x xs IH]; intros acc HI Hg.
  - cbn [map runWith]. now rewrite app_nil_r.
  - inversion Hg as [|? ? Hx Hxs]; subst. cbn [map runWith].
    destruct Hx as ((Hit & Hd & Hr) & c & Hs & (Hc & _) & Hca).
    rewrite (trim_partLine _ Hs Hc).
    assert (Ht : truthy (Some k) = true) by (destruct k; [congruence|auto]).
    rewrite step_part; auto.
    unfold pushPart. cbn [currentItem show primes relics currentSection].
    rewrite update_last by assumption. cbn [name parts].
    assert (Hx : toPart x = mkPart (Main.item x) (Main.rarity x) (Some c))
      by (unfold toPart; now rewrite Hs).
    rewrite <- Hx.
    assert (HI' : Inv (mkParser (m ++ [(k, mkPrime k (acc ++ [toPart x]))])
                                rl (Some SecPrimes) (Some k))).
    { destruct (step_total (writtenPartLine (Main.item x) (Main.rarity x) c)
                           HI) as (p' & Hp' & HI').
      rewrite step_part in Hp'; auto.
      unfold pushPart in Hp'.
      cbn [currentItem show primes relics currentSection] in Hp'.
      rewrite update_last in Hp' by assumption. cbn [name parts] in Hp'.
      rewrite <- Hx in Hp'. inversion Hp'; subst. exact HI'. }
    refine (eq_trans (IH _ HI' Hxs) _). now rewrite <- app_assoc.
Qed.

Lemma truthy_key (k : str) : k <> [] -> truthy (Some k) = true.
Proof. destruct k; [congruence|reflexivity]. Qed.

(** A declaration and its part lines. *)
Lemma run_prime_block (k : str) xs m rl ci :
  Inv (mkParser m rl (Some SecPrimes) ci) ->
  ~ In k (keys m) -> goodName k -> Forall goodPart xs ->
  runWith (mkParser m rl (Some SecPrimes) ci)
          (map trim ((L"- " ++ k) :: map Main.partLine xs)) =
  Some (mkParser (m ++ [(k, mkPrime k (map toPart xs))]) rl
                 (Some SecPrimes) (Some k)).
Proof.
  intros HI Hm ((Hc & _) & Hka) Hxs. cbn [map runWith].
  rewrite trim_keyLine by assumption.
  assert (Hstep : step (mkParser m rl (Some SecPrimes) ci) (L"- " ++ k) =
                  Some (mkParser (m ++ [(k, mkPrime k [])]) rl
                                 (Some SecPrimes) (Some k))).
  { rewrite step_open by auto. unfold openPrime.
    cbn [primes relics currentSection]. now rewrite assign_last. }
  rewrite Hstep.
  destruct (step_total (L"- " ++ k) HI) as (p' & Hp' & HI').
  rewrite Hstep in Hp'. inversion Hp'; subst p'.
  apply (@run_parts xs m rl k [] (clean_not_nil Hc) Hm HI' Hxs).
Qed.

Lemma keys_app (V : Type) (a b : dict V) : keys (a ++ b) = keys a ++ keys b.
Proof. apply map_app. Qed.

(** The declarations of the primes section, one after the other. *)
Lemma run_prime_blocks (parts : str -> list Main.RewardEntry) ks :
  forall m rl ci,
  Inv (mkParser m rl (Some SecPrimes) ci) ->
  NoDup ks -> (forall k, In k ks -> ~ In k (keys m)) ->
  (forall k, In k ks -> goodName k /\ Forall goodPart (parts k)) ->
  exists ci',
    runWith (mkParser m rl (Some SecPrimes) ci)
            (map trim
               (flat_map (fun k => (L"- " ++ k) :: map Main.partLine (parts k))
                         ks)) =
    Some (mkParser
            (m ++ map (fun k => (k, mkPrime k (map toPart (parts k)))) ks)
            rl (Some SecPrimes) ci').
Proof.
  induction ks as [|k ks IH]; intros m rl ci HI Hnd Hfresh Hgood.
  - exists ci. cbn [flat_map map runWith]. now rewrite app_nil_r.
  - inversion Hnd as [|? ? Hk Hnd']; subst.
    destruct (Hgood k (or_introl eq_refl)) as (Hgk & Hgp).
    assert (Hkm : ~ In k (keys m)) by (apply Hfresh; now left).
    cbn [flat_map]. rewrite map_app, runWith_app.
    pose proof (@run_prime_block k (parts k) m rl ci HI Hkm Hgk Hgp)
      as Hblock.
    rewrite Hblock.
    destruct (IH (m ++ [(k, mkPrime k (map toPart (parts k)))]) rl (Some k))
      as (ci' & Hrest).
    + exact (@runWith_Inv _ _ _ HI Hblock).
    + exact Hnd'.
    + intros k' Hk'. rewrite keys_app. intros Hin.
      apply in_app_or in Hin as [Hin|[Hin|[]]].
      * apply (Hfresh k'); [now right|exact Hin].
      * cbn in Hin. subst k'. contradiction.
    + intros k' Hk'. apply Hgood. now right.
    + exists ci'. rewrite Hrest. cbn [map]. now rewrite <- app_assoc.
Qed.

(** The reward lines of a relic, read after its header. *)
Lemma run_rewards xs m pr (n : str) loc acc :
  n <> [] -> ~ In n (keys m) ->
  Inv (mkParser pr (m ++ [(n, mkRelic loc acc)]) (Some SecRelics) (Some n)) ->
  Forall goodEntry xs ->
  runWith (mkParser pr (m ++ [(n, mkRelic loc acc)]) (Some SecRelics)
                    (Some n))
          (map trim (map Main.rewardLine xs)) =
  Some (mkParser pr (m ++ [(n, mkRelic loc (acc ++ map toReward xs))])
                 (Some SecRelics) (Some n)).
Proof.
  intros Hn Hm. revert acc. induction xs as [|x xs IH]; intros acc HI Hg.
  - cbn [map runWith]. now rewrite app_nil_r.
  - inversion Hg as [|? ? Hx Hxs]; subst. cbn [map runWith].
    destruct Hx as (Hit & Hd & Hr).
    rewrite trim_rewardLine.
    pose proof (truthy_key Hn) as Ht.
    assert (Hstep :
      step (mkParser pr (m ++ [(n, mkRelic loc acc)]) (Some SecRelics)
                     (Some n))
           (writtenRewardLine (Main.item x) (Main.rarity x)) =
      Some (mkParser pr (m ++ [(n, mkRelic loc (acc ++ [toReward x]))])
                     (Some SecRelics) (Some n))).
    { rewrite step_reward by auto. unfold pushReward.
      cbn [currentItem show primes relics currentSection].
      now rewrite update_last by assumption. }
    rewrite Hstep.
    destruct (step_total (writtenRewardLine (Main.item x) (Main.rarity x))
                         HI) as (p' & Hp' & HI').
    rewrite Hstep in Hp'. inversion Hp'; subst p'.
    refine (eq_trans (IH _ HI' Hxs) _). now rewrite <- app_assoc.
Qed.

(** A relic header, its rewards and its location. *)
Lemma run_relic_block (n loc : str) xs m pr ci :
  Inv (mkParser pr m (Some SecRelics) ci) ->
  ~ In n (keys m) -> clean n = true -> okLocation loc ->
  Forall goodEntry xs ->
  runWith (mkParser pr m (Some SecRelics) ci)
          (map trim
             ([L"## " ++ n; []] ++ map Main.rewardLine xs ++
              [[]; L"**Location**: " ++ loc; []])) =
  Some (mkParser pr (m ++ [(n, mkRelic loc (map toReward xs))])
                 (Some SecRelics) (Some n)).
Proof.
  intros HI Hm Hc Hloc Hxs.
  pose proof (clean_not_nil Hc) as Hn.
  cbn [app map runWith]. rewrite trim_relicLine by assumption.
  assert (Hstep : step (mkParser pr m (Some SecRelics) ci) (L"## " ++ n) =
                  Some (mkParser pr (m ++ [(n, mkRelic [] [])])
                                 (Some SecRelics) (Some n))).
  { rewrite step_relic by auto. unfold openRelic.
    cbn [primes relics currentSection]. now rewrite assign_last. }
  rewrite Hstep.
  destruct (step_total (L"## " ++ n) HI) as (p' & Hp' & HI').
  rewrite Hstep in Hp'. inversion Hp'; subst p'.
  rewrite trim_nil, step_empty.
  rewrite map_app, runWith_app.
  pose proof (@run_rewards xs m pr n [] [] Hn Hm HI' Hxs) as Hrw.
  cbn [app] in Hrw. rewrite Hrw.
  pose proof (@runWith_Inv _ _ _ HI' Hrw) as HI2.
  cbn [app map runWith]. rewrite trim_nil, step_empty.
  rewrite trim_locationLine by (now apply okLocation_clean).
  rewrite (@step_location _ loc HI2 eq_refl (truthy_key Hn) Hloc).
  unfold setLocation. cbn [currentItem show primes relics currentSection].
  rewrite update_last by assumption. cbn [rewards].
  now rewrite step_empty.
Qed.

(** The relics section, one relic after the other. *)
Lemma run_relic_blocks locs rd :
  forall m pr ci,
  Inv (mkParser pr m (Some SecRelics) ci) ->
  NoDup (keys rd) -> (forall n, In n (keys rd) -> ~ In n (keys m)) ->
  (forall kv, In kv rd ->
     clean (fst kv) = true /\ okLocation (locationOf locs (fst kv)) /\
     Forall goodEntry (snd kv)) ->
  exists ci',
    runWith (mkParser pr m (Some SecRelics) ci)
            (map trim (flat_map (relicLines locs) rd)) =
    Some (mkParser pr (m ++ expectedRelics locs rd) (Some SecRelics) ci').
Proof.
  induction rd as [|[n xs] rd IH]; intros m pr ci HI Hnd Hfresh Hgood.
  - exists ci. cbn [flat_map map runWith expectedRelics].
    now rewrite app_nil_r.
  - cbn [keys map fst] in Hnd. inversion Hnd as [|? ? Hk Hnd']; subst.
    destruct (Hgood (n, xs) (or_introl eq_refl)) as (Hc & Hl & Hx).
    cbn [fst snd] in Hc, Hl, Hx.
    assert (Hnm : ~ In n (keys m)) by (apply Hfresh; now left).
    cbn [flat_map]. rewrite map_app, runWith_app.
    unfold relicLines at 1. cbn [fst snd].
    pose proof (@run_relic_block n (locationOf locs n) xs m pr ci HI Hnm
                  Hc Hl Hx) as Hblock.
    rewrite Hblock.
    destruct (IH (m ++ [(n, mkRelic (locationOf locs n) (map toReward xs))])
                 pr (Some n)) as (ci' & Hrest).
    + exact (@runWith_Inv _ _ _ HI Hblock).
    + exact Hnd'.
    + intros k' Hk'. rewrite keys_app. intros Hin.
      apply in_app_or in Hin as [Hin|[Hin|[]]].
      * apply (Hfresh k'); [now right|exact Hin].
      * cbn in Hin. subst k'. contradiction.
    + intros kv Hkv. apply Hgood. now right.
    + exists ci'. rewrite Hrest. unfold expectedRelics. cbn [map fst snd].
      now rewrite <- app_assoc.
Qed.

(** The whole document, from a fresh reader. *)
Lemma run_document date prs rd locs :
  NoDup (keys prs) ->
  (forall k, In k (keys prs) ->
     goodName k /\ Forall goodPart (Main.get k prs)) ->
  NoDup (keys rd) ->
  (forall kv, In kv rd ->
     clean (fst kv) = true /\ okLocation (locationOf locs (fst kv)) /\
     Forall goodEntry (snd kv)) ->
  exists ci,
    runWith newParser (map trim (markdownLines date prs rd locs)) =
    Some (mkParser (expectedPrimes prs) (expectedRelics locs rd)
                   (Some SecRelics) ci).
Proof.
  intros Hndp Hgp Hndr Hgr. unfold markdownLines.
  rewrite map_app, runWith_app. cbn [map runWith].
  rewrite step_inert;
    [|reflexivity
     |apply sections_none_generated, trim_generatedLine].
  rewrite trim_nil, step_empty.
  rewrite (@step_enter newParser (trim (L"# Primes")) SecPrimes eq_refl).
  rewrite step_empty. cbn [primes relics newParser].
  rewrite map_app, runWith_app.
  assert (HI0 : Inv (mkParser [] [] (Some SecPrimes) None))
    by apply Inv_entered.
  destruct (@run_prime_blocks (Main.sortedItems prs)
              (Main.sortedPrimes prs) [] [] None HI0) as (ci1 & H1).
  { unfold Main.sortedPrimes.
    apply (Permutation_NoDup (sort_perm compareStrings (keys prs))).
    exact Hndp. }
  { intros k _ []. }
  { intros k Hk. unfold Main.sortedPrimes in Hk.
    apply (Permutation_in _ (Permutation_sym
                               (sort_perm compareStrings (keys prs))))
      in Hk.
    destruct (Hgp k Hk) as (Hgk & Hparts). split; [exact Hgk|].
    unfold Main.sortedItems. apply Forall_forall. intros x Hx.
    rewrite Forall_forall in Hparts. apply Hparts.
    apply (Permutation_in _ (Permutation_sym
                               (sort_perm Main.byRarity (Main.get k prs)))).
    exact Hx. }
  unfold primeLines. rewrite H1. cbn [app map runWith].
  rewrite trim_nil, step_empty.
  rewrite (@step_enter _ (trim (L"# Relics")) SecRelics eq_refl).
  rewrite step_empty. cbn [primes relics].
  assert (HI1 : Inv (mkParser (expectedPrimes prs) [] (Some SecRelics)
                              None)).
  { apply (@Inv_enter (mkParser (expectedPrimes prs) [] (Some SecPrimes)
                                ci1) SecRelics).
    exact (@runWith_Inv _ _ _ HI0 H1). }
  destruct (@run_relic_blocks locs rd [] (expectedPrimes prs) None HI1
              Hndr) as (ci2 & H2).
  { intros n _ []. }
  { exact Hgr. }
  exists ci2. exact H2.
Qed.

End RoundTrip.

(** *** The two converters on written lines *)

Lemma v1_runWith p lines : runWith V1.processLine p lines = V1.run p lines.
Proof.
  revert p. induction lines as [|x l IH]; intros p; [reflexivity|].
  cbn [runWith V1.run]. destruct (V1.processLine p x); auto.
Qed.

Lemma v2_runWith p lines : runWith V2.processLine p lines = V2.run p lines.
Proof.
  revert p. induction lines as [|x l IH]; intros p; [reflexivity|].
  cbn [runWith V2.run]. destruct (V2.processLine p x); auto.
Qed.

Lemma written_part_arrow it r c :
  includes (L"->") (writtenPartLine it r c) = true.
Proof.
  apply includes_spec. unfold writtenPartLine.
  exists (L"- " ++ it ++ L" (" ++ r ++ L") "), (L" " ++ c).
  rewrite <- !app_assoc. reflexivity.
Qed.

Lemma v1_written_open p k :
  inPrimes p = true -> clean k = true -> includes (L"->") k = false ->
  V1.processLine p (L"- " ++ k) = Some (openPrime k p).
Proof.
  intros Hp Hc Hk.
  rewrite v1_step_open; auto using startsWith_app, arrow_free_key.
Qed.

Lemma v2_written_open p k :
  inPrimes p = true -> clean k = true -> includes (L"->") k = false ->
  V2.processLine p (L"- " ++ k) = Some (openPrime k p).
Proof.
  intros Hp Hc Hk.
  assert (Ht : trim (substring 2 (L"- " ++ k)) = k).
  { change (substring 2 (L"- " ++ k)) with k. now apply trim_clean. }
  rewrite v2_step_open; auto using startsWith_app, arrow_free_key.
  - now rewrite Ht.
  - rewrite Ht. apply isEmpty_false. now apply clean_not_nil.
Qed.

Lemma v1_written_part p it r c :
  Inv p -> inPrimes p = true -> truthy (currentItem p) = true ->
  plainItem it -> plainRarity r -> startsWith (L"-") it = false ->
  clean c = true -> includes (L"->") c = false ->
  V1.processLine p (writtenPartLine it r c) =
  Some (pushPart (show (currentItem p)) (mkPart it r (Some c)) p).
Proof.
  intros HI Hp Ht Hit Hr Hd Hc Hca.
  rewrite v1_step_part
    by (auto using written_part_arrow; apply startsWith_app).
  now rewrite v1_parsePartInfo_written.
Qed.

(** The rarities the second converter reads back: not empty. *)
Definition statedRarity (r : str) : Prop := plainRarity r /\ r <> [].

Lemma v2_written_part p it r c :
  Inv p -> inPrimes p = true -> truthy (currentItem p) = true ->
  plainItem it -> statedRarity r -> startsWith (L"-") it = false ->
  clean c = true -> includes (L"->") c = false ->
  V2.processLine p (writtenPartLine it r c) =
  Some (pushPart (show (currentItem p)) (mkPart it r (Some c)) p).
Proof.
  intros HI Hp Ht Hit (Hr & Hne) Hd Hc Hca.
  apply v2_step_part;
    try (now auto using written_part_arrow); try apply startsWith_app.
  now apply v2_parsePartInfo_written.
Qed.

Lemma v1_written_relic p n :
  inRelics p = true -> clean n = true ->
  V1.processLine p (L"## " ++ n) = Some (openRelic n p).
Proof.
  intros Hp Hc. rewrite v1_step_relic; auto using startsWith_app.
Qed.

Lemma v2_written_relic p n :
  inRelics p = true -> clean n = true ->
  V2.processLine p (L"## " ++ n) = Some (openRelic n p).
Proof.
  intros Hp Hc.
  assert (Ht : trim (substring 3 (L"## " ++ n)) = n).
  { change (substring 3 (L"## " ++ n)) with n. now apply trim_clean. }
  rewrite v2_step_relic; auto using startsWith_app.
  - now rewrite Ht.
  - rewrite Ht. apply isEmpty_false. now apply clean_not_nil.
Qed.

Lemma v1_written_reward p it r :
  Inv p -> inRelics p = true -> truthy (currentItem p) = true ->
  plainItem it -> plainRarity r ->
  V1.processLine p (writtenRewardLine it r) =
  Some (pushReward (show (currentItem p)) (mkPart it r None) p).
Proof.
  intros HI Hp Ht Hit Hr.
  rewrite v1_step_reward by (auto; apply startsWith_app).
  now rewrite v1_parseRewardInfo_written.
Qed.

Lemma v2_written_reward p it r :
  Inv p -> inRelics p = true -> truthy (currentItem p) = true ->
  plainItem it -> statedRarity r ->
  V2.processLine p (writtenRewardLine it r) =
  Some (pushReward (show (currentItem p)) (mkPart it r None) p).
Proof.
  intros HI Hp Ht Hit (Hr & Hne).
  apply v2_step_reward; try (now auto); try apply startsWith_app.
  now apply v2_parseRewardInfo_written.
Qed.

(** The locations [htmlConverter.js] reads back: it keeps the text between
    the first and the second colon of the line. *)
Definition colonFree (loc : str) : Prop :=
  clean loc = true /\ ~ In ":"%char loc.

Lemma v1_written_location p loc :
  Inv p -> inRelics p = true -> truthy (currentItem p) = true ->
  colonFree loc ->
  V1.processLine p (L"**Location**: " ++ loc) =
  Some (setLocation (show (currentItem p)) loc p).
Proof.
  intros HI Hp Ht (Hc & Hcol).
  assert (Hs : startsWith (L"**Location**:") (L"**Location**: " ++ loc)
               = true)
    by apply (@startsWith_app (L"**Location**:") (L" " ++ loc)).
  assert (Hn : nth_error (split (L":") (L"**Location**: " ++ loc)) 1 =
               Some (L" " ++ loc)).
  { change (L"**Location**: " ++ loc)
      with (L"**Location**" ++ ":"%char :: (L" " ++ loc)).
    change (L":") with [":"%char].
    rewrite split_first_char by (apply includes_char_false; reflexivity).
    rewrite split_none; [reflexivity|].
    apply includes_char_false. intros [H|H]; [discriminate|auto]. }
  rewrite (@v1_step_location p _ _ HI Hp Ht Hs Hn).
  now rewrite trim_space_l.
Qed.

Lemma v2_written_location p loc :
  Inv p -> inRelics p = true -> truthy (currentItem p) = true ->
  clean loc = true ->
  V2.processLine p (L"**Location**: " ++ loc) =
  Some (setLocation (show (currentItem p)) loc p).
Proof.
  intros HI Hp Ht Hc.
  assert (Hs : startsWith (L"**Location**:") (L"**Location**: " ++ loc)
               = true)
    by apply (@startsWith_app (L"**Location**:") (L" " ++ loc)).
  rewrite (@v2_step_location p _ HI Hp Ht Hs).
  change (L"**Location**: " ++ loc)
    with (L"**Location**" ++ ":"%char :: (L" " ++ loc)).
  change (L":") with [":"%char].
  rewrite split_first_char by (apply includes_char_false; reflexivity).
  cbn [tl]. rewrite join_split_char. now rewrite trim_space_l.
Qed.

(** *** The groups of a well-formed dataset *)

Lemma NoDup_keys_addPrime relic primes e :
  NoDup (keys primes) -> NoDup (keys (Main.addPrime relic primes e)).
Proof.
  intros H. unfold Main.addPrime.
  destruct (negb (includes (L"Forma") (Main.item e))
            && includes (L"Prime") (Main.item e)); [|exact H].
  cbv zeta. rewrite keys_update.
  destruct (lookup (Main.primeNameOf (Main.item e)) primes); [exact H|].
  now apply NoDup_keys_assign.
Qed.

Lemma NoDup_keys_extractPrimes rd : NoDup (keys (Main.extractPrimes rd)).
Proof.
  unfold Main.extractPrimes.
  assert (H : forall primes, NoDup (keys primes) ->
    NoDup (keys (fold_left
      (fun primes kv => fold_left (Main.addPrime (fst kv)) (snd kv) primes)
      rd primes))).
  { induction rd as [|[r rows] rd IH]; intros primes Hn; cbn [fold_left];
      auto.
    apply IH. cbn [fst snd]. clear IH. revert primes Hn.
    induction rows as [|e rows IHr]; intros primes Hn; cbn [fold_left]; auto.
    apply IHr. now apply NoDup_keys_addPrime. }
  apply H. constructor.
Qed.

(** Every entry of a group stems from a row of the dataset. *)
Definition FromRows (rd : dict (list Main.RewardEntry))
           (primes : dict (list Main.RewardEntry)) : Prop :=
  forall k l x, lookup k primes = Some l -> In x l ->
    exists relic rows e,
      In (relic, rows) rd /\ In e rows /\
      x = Main.mkEntry (Main.item e) (Main.rarity e) (Some relic).

Lemma FromRows_addPrime rd relic rows primes e :
  In (relic, rows) rd -> In e rows ->
  FromRows rd primes -> FromRows rd (Main.addPrime relic primes e).
Proof.
  intros Hrel He HF. destruct (qualifiesb (Main.item e)) eqn:Hq.
  - intros k l x Hl Hx. rewrite lookup_addPrime in Hl by assumption.
    destruct (str_eqb k (Main.primeNameOf (Main.item e))) eqn:E.
    + inversion Hl; subst l; clear Hl.
      apply in_app_or in Hx as [Hx|[Hx|[]]].
      * unfold Main.get in Hx.
        destruct (lookup k primes) eqn:El; [|destruct Hx].
        exact (HF _ _ _ El Hx).
      * subst x. eauto 8.
    + exact (HF _ _ _ Hl Hx).
  - now rewrite addPrime_skip.
Qed.

Lemma FromRows_rows rd relic rows all primes :
  In (relic, all) rd -> incl rows all ->
  FromRows rd primes ->
  FromRows rd (fold_left (Main.addPrime relic) rows primes).
Proof.
  intros Hrel. revert primes.
  induction rows as [|e rows IH]; intros primes Hincl HF; cbn [fold_left];
    auto.
  apply IH.
  - intros y Hy. apply Hincl. now right.
  - apply (@FromRows_addPrime rd relic all); auto. apply Hincl. now left.
Qed.

Lemma FromRows_extractFrom rd part primes :
  incl part rd -> FromRows rd primes ->
  FromRows rd (extractFrom primes part).
Proof.
  revert primes. induction part as [|[r rows] part IH];
    intros primes Hincl HF; cbn [extractFrom fold_left]; auto.
  apply IH.
  - intros y Hy. apply Hincl. now right.
  - cbn [fst snd]. apply (@FromRows_rows rd r rows rows); auto.
    + apply Hincl. now left.
    + apply incl_refl.
Qed.

Lemma FromRows_extractPrimes rd : FromRows rd (Main.extractPrimes rd).
Proof.
  apply (@FromRows_extractFrom rd rd []); [apply incl_refl|].
  intros k l x H. discriminate.
Qed.

Lemma split_first_nomatch sep c s :
  startsWith sep (c :: s) = false ->
  exists h, first (split sep (c :: s)) = c :: h.
Proof.
  intros H. rewrite split_cons_nomatch by assumption.
  destruct (split sep s) as [|h t]; cbn; eauto.
Qed.

Lemma not_In_nl_literal_prime : ~ In nl (L" Prime").
Proof. apply includes_char_false. reflexivity. Qed.

(** The key of a group is a good name. *)
Lemma goodName_primeNameOf it : plainItem it -> goodName (Main.primeNameOf it).
Proof.
  intros ((Hc & Hnl) & _ & Harrow). unfold Main.primeNameOf.
  destruct (@split_first_prefix (L" Prime") it) as [r Hr]; [discriminate|].
  set (p := first (split (L" Prime") it)) in *.
  assert (Hp : starts_nonws p = true).
  { pose proof (clean_starts _ Hc) as Hs. destruct it as [|c s];
      [discriminate|].
    destruct (@split_first_nomatch (L" Prime") c s) as [h Hh].
    - unfold starts_nonws in Hs. apply negb_true_iff in Hs.
      unfold L. cbn [list_ascii_of_string]. unfold startsWith.
      replace (ch_eqb " "%char c) with false; [reflexivity|].
      symmetry. apply ch_eqb_neq. intros <-. discriminate.
    - subst p. rewrite Hh. exact Hs. }
  split; [split|].
  - unfold clean. rewrite starts_nonws_app by assumption.
    cbn [andb]. apply ends_nonws_app. reflexivity.
  - apply not_In_app; [|apply not_In_nl_literal_prime].
    intros Hin. apply Hnl. rewrite Hr. apply in_or_app. now left.
  - change (L"->") with ["-"%char; ">"%char] in *.
    rewrite includes2_app.
    rewrite Hr in Harrow. apply includes_app_false_l in Harrow.
    rewrite Harrow.
    change (includes ["-"%char; ">"%char] (L" Prime")) with false.
    change (headIs ">"%char (L" Prime")) with false.
    now rewrite andb_false_r.
Qed.

(** *** From the text of the document to the parsed dataset *)

Lemma not_In_nl_parts (pieces : list str) :
  Forall (fun s => ~ In nl s) pieces -> ~ In nl (concat pieces).
Proof.
  induction 1 as [|s l Hs _ IH]; cbn [concat]; [intros []|].
  now apply not_In_app.
Qed.

Lemma literal_one_line (s : str) :
  includes [nl] s = false -> ~ In nl s.
Proof. apply includes_char_false. Qed.

Lemma partLine_one_line x c :
  plainItem (Main.item x) -> plainRarity (Main.rarity x) ->
  Main.source x = Some c -> ~ In nl c -> ~ In nl (Main.partLine x).
Proof.
  intros ((_ & Hi) & _) (_ & _ & _ & Hr & _) Hs Hc.
  unfold Main.partLine. rewrite Hs. cbn [show].
  repeat (apply not_In_app; [first [assumption
                                   | apply literal_one_line; reflexivity]|]).
  exact Hc.
Qed.

Lemma rewardLine_one_line e :
  plainItem (Main.item e) -> plainRarity (Main.rarity e) ->
  ~ In nl (Main.rewardLine e).
Proof.
  intros ((_ & Hi) & _) (_ & _ & _ & Hr & _). unfold Main.rewardLine.
  repeat (apply not_In_app; [first [assumption
                                   | apply literal_one_line; reflexivity]|]).
  apply literal_one_line. reflexivity.
Qed.

(** No group is empty: a key enters the groups together with its first
    entry. *)
Definition Inhabited (primes : dict (list Main.RewardEntry)) : Prop :=
  forall k l, lookup k primes = Some l -> l <> [].

Lemma Inhabited_addPrime relic primes e :
  Inhabited primes -> Inhabited (Main.addPrime relic primes e).
Proof.
  intros Hp k l Hl. destruct (qualifiesb (Main.item e)) eqn:Hq.
  - rewrite lookup_addPrime in Hl by assumption.
    destruct (str_eqb k (Main.primeNameOf (Main.item e))).
    + inversion Hl. destruct (Main.get k primes); discriminate.
    + now apply (Hp k).
  - rewrite addPrime_skip in Hl by assumption. now apply (Hp k).
Qed.

Lemma Inhabited_rows relic rows primes :
  Inhabited primes -> Inhabited (fold_left (Main.addPrime relic) rows primes).
Proof.
  revert primes. induction rows as [|e rows IH]; intros primes Hp;
    cbn [fold_left]; auto.
  apply IH. now apply Inhabited_addPrime.
Qed.

Lemma groups_nonempty rd k :
  lookup k (Main.extractPrimes rd) = Some [] -> False.
Proof.
  unfold Main.extractPrimes.
  assert (H : forall primes, Inhabited primes ->
    Inhabited (fold_left
      (fun primes kv => fold_left (Main.addPrime (fst kv)) (snd kv) primes)
      rd primes)).
  { induction rd as [|[r rows] rd' IH]; intros primes Hp; cbn [fold_left];
      auto.
    apply IH. cbn [fst snd]. now apply Inhabited_rows. }
  intros Hl. apply (H [] (fun k l E => ltac:(discriminate E)) k [] Hl).
  reflexivity.
Qed.

Section Document.

Variable step : Parser -> str -> option Parser.
Variable okRarity : str -> Prop.
Variable okLocation : str -> Prop.

Hypothesis step_total :
  forall p line, Inv p -> exists p', step p line = Some p' /\ Inv p'.
Hypothesis step_empty : forall p, step p [] = Some p.
Hypothesis step_enter :
  forall p line sec, sections line = Some sec ->
    step p line = Some (mkParser (primes p) (relics p) (Some sec) None).
Hypothesis step_inert :
  forall p line, currentSection p = None -> sections line = None ->
    step p line = Some p.
Hypothesis step_open :
  forall p k, inPrimes p = true -> clean k = true ->
    includes (L"->") k = false ->
    step p (L"- " ++ k) = Some (openPrime k p).
Hypothesis step_part :
  forall p it r c, Inv p -> inPrimes p = true ->
    truthy (currentItem p) = true ->
    plainItem it -> okRarity r -> startsWith (L"-") it = false ->
    clean c = true -> includes (L"->") c = false ->
    step p (writtenPartLine it r c) =
    Some (pushPart (show (currentItem p)) (mkPart it r (Some c)) p).
Hypothesis step_relic :
  forall p n, inRelics p = true -> clean n = true ->
    step p (L"## " ++ n) = Some (openRelic n p).
Hypothesis step_reward :
  forall p it r, Inv p -> inRelics p = true ->
    truthy (currentItem p) = true -> plainItem it -> okRarity r ->
    step p (writtenRewardLine it r) =
    Some (pushReward (show (currentItem p)) (mkPart it r None) p).
Hypothesis step_location :
  forall p loc, Inv p -> inRelics p = true ->
    truthy (currentItem p) = true -> okLocation loc ->
    step p (L"**Location**: " ++ loc) =
    Some (setLocation (show (currentItem p)) loc p).
Hypothesis okLocation_clean : forall loc, okLocation loc -> clean loc = true.
Hypothesis okRarity_plain : forall r, okRarity r -> plainRarity r.

(** A dataset the converter reads back as written. *)
Definition wellFormed (relicLocations : str -> option str)
           (relicData : dict (list Main.RewardEntry)) : Prop :=
  NoDup (keys relicData) /\
  forall relic rows, In (relic, rows) relicData ->
    goodName relic /\
    ~ In nl (locationOf relicLocations relic) /\
    okLocation (locationOf relicLocations relic) /\
    forall e, In e rows -> goodEntry okRarity e.

Lemma wellFormed_groups locs rd k :
  wellFormed locs rd -> In k (keys (Main.extractPrimes rd)) ->
  goodName k /\
  Forall (goodPart okRarity) (Main.get k (Main.extractPrimes rd)).
Proof.
  intros (Hnd & Hwf) Hk.
  destruct (lookup k (Main.extractPrimes rd)) as [l|] eqn:El.
  2:{ apply lookup_None in El. contradiction. }
  unfold Main.get. rewrite El.
  assert (Hall : forall x, In x l ->
            goodPart okRarity x /\ Main.primeNameOf (Main.item x) = k).
  { intros x Hx.
    pose proof (FromRows_extractPrimes rd) as HF.
    destruct (HF k l x El Hx)
      as (relic & rows & e & Hrel & He & ->).
    destruct (Hwf _ _ Hrel) as (Hgn & _ & _ & Hrows).
    specialize (Hrows e He). split.
    - split; [exact Hrows|]. exists relic. cbn. auto.
    - pose proof (Grouped_extractPrimes rd) as HG.
      destruct (HG _ _ _ El Hx) as (_ & Hkey & _). exact Hkey. }
  split.
  - destruct l as [|x l].
    + exfalso. now apply (groups_nonempty rd k El).
    + destruct (Hall x (or_introl eq_refl)) as ((Hge & _) & <-).
      apply goodName_primeNameOf. apply Hge.
  - apply Forall_forall. intros x Hx. apply (Hall x Hx).
Qed.

Lemma wellFormed_lines date locs rd :
  ~ In nl date -> wellFormed locs rd ->
  Forall (fun l => ~ In nl l)
         (markdownLines date (Main.extractPrimes rd) rd locs).
Proof.
  intros Hdate Hwf. pose proof Hwf as (Hnd & Hrel).
  assert (Hempty : ~ In nl []) by (intros []).
  unfold markdownLines.
  apply Forall_app. split; [|apply Forall_app; split;
                             [|apply Forall_app; split]].
  - repeat constructor; try exact Hempty.
    + apply not_In_app; [apply literal_one_line; reflexivity|exact Hdate].
    + apply literal_one_line. reflexivity.
  - apply Forall_flat_map. apply Forall_forall. intros k Hk.
    unfold Main.sortedPrimes in Hk.
    apply (Permutation_in _ (Permutation_sym (sort_perm compareStrings _)))
      in Hk.
    destruct (@wellFormed_groups locs rd k Hwf Hk)
      as (((_ & Hknl) & _) & Hparts).
    unfold primeLines. constructor.
    + apply not_In_app; [apply literal_one_line; reflexivity|exact Hknl].
    + apply Forall_forall. intros l Hl.
      apply in_map_iff in Hl as (x & <- & Hx).
      unfold Main.sortedItems in Hx.
      apply (Permutation_in _ (Permutation_sym (sort_perm Main.byRarity _)))
        in Hx.
      rewrite Forall_forall in Hparts.
      destruct (Hparts x Hx) as ((Hit & _ & Hr) & c & Hs & (_ & Hc) & _).
      apply (@partLine_one_line x c); auto.
  - repeat constructor; try exact Hempty.
    apply literal_one_line. reflexivity.
  - apply Forall_flat_map. apply Forall_forall. intros [relic rows] Hin.
    destruct (Hrel _ _ Hin) as (((_ & Hn) & _) & Hloc & _ & Hrows).
    unfold relicLines. cbn [fst snd].
    apply Forall_app. split; [|apply Forall_app; split].
    + repeat constructor; try exact Hempty.
      apply not_In_app; [apply literal_one_line; reflexivity|exact Hn].
    + apply Forall_forall. intros l Hl.
      apply in_map_iff in Hl as (e & <- & He).
      destruct (Hrows e He) as (Hit & _ & Hr).
      apply rewardLine_one_line; auto.
    + repeat constructor; try exact Hempty.
      apply not_In_app; [apply literal_one_line; reflexivity|exact Hloc].
Qed.

Lemma document_parsed date locs rd :
  ~ In nl date -> wellFormed locs rd ->
  exists ci,
    runWith step newParser
      (linesOf (Main.generateMarkdown date (Main.extractPrimes rd) rd locs)) =
    Some (mkParser (expectedPrimes (Main.extractPrimes rd))
                   (expectedRelics locs rd) (Some SecRelics) ci).
Proof.
  intros Hdate Hwf.
  rewrite <- (runWith_filter step step_empty).
  replace (filter nonEmpty
             (linesOf (Main.generateMarkdown date (Main.extractPrimes rd)
                                             rd locs)))
    with (filter nonEmpty
            (map trim (markdownLines date (Main.extractPrimes rd) rd locs))).
  2:{ change (filter nonEmpty (linesOf ?s)) with (proc (trim s)).
      rewrite proc_trim, generateMarkdown_unlines.
      symmetry. apply proc_unlines. now apply wellFormed_lines. }
  rewrite (runWith_filter step step_empty).
  destruct Hwf as (Hnd & Hrel).
  apply (@run_document step okRarity okLocation); auto.
  - apply NoDup_keys_extractPrimes.
  - intros k Hk. apply (@wellFormed_groups locs rd k); [split|]; assumption.
  - intros [relic rows] Hin. cbn [fst snd].
    destruct (Hrel _ _ Hin) as (((Hc & _) & _) & _ & Hloc & Hrows).
    split; [exact Hc|]. split; [exact Hloc|].
    apply Forall_forall. exact Hrows.
Qed.

End Document.

(** A rarity [findRelicTableData] can produce is written and read back
    unchanged by the first converter. *)
Lemma plainRarity_classified r :
  In r ([] :: Main.rarityOrder) -> plainRarity r.
Proof.
  intros [<-|[<-|[<-|[<-|[]]]]];
    (split; [apply includes_char_false; reflexivity|]);
    (split; [apply includes_char_false; reflexivity|]);
    (split; [reflexivity|]);
    (split; [apply includes_char_false; reflexivity|]);
    first [left; reflexivity | right; reflexivity].
Qed.

(** The table of locations in [main]. *)
Definition relicLocations : dict str :=
  [(L"Lith", L"Void/Hepit (Capture)");
   (L"Meso", L"Void/Ukko (Capture)");
   (L"Neo", L"Void/Ukko (Capture), Lua/Apollo (Disruption)");
   (L"Axi", L"Lua/Apollo (Disruption)")].

Definition sampleDate : str := L"November 2, 2026".

(** htmlConverter/htmlConverter.js reads back what main.js writes.
    For a dataset with distinct relic names, in which every relic name is
    trimmed, free of line feeds and of "->", every location printed is
    trimmed and free of line feeds and colons, every item is trimmed, free of
    line feeds, "(" and "->" and does not begin with "-", and every rarity is
    free of parentheses, line feeds and "->" and is empty or trimmed, parsing
    the document [generateMarkdown] writes for the dataset and its grouping
    by [extractPrimes] raises nothing and returns exactly: the primes in
    sorted order, each with its parts in the order written (sorted by
    rarity), and the relics in the order of the dataset, each with its
    location and its rewards in order. *)
Theorem v1_parse_generateMarkdown date locs rd :
  ~ In nl date ->
  wellFormed plainRarity colonFree locs rd ->
  V1.parse (Main.generateMarkdown date (Main.extractPrimes rd) rd locs) =
  Some (mkParsed (expectedPrimes (Main.extractPrimes rd))
                 (expectedRelics locs rd)).
Proof.
  intros Hdate Hwf.
  destruct (@document_parsed V1.processLine plainRarity colonFree
              v1_processLine_total v1_step_empty v1_step_enter v1_step_inert
              v1_written_open v1_written_part v1_written_relic
              v1_written_reward v1_written_location
              (fun loc H => proj1 H) (fun r H => H)
              date locs rd Hdate Hwf) as [ci Hrun].
  unfold V1.parse. rewrite <- v1_runWith, Hrun. reflexivity.
Qed.

(** The error-tolerant converter reads back what main.js writes, for the
    same datasets except that a location may contain colons and every
    rarity must be non-empty. *)
Theorem v2_parse_generateMarkdown date locs rd :
  ~ In nl date ->
  wellFormed statedRarity (fun loc => clean loc = true) locs rd ->
  V2.parse (Main.generateMarkdown date (Main.extractPrimes rd) rd locs) =
  Some (mkParsed (expectedPrimes (Main.extractPrimes rd))
                 (expectedRelics locs rd)).
Proof.
  intros Hdate Hwf.
  destruct (@document_parsed V2.processLine statedRarity
              (fun loc => clean loc = true)
              v2_processLine_total v2_step_empty v2_step_enter v2_step_inert
              v2_written_open v2_written_part v2_written_relic
              v2_written_reward v2_written_location
              (fun loc H => H) (fun r H => proj1 H)
              date locs rd Hdate Hwf) as [ci Hrun].
  unfold V2.parse. rewrite <- v2_runWith, Hrun. reflexivity.
Qed.

Ltac concrete :=
  repeat match goal with
         | |- _ /\ _ => split
         | |- ~ In _ _ => apply includes_char_false; reflexivity
         | |- _ <> _ => discriminate
         | |- _ \/ _ => right; reflexivity
         | |- _ = _ => reflexivity
         end.

Lemma sampleRelics_wellFormed :
  wellFormed statedRarity colonFree (fun k => lookup k relicLocations)
             sampleRelics.
Proof.
  split.
  - repeat constructor; cbv; intuition discriminate.
  - intros relic rows [H|[H|[]]]; inversion H; subst relic rows; clear H;
      (split; [|split; [|split]]);
      try (intros e [<-|[<-|[]]] || intros e [<-|[]]);
      unfold goodName, goodEntry, statedRarity, plainItem, plainRarity,
        colonFree, tidy;
      cbn [Main.item Main.rarity]; concrete.
Qed.

Lemma v1_parse_generateMarkdown_witness :
  V1.parse (Main.generateMarkdown sampleDate (Main.extractPrimes sampleRelics)
              sampleRelics (fun k => lookup k relicLocations)) =
  Some (mkParsed (expectedPrimes (Main.extractPrimes sampleRelics))
                 (expectedRelics (fun k => lookup k relicLocations)
                                 sampleRelics)).
Proof.
  apply v1_parse_generateMarkdown.
  - apply includes_char_false. reflexivity.
  - destruct sampleRelics_wellFormed as [Hnd Hwf]. split; [exact Hnd|].
    intros relic rows Hin. destruct (Hwf relic rows Hin) as (A & B & C & D).
    split; [exact A|]. split; [exact B|]. split; [exact C|].
    intros e He. destruct (D e He) as (E1 & E2 & E3 & _).
    split; [exact E1|]. split; [exact E2|exact E3].
Defined.

Lemma v2_parse_generateMarkdown_witness :
  V2.parse (Main.generateMarkdown sampleDate (Main.extractPrimes sampleRelics)
              sampleRelics (fun k => lookup k relicLocations)) =
  Some (mkParsed (expectedPrimes (Main.extractPrimes sampleRelics))
                 (expectedRelics (fun k => lookup k relicLocations)
                                 sampleRelics)).
Proof.
  apply v2_parse_generateMarkdown.
  - apply includes_char_false. reflexivity.
  - destruct sampleRelics_wellFormed as [Hnd Hwf]. split; [exact Hnd|].
    intros relic rows Hin. destruct (Hwf relic rows Hin) as (A & B & C & D).
    split; [exact A|]. split; [exact B|]. split; [exact (proj1 C)|exact D].
Defined.

(** ** The grouping as one pass over the rows *)

(** The entries [extractPrimes] pushes, in the order of the scan: for each
    relic in turn, its qualifying rows in turn, each with its [source]. *)
Definition recorded (relicData : dict (list Main.RewardEntry))
  : list Main.RewardEntry :=
  flat_map
    (fun kv =>
       map (fun e => Main.mkEntry (Main.item e) (Main.rarity e)
                                  (Some (fst kv)))
           (filter (fun e => qualifiesb (Main.item e)) (snd kv)))
    relicData.

(** The first occurrence of each string of [l] that is not in [seen]. *)
Fixpoint firstSeen (seen l : list str) : list str :=
  match l with
  | [] => []
  | x :: l' =>
      if existsb (str_eqb x) seen then firstSeen seen l'
      else x :: firstSeen (x :: seen) l'
  end.

Definition underKey (k : str) (x : Main.RewardEntry) : bool :=
  str_eqb k (Main.primeNameOf (Main.item x)).

Lemma firstSeen_ext s1 s2 l :
  (forall x, existsb (str_eqb x) s1 = existsb (str_eqb x) s2) ->
  firstSeen s1 l = firstSeen s2 l.
Proof.
  revert s1 s2. induction l as [|y l IH]; intros s1 s2 H; [reflexivity|].
  cbn [firstSeen]. rewrite (H y). destruct (existsb (str_eqb y) s2); auto.
  f_equal. apply IH. intros x. cbn [existsb]. now rewrite H.
Qed.

Lemma existsb_keys (V : Type) k (o : dict V) :
  existsb (str_eqb k) (keys o) = true <-> lookup k o <> None.
Proof.
  induction o as [|[k' v] o IH]; cbn [keys map existsb lookup fst].
  - split; [discriminate|congruence].
  - destruct (str_eqb k k'); cbn [orb]; [split; congruence|exact IH].
Qed.

Lemma get_addPrime relic primes e k :
  Main.get k (Main.addPrime relic primes e) =
  Main.get k primes ++
  (if qualifiesb (Main.item e) && underKey k e
   then [Main.mkEntry (Main.item e) (Main.rarity e) (Some relic)]
   else []).
Proof.
  destruct (qualifiesb (Main.item e)) eqn:Hq; cbn [andb].
  - unfold Main.get at 1. rewrite lookup_addPrime by assumption.
    unfold underKey. destruct (str_eqb k _); [reflexivity|].
    now rewrite app_nil_r.
  - rewrite addPrime_skip by assumption. now rewrite app_nil_r.
Qed.

Lemma keys_addPrime relic primes e :
  keys (Main.addPrime relic primes e) =
  keys primes ++
  (if qualifiesb (Main.item e)
      && negb (existsb (str_eqb (Main.primeNameOf (Main.item e)))
                       (keys primes))
   then [Main.primeNameOf (Main.item e)]
   else []).
Proof.
  destruct (qualifiesb (Main.item e)) eqn:Hq; cbn [andb].
  - unfold Main.addPrime. fold (qualifiesb (Main.item e)). rewrite Hq.
    cbv zeta. rewrite keys_update.
    set (pn := Main.primeNameOf (Main.item e)).
    destruct (lookup pn primes) as [l|] eqn:El.
    + replace (existsb (str_eqb pn) (keys primes)) with true;
        [now rewrite app_nil_r|].
      symmetry. apply existsb_keys. congruence.
    + replace (existsb (str_eqb pn) (keys primes)) with false.
      * rewrite keys_assign_new by assumption. unfold keys.
        now rewrite map_app.
      * symmetry. apply not_true_is_false. rewrite existsb_keys. tauto.
  - rewrite addPrime_skip by assumption. now rewrite app_nil_r.
Qed.

Lemma existsb_app_swap x (s f : list str) y :
  existsb (str_eqb x) ((y :: s) ++ f) = existsb (str_eqb x) (s ++ y :: f).
Proof.
  rewrite !existsb_app. cbn [existsb].
  destruct (str_eqb x y), (existsb (str_eqb x) s); reflexivity.
Qed.

Lemma firstSeen_app s a b :
  firstSeen s (a ++ b) = firstSeen s a ++ firstSeen (s ++ firstSeen s a) b.
Proof.
  revert s. induction a as [|x a IH]; intros s; cbn [app firstSeen].
  - now rewrite app_nil_r.
  - destruct (existsb (str_eqb x) s); [apply IH|].
    cbn [app]. f_equal. rewrite IH. f_equal.
    apply firstSeen_ext. intros y. apply existsb_app_swap.
Qed.

Definition keyOf (x : Main.RewardEntry) : str :=
  Main.primeNameOf (Main.item x).

Definition pushed (relic : str) (rows : list Main.RewardEntry)
  : list Main.RewardEntry :=
  map (fun e => Main.mkEntry (Main.item e) (Main.rarity e) (Some relic))
      (filter (fun e => qualifiesb (Main.item e)) rows).

Lemma rows_scan relic rows primes :
  (forall k,
     Main.get k (fold_left (Main.addPrime relic) rows primes) =
     Main.get k primes ++ filter (underKey k) (pushed relic rows)) /\
  keys (fold_left (Main.addPrime relic) rows primes) =
  keys primes ++ firstSeen (keys primes) (map keyOf (pushed relic rows)).
Proof.
  revert primes. unfold pushed.
  induction rows as [|e rows IH]; intros primes; cbn [fold_left].
  - cbn. split; [intros k|]; now rewrite app_nil_r.
  - destruct (IH (Main.addPrime relic primes e)) as [IHg IHk]. split.
    + intros k. rewrite IHg, get_addPrime, <- app_assoc. f_equal.
      cbn [filter]. destruct (qualifiesb (Main.item e)); cbn [andb map filter];
        [|reflexivity].
      unfold underKey at 1 3. cbn [Main.item].
      destruct (str_eqb k _); reflexivity.
    + rewrite IHk, keys_addPrime, <- app_assoc. f_equal.
      cbn [filter]. destruct (qualifiesb (Main.item e)); cbn [andb map];
        [|now rewrite app_nil_r].
      cbn [firstSeen]. unfold keyOf at 2 3. cbn [Main.item].
      destruct (existsb _ (keys primes)); cbn [negb app].
      * now rewrite app_nil_r.
      * f_equal. apply firstSeen_ext. intros x.
        rewrite <- (existsb_app_swap x (keys primes) []).
        now rewrite app_nil_r.
Qed.

Lemma extractFrom_scan rd primes :
  (forall k,
     Main.get k (extractFrom primes rd) =
     Main.get k primes ++ filter (underKey k) (recorded rd)) /\
  keys (extractFrom primes rd) =
  keys primes ++ firstSeen (keys primes) (map keyOf (recorded rd)).
Proof.
  revert primes. unfold extractFrom, recorded.
  induction rd as [|[relic rows] rd IH]; intros primes;
    cbn [fold_left flat_map fst snd].
  - cbn. split; [intros k|]; now rewrite app_nil_r.
  - destruct (IH (fold_left (Main.addPrime relic) rows primes)) as [IHg IHk].
    destruct (rows_scan relic rows primes) as [Rg Rk].
    fold (pushed relic rows). split.
    + intros k. now rewrite IHg, Rg, filter_app, app_assoc.
    + rewrite IHk, Rk, map_app, firstSeen_app, app_assoc. reflexivity.
Qed.

(** [extractPrimes] is one pass over the rows: the keys of the result are
    the keys derived from the qualifying rows, each once, in the order in
    which the scan first meets them, and the group under a key holds the
    qualifying rows with that key, each with the relic it was found in, in
    the order of the scan (relic by relic, row by row). *)
Theorem extractPrimes_scan_order relicData :
  keys (Main.extractPrimes relicData) =
  firstSeen [] (map keyOf (recorded relicData)) /\
  forall k,
    Main.get k (Main.extractPrimes relicData) =
    filter (underKey k) (recorded relicData).
Proof.
  destruct (extractFrom_scan relicData []) as [Hg Hk].
  split; [exact Hk|intros k; exact (Hg k)].
Qed.

(** ** The order of the parts written for a prime *)

Section Buckets.
Variable A : Type.
Variable rk : A -> Z.

Definition byRank (x y : A) : Z := (rk x - rk y)%Z.

Definition bucket (l : list A) (r : Z) : list A :=
  filter (fun x => (rk x =? r)%Z) l.

Lemma insert_front x l :
  (forall y, In y l -> (rk x <= rk y)%Z) -> insert byRank x l = x :: l.
Proof.
  destruct l as [|y l]; intros H; cbn [insert]; [reflexivity|].
  replace (byRank x y <=? 0)%Z with true; [reflexivity|].
  symmetry. apply Z.leb_le. unfold byRank.
  specialize (H y (or_introl eq_refl)). lia.
Qed.

Lemma insert_skip x a b :
  (forall y, In y a -> (rk y < rk x)%Z) ->
  insert byRank x (a ++ b) = a ++ insert byRank x b.
Proof.
  induction a as [|y a IH]; intros H; cbn [app insert]; [reflexivity|].
  replace (byRank x y <=? 0)%Z with false.
  - f_equal. apply IH. intros z Hz. apply H. now right.
  - symmetry. apply Z.leb_gt. unfold byRank.
    specialize (H y (or_introl eq_refl)). lia.
Qed.

Lemma bucket_rank l r y : In y (bucket l r) -> rk y = r.
Proof.
  unfold bucket. intros H. apply filter_In in H as [_ H]. lia.
Qed.

Lemma buckets_rank l ks y :
  In y (flat_map (bucket l) ks) -> In (rk y) ks.
Proof.
  intros H. apply in_flat_map in H as (r & Hr & Hy).
  apply bucket_rank in Hy. now subst r.
Qed.

Lemma bucket_other x l r : rk x <> r -> bucket (x :: l) r = bucket l r.
Proof.
  intros H. unfold bucket. cbn [filter].
  replace (rk x =? r)%Z with false; [reflexivity|].
  symmetry. now apply Z.eqb_neq.
Qed.

Lemma buckets_other x l ks :
  ~ In (rk x) ks -> flat_map (bucket (x :: l)) ks = flat_map (bucket l) ks.
Proof.
  induction ks as [|k ks IH]; intros H; cbn [flat_map]; [reflexivity|].
  rewrite bucket_other, IH; auto.
  - intros Hin. apply H. now right.
  - intros E. apply H. now left.
Qed.

Lemma insert_buckets x l ks :
  StronglySorted Z.lt ks -> In (rk x) ks ->
  insert byRank x (flat_map (bucket l) ks) = flat_map (bucket (x :: l)) ks.
Proof.
  induction 1 as [|k ks Hs IH Hk]; intros Hin; [destruct Hin|].
  rewrite Forall_forall in Hk. cbn [flat_map].
  destruct (Z.eq_dec (rk x) k) as [E|E].
  - rewrite buckets_other.
    2:{ intros Hx. specialize (Hk _ Hx). lia. }
    rewrite insert_front.
    + unfold bucket at 3. cbn [filter].
      replace (rk x =? k)%Z with true by (symmetry; now apply Z.eqb_eq).
      reflexivity.
    + intros y Hy. apply in_app_or in Hy as [Hy|Hy].
      * apply bucket_rank in Hy. lia.
      * apply buckets_rank in Hy. specialize (Hk _ Hy). lia.
  - destruct Hin as [Hin|Hin]; [congruence|].
    rewrite insert_skip.
    + rewrite IH by assumption. now rewrite bucket_other.
    + intros y Hy. apply bucket_rank in Hy. specialize (Hk _ Hin). lia.
Qed.

Lemma buckets_nil ks : flat_map (bucket []) ks = [].
Proof. induction ks as [|k ks IH]; [reflexivity|exact IH]. Qed.

Lemma sort_buckets l ks :
  StronglySorted Z.lt ks -> (forall x, In x l -> In (rk x) ks) ->
  sort byRank l = flat_map (bucket l) ks.
Proof.
  intros Hs. induction l as [|x l IH]; intros H; cbn [sort].
  - now rewrite buckets_nil.
  - rewrite IH by (intros y Hy; apply H; now right).
    apply insert_buckets; [exact Hs|]. apply H. now left.
Qed.

End Buckets.

Definition withRarity (r : str) (x : Main.RewardEntry) : bool :=
  str_eqb (Main.rarity x) r.

Definition withOtherRarity (x : Main.RewardEntry) : bool :=
  negb (existsb (str_eqb (Main.rarity x)) Main.rarityOrder).

Lemma rarityRank_cases r :
  rarityRank r =
  (if str_eqb r (L"Rare") then 0
   else if str_eqb r (L"Uncommon") then 1
   else if str_eqb r (L"Common") then 2 else -1)%Z.
Proof.
  unfold rarityRank, Main.rarityOrder. cbn [indexOf].
  destruct (str_eqb r (L"Rare")); [reflexivity|].
  destruct (str_eqb r (L"Uncommon")); [reflexivity|].
  destruct (str_eqb r (L"Common")); reflexivity.
Qed.

Lemma distinct_rarities r a b :
  str_eqb a b = false -> str_eqb r a = true -> str_eqb r b = false.
Proof.
  intros Hab Hra. apply str_eqb_eq in Hra. now subst r.
Qed.

(** Whatever the rarities are, the parts written under a prime are those of
    its group with a rarity other than the three labels (the empty rarity
    among them) first, then the "Rare", the "Uncommon" and the "Common" ones,
    each of the four runs in the order of the group: the sort is stable. *)
Theorem sortedItems_runs primes prime :
  Main.sortedItems primes prime =
  filter withOtherRarity (Main.get prime primes) ++
  filter (withRarity (L"Rare")) (Main.get prime primes) ++
  filter (withRarity (L"Uncommon")) (Main.get prime primes) ++
  filter (withRarity (L"Common")) (Main.get prime primes).
Proof.
  unfold Main.sortedItems.
  change Main.byRarity
    with (byRank (fun x : Main.RewardEntry => rarityRank (Main.rarity x))).
  rewrite (@sort_buckets _ _ _ [-1; 0; 1; 2]%Z).
  - cbn [flat_map]. rewrite app_nil_r. unfold bucket.
    apply (f_equal2 (@app _));
      [|apply (f_equal2 (@app _)); [|apply (f_equal2 (@app _))]];
      apply filter_ext; intros x;
      unfold withRarity, withOtherRarity, Main.rarityOrder;
      cbn [existsb]; rewrite rarityRank_cases;
      destruct (str_eqb (Main.rarity x) (L"Rare")) eqn:E1;
      try (rewrite (@distinct_rarities _ (L"Rare") (L"Uncommon") eq_refl E1));
      try (rewrite (@distinct_rarities _ (L"Rare") (L"Common") eq_refl E1));
      try reflexivity;
      destruct (str_eqb (Main.rarity x) (L"Uncommon")) eqn:E2;
      try (rewrite (@distinct_rarities _ (L"Uncommon") (L"Common") eq_refl E2));
      try reflexivity;
      destruct (str_eqb (Main.rarity x) (L"Common")); reflexivity.
  - repeat constructor; lia.
  - intros x _. rewrite rarityRank_cases.
    destruct (str_eqb _ _); [cbn; tauto|].
    destruct (str_eqb _ _); [cbn; tauto|].
    destruct (str_eqb _ _); cbn; tauto.
Qed.

(** ** What the reader does with any text *)

(** Outside the two sections -- before the first header, or after a line
    that reads a member of [Object.prototype] off the table of sections --
    the reader stores nothing. *)
Definition Outside (p : Parser) : Prop :=
  inPrimes p = false /\ inRelics p = false.

Definition sameMaps (p p' : Parser) : Prop :=
  primes p' = primes p /\ relics p' = relics p.

Lemma sections_inherited line sec :
  line <> L"# Primes" -> line <> L"# Relics" -> sections line = Some sec ->
  sec = SecInherited.
Proof.
  intros H1 H2. unfold sections.
  apply str_eqb_neq in H1. apply str_eqb_neq in H2. rewrite H1, H2.
  destruct (existsb _ _); congruence.
Qed.

Lemma v1_outside_step p line :
  Outside p -> line <> L"# Primes" -> line <> L"# Relics" ->
  exists p', V1.processLine p line = Some p' /\ Outside p' /\ sameMaps p p'.
Proof.
  intros (Hp & Hr) H1 H2. unfold V1.processLine.
  destruct (isEmpty line); [exists p; repeat split; auto|].
  unfold handleSectionHeaders. destruct (sections line) as [sec|] eqn:Es.
  - apply sections_inherited in Es; auto. subst sec.
    eexists. split; [reflexivity|]. repeat split; auto.
  - unfold V1.handlePrimeSection, V1.handleRelicSection. rewrite Hp, Hr.
    exists p. repeat split; auto.
Qed.

Lemma v2_outside_step p line :
  Outside p -> line <> L"# Primes" -> line <> L"# Relics" ->
  exists p', V2.processLine p line = Some p' /\ Outside p' /\ sameMaps p p'.
Proof.
  intros (Hp & Hr) H1 H2. unfold V2.processLine.
  destruct (isEmpty line); [exists p; repeat split; auto|].
  unfold handleSectionHeaders. destruct (sections line) as [sec|] eqn:Es.
  - apply sections_inherited in Es; auto. subst sec.
    eexists. split; [reflexivity|]. repeat split; auto.
  - unfold V2.handlePrimeSection, V2.handleRelicSection. rewrite Hp, Hr.
    exists p. repeat split; auto.
Qed.

Lemma v1_outside_run lines p :
  Outside p -> ~ In (L"# Primes") lines -> ~ In (L"# Relics") lines ->
  exists p', V1.run p lines = Some p' /\ sameMaps p p'.
Proof.
  revert p. induction lines as [|line rest IH]; intros p HO H1 H2;
    cbn [V1.run]; [exists p; repeat split|].
  destruct (@v1_outside_step p line HO) as (p1 & -> & HO1 & E1 & E2).
  - intros ->. apply H1. now left.
  - intros ->. apply H2. now left.
  - destruct (IH p1 HO1) as (p' & Hrun & E3 & E4);
      [intros H; apply H1; now right|intros H; apply H2; now right|].
    exists p'. split; [exact Hrun|]. split; congruence.
Qed.

Lemma v2_outside_run lines p :
  Outside p -> ~ In (L"# Primes") lines -> ~ In (L"# Relics") lines ->
  exists p', V2.run p lines = Some p' /\ sameMaps p p'.
Proof.
  revert p. induction lines as [|line rest IH]; intros p HO H1 H2;
    cbn [V2.run]; [exists p; repeat split|].
  destruct (@v2_outside_step p line HO) as (p1 & -> & HO1 & E1 & E2).
  - intros ->. apply H1. now left.
  - intros ->. apply H2. now left.
  - destruct (IH p1 HO1) as (p' & Hrun & E3 & E4);
      [intros H; apply H1; now right|intros H; apply H2; now right|].
    exists p'. split; [exact Hrun|]. split; congruence.
Qed.

(** Whatever the text, [parse] returns a dataset: no exception escapes
    from either converter, the stricter one included. *)
Theorem parse_never_raises content :
  (exists d, V1.parse content = Some d) /\
  (exists d, V2.parse content = Some d).
Proof.
  split.
  - unfold V1.parse.
    destruct (v1_run_total (linesOf content) Inv_newParser) as (p & -> & _).
    eauto.
  - unfold V2.parse.
    destruct (v2_run_total (linesOf content) Inv_newParser) as (p & -> & _).
    eauto.
Qed.

(** A text none of whose lines, once trimmed, is "# Primes" or "# Relics"
    parses to the empty dataset in both converters, whatever else it
    holds. *)
Theorem parse_without_headers content :
  ~ In (L"# Primes") (linesOf content) ->
  ~ In (L"# Relics") (linesOf content) ->
  V1.parse content = Some (mkParsed [] []) /\
  V2.parse content = Some (mkParsed [] []).
Proof.
  intros H1 H2.
  assert (HO : Outside newParser) by (split; reflexivity).
  split.
  - unfold V1.parse.
    destruct (@v1_outside_run (linesOf content) newParser HO H1 H2)
      as (p & -> & -> & ->). reflexivity.
  - unfold V2.parse.
    destruct (@v2_outside_run (linesOf content) newParser HO H1 H2)
      as (p & -> & -> & ->). reflexivity.
Qed.

Definition noHeaders : str :=
  L"# Generated on November 2, 2026" ++ NL ++
  L"- Volt Prime" ++ NL ++
  L"  - Volt Prime Systems (Rare) -> Lith A1 Relic" ++ NL ++
  L"## Lith A1 Relic" ++ NL ++
  L"**Location**: Void/Hepit (Capture)".

Lemma parse_without_headers_witness :
  V1.parse noHeaders = Some (mkParsed [] []) /\
  V2.parse noHeaders = Some (mkParsed [] []).
Proof.
  apply parse_without_headers; vm_compute; intuition discriminate.
Defined.

(** With no item open, the only lines that change the reader are a section
    header, a prime declaration (in the primes section) and a relic header
    (in the relics section): a part, a reward or a location that has no
    owner is dropped, in both converters, and nothing is raised. *)
Theorem line_without_owner p line :
  currentItem p = None -> sections line = None ->
  (inPrimes p = true -> startsWith (L"- ") line = true ->
   includes (L"->") line = true) ->
  (inRelics p = true -> startsWith (L"## ") line = false) ->
  V1.processLine p line = Some p /\ V2.processLine p line = Some p.
Proof.
  intros Hci Hs Hprime Hrelic.
  unfold V1.processLine, V2.processLine, handleSectionHeaders.
  rewrite Hs. destruct (isEmpty line); [auto|].
  unfold V1.handlePrimeSection, V2.handlePrimeSection,
    V1.handleRelicSection, V2.handleRelicSection.
  rewrite Hci. cbn [truthy negb andb]. rewrite !andb_false_r.
  destruct (inPrimes p) eqn:Hp; cbn [negb].
  - rewrite (not_inRelics_of_inPrimes _ Hp). cbn [negb].
    destruct (startsWith (L"- ") line) eqn:Hd; cbn [andb].
    + rewrite (Hprime eq_refl eq_refl). cbn [negb]. auto.
    + auto.
  - destruct (inRelics p) eqn:Hr; cbn [negb]; [|auto].
    rewrite (Hrelic eq_refl). auto.
Qed.

Lemma line_without_owner_witness :
  V1.processLine (entered SecRelics) (L"- Forma Blueprint (Common)") =
    Some (entered SecRelics) /\
  V2.processLine (entered SecRelics) (L"- Forma Blueprint (Common)") =
    Some (entered SecRelics).
Proof.
  apply line_without_owner; try reflexivity; discriminate.
Defined.

(** A line that spells a member of [Object.prototype] ("constructor",
    "toString", "__proto__", ...) is taken for a section header, because the
    table of sections is read with [sections[line]]: in both converters it
    closes the current section and the open item, and the lines that follow
    are dropped until the next "# Primes" or "# Relics". *)
Theorem inherited_key_closes_section p line rest :
  In line objectPrototypeKeys ->
  ~ In (L"# Primes") rest -> ~ In (L"# Relics") rest ->
  V1.processLine p line =
    Some (mkParser (primes p) (relics p) (Some SecInherited) None) /\
  V2.processLine p line =
    Some (mkParser (primes p) (relics p) (Some SecInherited) None) /\
  (exists p', V1.run p (line :: rest) = Some p' /\ sameMaps p p') /\
  (exists p', V2.run p (line :: rest) = Some p' /\ sameMaps p p').
Proof.
  intros Hin H1 H2.
  assert (Hs : sections line = Some SecInherited).
  { unfold sections. cbn [In objectPrototypeKeys] in Hin.
    repeat (destruct Hin as [<-|Hin]; [reflexivity|]). destruct Hin. }
  assert (Hne : isEmpty line = false).
  { destruct line; [discriminate Hs|reflexivity]. }
  assert (E1 : V1.processLine p line =
               Some (mkParser (primes p) (relics p) (Some SecInherited) None)).
  { unfold V1.processLine, handleSectionHeaders. now rewrite Hne, Hs. }
  assert (E2 : V2.processLine p line =
               Some (mkParser (primes p) (relics p) (Some SecInherited) None)).
  { unfold V2.processLine, handleSectionHeaders. now rewrite Hne, Hs. }
  split; [exact E1|]. split; [exact E2|].
  split; [cbn [V1.run]; rewrite E1|cbn [V2.run]; rewrite E2].
  - apply (@v1_outside_run rest
             (mkParser (primes p) (relics p) (Some SecInherited) None));
      auto. split; reflexivity.
  - apply (@v2_outside_run rest
             (mkParser (primes p) (relics p) (Some SecInherited) None));
      auto. split; reflexivity.
Qed.

Lemma inherited_key_closes_section_witness :
  V1.processLine relicOpen (L"constructor") =
    Some (mkParser (primes relicOpen) (relics relicOpen)
                   (Some SecInherited) None) /\
  V2.processLine relicOpen (L"constructor") =
    Some (mkParser (primes relicOpen) (relics relicOpen)
                   (Some SecInherited) None) /\
  (exists p', V1.run relicOpen
                (L"constructor" :: [L"- Forma Blueprint (Common)"]) =
              Some p' /\ sameMaps relicOpen p') /\
  (exists p', V2.run relicOpen
                (L"constructor" :: [L"- Forma Blueprint (Common)"]) =
              Some p' /\ sameMaps relicOpen p').
Proof.
  apply inherited_key_closes_section.
  - left. reflexivity.
  - cbv. intuition discriminate.
  - cbv. intuition discriminate.
Defined.

(** ** The location line *)

Lemma split_location rest :
  split (L":") (L"**Location**:" ++ rest) =
  L"**Location**" :: split (L":") rest.
Proof.
  change (L"**Location**:" ++ rest) with (L"**Location**" ++ ":"%char :: rest).
  change (L":") with [":"%char].
  apply split_first_char. apply includes_char_false. reflexivity.
Qed.

(** In htmlConverter/htmlConverter.js the location of the open relic becomes
    the text between the first and the second colon of the line, trimmed:
    whatever follows a second colon is lost. *)
Theorem v1_location_line p rest :
  Inv p -> inRelics p = true -> truthy (currentItem p) = true ->
  V1.processLine p (L"**Location**:" ++ rest) =
  Some (setLocation (show (currentItem p))
                    (trim (first (split (L":") rest))) p).
Proof.
  intros HI Hp Ht. apply v1_step_location; auto using startsWith_app.
  rewrite split_location. cbn [nth_error].
  generalize (@split_not_nil (L":") rest).
  destruct (split (L":") rest); [congruence|reflexivity].
Qed.

(** In the error-tolerant converter the location of the open relic becomes
    the whole text after the first colon, trimmed, colons included. *)
Theorem v2_location_line p rest :
  Inv p -> inRelics p = true -> truthy (currentItem p) = true ->
  V2.processLine p (L"**Location**:" ++ rest) =
  Some (setLocation (show (currentItem p)) (trim rest) p).
Proof.
  intros HI Hp Ht. rewrite v2_step_location; auto using startsWith_app.
  rewrite split_location. cbn [tl].
  change (L":") with [":"%char]. now rewrite join_split_char.
Qed.

Lemma Inv_relicOpen : Inv relicOpen.
Proof.
  split; [|split].
  - intros ci H. inversion H; subst ci. split; [discriminate|].
    intros _. discriminate.
  - constructor.
  - repeat constructor. intros [].
Qed.

Lemma v1_location_line_witness :
  V1.processLine relicOpen (L"**Location**:" ++ L" Lua: Apollo") =
  Some (setLocation (L"Lith A1 Relic") (L"Lua") relicOpen).
Proof.
  exact (@v1_location_line relicOpen (L" Lua: Apollo") Inv_relicOpen
           eq_refl eq_refl).
Defined.

Lemma v2_location_line_witness :
  V2.processLine relicOpen (L"**Location**:" ++ L" Lua: Apollo") =
  Some (setLocation (L"Lith A1 Relic") (L"Lua: Apollo") relicOpen).
Proof.
  exact (@v2_location_line relicOpen (L" Lua: Apollo") Inv_relicOpen
           eq_refl eq_refl).
Defined.

(** ** The guards of the error-tolerant converter *)

Lemma clean_hash_text text :
  clean (L"## " ++ text) = true -> trim text <> [].
Proof.
  intros H Ht.
  destruct (trim_exists text) as (w1 & m & w2 & E & H1 & H2 & Hm).
  destruct Hm as [->|Hm].
  - assert (Hw : all_ws (rev text) = true).
    { subst text. cbn [app]. now rewrite all_ws_rev, all_ws_app, H1, H2. }
    apply clean_ends in H. unfold ends_nonws in H.
    rewrite rev_app_distr in H. destruct (rev text) as [|c t].
    + vm_compute in H. discriminate.
    + cbn [app starts_nonws] in H. cbn [all_ws forallb] in Hw.
      apply andb_true_iff in Hw as [Hw _]. rewrite Hw in H. discriminate.
  - subst text. rewrite trim_decomp in Ht by assumption.
    now apply clean_not_nil in Hm.
Qed.

Lemma linesOf_clean content line :
  In line (linesOf content) -> line = [] \/ clean line = true.
Proof.
  unfold linesOf. intros H. apply in_map_iff in H as (x & <- & _).
  apply trim_result.
Qed.

(** [parse] hands the handlers trimmed lines only, so the text after "- "
    or "## " is never blank: the three guards of the error-tolerant
    converter against an empty prime name, an empty relic name and an empty
    reward never fire, and [parseRewardInfo] never throws. *)
Theorem v2_empty_name_guards content line :
  In line (linesOf content) ->
  (startsWith (L"- ") line = true ->
   isEmpty (trim (substring 2 line)) = false /\
   V2.parseRewardInfo line <> None) /\
  (startsWith (L"## ") line = true ->
   isEmpty (trim (substring 3 line)) = false).
Proof.
  intros Hin. apply linesOf_clean in Hin. split; intros Hs.
  - destruct Hin as [->|Hc]; [discriminate|].
    apply startsWith_spec in Hs as [text ->].
    change (substring 2 (L"- " ++ text)) with text.
    assert (He : isEmpty (trim text) = false)
      by (apply isEmpty_false; now apply clean_dash_text).
    split; [exact He|]. unfold V2.parseRewardInfo.
    change (substring 2 (L"- " ++ text)) with text. rewrite He. discriminate.
  - destruct Hin as [->|Hc]; [discriminate|].
    apply startsWith_spec in Hs as [text ->].
    change (substring 3 (L"## " ++ text)) with text.
    apply isEmpty_false. now apply clean_hash_text.
Qed.

Lemma v2_empty_name_guards_witness :
  (startsWith (L"- ") (L"- x") = true ->
   isEmpty (trim (substring 2 (L"- x"))) = false /\
   V2.parseRewardInfo (L"- x") <> None) /\
  (startsWith (L"## ") (L"- x") = true ->
   isEmpty (trim (substring 3 (L"- x"))) = false).
Proof.
  apply (@v2_empty_name_guards (L"  - x  " ++ NL ++ L"## y")).
  vm_compute. left. reflexivity.
Defined.

(** ** The two buckets *)

Definition placed (isW : Prime -> bool) (frame : bool) (kv : str * Prime)
  : bool :=
  Bool.eqb (isW (snd kv)) frame && negb (str_eqb (fst kv) (L"__proto__")).

Lemma setProperty_new (V : Type) k (v : V) o :
  lookup k o = None ->
  setProperty k v o =
  if str_eqb k (L"__proto__") then o else o ++ [(k, v)].
Proof.
  intros H. unfold setProperty. destruct (str_eqb k (L"__proto__")); auto.
  now apply keys_assign_new.
Qed.

Lemma lookup_app_None (V : Type) k (a b : dict V) :
  lookup k a = None -> lookup k b = None -> lookup k (a ++ b) = None.
Proof.
  intros Ha Hb. apply lookup_None. apply lookup_None in Ha, Hb.
  unfold keys in *. rewrite map_app, in_app_iff. tauto.
Qed.

Lemma buckets_filter isW l acc :
  NoDup (keys l) ->
  (forall k, In k (keys l) ->
     lookup k (warframes acc) = None /\ lookup k (weapons acc) = None) ->
  fold_left (bucketStep isW) l acc =
  mkSeparated (warframes acc ++ filter (placed isW true) l)
              (weapons acc ++ filter (placed isW false) l).
Proof.
  revert acc. induction l as [|[k v] l IH]; intros acc Hnd Hacc.
  - cbn. rewrite !app_nil_r. now destruct acc.
  - cbn [keys map fst] in Hnd. inversion Hnd as [|? ? Hk Hnd']; subst.
    destruct (Hacc k (or_introl eq_refl)) as [Hw Hv].
    cbn [fold_left]. rewrite IH; [|exact Hnd'|].
    + unfold bucketStep, placed. cbn [fst snd filter warframes weapons].
      destruct (isW v); cbn [Bool.eqb andb warframes weapons];
        rewrite setProperty_new by assumption;
        destruct (str_eqb k (L"__proto__")); cbn [negb];
        rewrite <- ?app_assoc; reflexivity.
    + intros k' Hk'.
      assert (Hne : k' <> k) by (intros ->; contradiction).
      destruct (Hacc k' (or_intror Hk')) as [Hw' Hv'].
      unfold bucketStep. cbn [fst snd].
      destruct (isW v); cbn [warframes weapons];
        rewrite lookup_setProperty_ne by assumption; auto.
Qed.

(** [separateWarframesWeapons] splits the primes into the two buckets and
    keeps their order: "warframes" holds, in order, the primes one of whose
    parts makes them a warframe ("Systems" in the name in
    htmlConverter/htmlConverter.js; "Systems", "Chassis" or "Neuroptics" in
    the error-tolerant converter) and "weapons" the others -- except a
    prime named "__proto__", which lands in neither bucket. *)
Theorem separate_buckets primes :
  NoDup (keys primes) ->
  V1.separateWarframesWeapons primes =
    mkSeparated (filter (placed V1.isWarframe true) primes)
                (filter (placed V1.isWarframe false) primes) /\
  V2.separateWarframesWeapons primes =
    mkSeparated (filter (placed V2.isWarframe true) primes)
                (filter (placed V2.isWarframe false) primes).
Proof.
  intros Hnd.
  split; [rewrite v1_separate_fold|rewrite v2_separate_fold];
    rewrite buckets_filter; auto.
Qed.

Definition protoPrimes : dict Prime :=
  [(L"Volt Prime",
    mkPrime (L"Volt Prime")
            [mkPart (L"Volt Prime Chassis") (L"Common")
                    (Some (L"Axi B2 Relic"))]);
   (L"__proto__", mkPrime (L"__proto__") []);
   (L"Braton Prime",
    mkPrime (L"Braton Prime")
            [mkPart (L"Braton Prime Stock") (L"Rare")
                    (Some (L"Lith A1 Relic"))])].

Lemma separate_buckets_witness :
  V1.separateWarframesWeapons protoPrimes =
    mkSeparated (filter (placed V1.isWarframe true) protoPrimes)
                (filter (placed V1.isWarframe false) protoPrimes) /\
  V2.separateWarframesWeapons protoPrimes =
    mkSeparated (filter (placed V2.isWarframe true) protoPrimes)
                (filter (placed V2.isWarframe false) protoPrimes).
Proof.
  apply separate_buckets. repeat constructor; cbv; intuition discriminate.
Defined.

(** ** Escaped text *)

Definition special (c : ascii) : bool :=
  ch_eqb c "&"%char || ch_eqb c "<"%char || ch_eqb c ">"%char
  || ch_eqb c dq || ch_eqb c "'"%char.

Lemma escapeChar_plain c : special c = false -> escapeChar c = [c].
Proof.
  unfold special, escapeChar. intros H.
  repeat (apply orb_false_iff in H as [H ?]).
  now repeat match goal with E : ch_eqb _ _ = false |- _ => rewrite E; clear E
             end.
Qed.

(** [utils.escapeHtml] works character by character, so it distributes
    over concatenation; its result holds no angle bracket and no quote of
    either kind; and a text with none of the five characters it replaces
    comes back unchanged. *)
Theorem escapeHtml_text a b :
  V2.escapeHtml (a ++ b) = V2.escapeHtml a ++ V2.escapeHtml b /\
  (forall c, In c (V2.escapeHtml a) ->
     c <> "<"%char /\ c <> ">"%char /\ c <> dq /\ c <> "'"%char) /\
  (forallb (fun c => negb (special c)) a = true -> V2.escapeHtml a = a).
Proof.
  split; [|split].
  - rewrite !escapeHtml_flat_map. apply flat_map_app.
  - intros c. apply escapeHtml_safe.
  - rewrite escapeHtml_flat_map. induction a as [|c a IH]; [reflexivity|].
    cbn [forallb flat_map]. intros H. apply andb_true_iff in H as [Hc Ha].
    apply negb_true_iff in Hc. rewrite (escapeChar_plain _ Hc), IH; auto.
Qed.

(** Escaping loses nothing: two texts with the same escaped form are the
    same text. *)
Theorem escapeHtml_injective a b :
  V2.escapeHtml a = V2.escapeHtml b -> a = b.
Proof.
  rewrite !escapeHtml_flat_map. revert b.
  induction a as [|x a IH]; intros [|y b] H; cbn [flat_map] in H.
  - reflexivity.
  - exfalso. revert H. unfold escapeChar.
    repeat match goal with
           | |- context [ch_eqb ?c ?d] => destruct (ch_eqb c d)
           end; discriminate.
  - exfalso. revert H. unfold escapeChar.
    repeat match goal with
           | |- context [ch_eqb ?c ?d] => destruct (ch_eqb c d)
           end; discriminate.
  - assert (Hxy : x = y /\ flat_map escapeChar a = flat_map escapeChar b).
    { revert H. unfold escapeChar.
      destruct (ch_eqb x "&"%char) eqn:X1;
        [|destruct (ch_eqb x "<"%char) eqn:X2;
          [|destruct (ch_eqb x ">"%char) eqn:X3;
            [|destruct (ch_eqb x dq) eqn:X4;
              [|destruct (ch_eqb x "'"%char) eqn:X5]]]];
      (destruct (ch_eqb y "&"%char) eqn:Y1;
        [|destruct (ch_eqb y "<"%char) eqn:Y2;
          [|destruct (ch_eqb y ">"%char) eqn:Y3;
            [|destruct (ch_eqb y dq) eqn:Y4;
              [|destruct (ch_eqb y "'"%char) eqn:Y5]]]]);
      repeat match goal with
             | E : ch_eqb _ _ = true |- _ => apply ch_eqb_eq in E; subst
             end;
      cbn; intros H; inversion H; subst; try (split; congruence);
      repeat match goal with
             | E : ch_eqb ?c ?c = false |- _ =>
                 rewrite ch_eqb_refl in E; discriminate
             end. }
    destruct Hxy as [-> Hab]. f_equal. now apply IH.
Qed.

Lemma escapeHtml_injective_witness : L"<b>" = L"<b>".
Proof.
  apply escapeHtml_injective. reflexivity.
Defined.

(** ** Grouping the parts of a prime *)

Definition groupKeyOf (g : Group) : str :=
  groupPart g ++ L"|" ++ groupRarity g.

Lemma firstSeen_fresh seen l x :
  In x (firstSeen seen l) -> existsb (str_eqb x) seen = false.
Proof.
  revert seen. induction l as [|y l IH]; intros seen H; [destruct H|].
  cbn [firstSeen] in H. destruct (existsb (str_eqb y) seen) eqn:E; auto.
  destruct H as [<-|H]; [exact E|].
  apply IH in H. cbn [existsb] in H. now apply orb_false_iff in H as [_ H].
Qed.

Lemma NoDup_firstSeen seen l : NoDup (firstSeen seen l).
Proof.
  revert seen. induction l as [|y l IH]; intros seen; cbn [firstSeen].
  - constructor.
  - destruct (existsb (str_eqb y) seen); auto. constructor; auto.
    intros H. apply firstSeen_fresh in H. cbn [existsb] in H.
    now rewrite str_eqb_refl in H.
Qed.

Lemma lookup_of_In (V : Type) k (v : V) o :
  NoDup (keys o) -> In (k, v) o -> lookup k o = Some v.
Proof.
  induction o as [|[k' v'] o IH]; intros Hnd Hin; [destruct Hin|].
  cbn [keys map fst] in Hnd. inversion Hnd as [|? ? Hk Hnd']; subst.
  cbn [lookup]. destruct Hin as [Hin|Hin].
  - inversion Hin; subst. now rewrite str_eqb_refl.
  - destruct (str_eqb k k') eqn:E; [|auto].
    apply str_eqb_eq in E. subst k'. exfalso. apply Hk.
    apply (in_map fst) in Hin. exact Hin.
Qed.

Lemma firstSeen_snoc l x :
  firstSeen [] (l ++ [x]) =
  firstSeen [] l ++
  (if existsb (str_eqb x) (firstSeen [] l) then [] else [x]).
Proof.
  rewrite firstSeen_app. cbn [app firstSeen].
  destruct (existsb _ _); reflexivity.
Qed.

(** The groups after the parts [l0] have been visited: one entry per key,
    in the order the keys were first met, each with the relics of the
    parts that have its key. *)
Definition Grouping (key : PartInfo -> str)
           (collect : PartInfo -> list (option str))
           (l0 : list PartInfo) (g : dict Group) : Prop :=
  keys g = firstSeen [] (map key l0) /\
  (forall k grp, lookup k g = Some grp ->
     groupKeyOf grp = k /\
     relicsOf grp =
     flat_map collect (filter (fun x => str_eqb (key x) k) l0)) /\
  (forall k, lookup k g = None ->
     filter (fun x => str_eqb (key x) k) l0 = []).

Lemma Grouping_nil key collect : Grouping key collect [] [].
Proof. split; [reflexivity|]. split; [discriminate|reflexivity]. Qed.

(** One turn of the [forEach] of [groupParts], with the relics a part
    contributes left open. *)
Definition addWith (collect : PartInfo -> list (option str))
           (grouped : dict Group) (x : PartInfo) : dict Group :=
  let key := V1.groupKey x in
  let grouped1 :=
    match lookup key grouped with
    | None => assign key (mkGroup (part x) (rarity x) []) grouped
    | Some _ => grouped
    end in
  update key
         (fun g => mkGroup (groupPart g) (groupRarity g)
                           (relicsOf g ++ collect x))
         grouped1.

Lemma Grouping_step collect l0 g x :
  Grouping V1.groupKey collect l0 g ->
  Grouping V1.groupKey collect (l0 ++ [x]) (addWith collect g x).
Proof.
  intros (Hk & Hl & Hn). unfold addWith. cbv zeta.
  set (key := V1.groupKey x).
  set (g1 := match lookup key g with
             | Some _ => g
             | None => assign key (mkGroup (part x) (rarity x) []) g
             end).
  set (f := fun g0 : Group =>
              mkGroup (groupPart g0) (groupRarity g0)
                      (relicsOf g0 ++ collect x)).
  assert (Hg1 : forall k, k <> key -> lookup k g1 = lookup k g).
  { intros k Hne. unfold g1. destruct (lookup key g); auto.
    now apply lookup_assign_ne. }
  split; [|split].
  - rewrite keys_update, map_app. cbn [map].
    rewrite firstSeen_snoc, <- Hk.
    fold key. unfold g1. destruct (lookup key g) as [old|] eqn:El.
    + replace (existsb (str_eqb key) (keys g)) with true;
        [now rewrite app_nil_r|].
      symmetry. apply existsb_keys. congruence.
    + replace (existsb (str_eqb key) (keys g)) with false.
      * rewrite keys_assign_new by assumption. unfold keys.
        now rewrite map_app.
      * symmetry. apply not_true_is_false. rewrite existsb_keys. tauto.
  - intros k grp Hgrp. rewrite filter_app, flat_map_app. cbn [filter].
    fold key. destruct (str_eqb key k) eqn:E.
    + apply str_eqb_eq in E. subst k. rewrite lookup_update_eq in Hgrp.
      unfold g1 in Hgrp. destruct (lookup key g) as [old|] eqn:El.
      * rewrite El in Hgrp. inversion Hgrp; subst grp; clear Hgrp.
        destruct (Hl _ _ El) as [H1 H2]. split; [exact H1|].
        unfold f. cbn [relicsOf flat_map]. now rewrite H2, app_nil_r.
      * rewrite lookup_assign_eq in Hgrp. inversion Hgrp; subst grp.
        split; [reflexivity|]. unfold f. cbn [relicsOf flat_map app].
        now rewrite (Hn _ El), app_nil_r.
    + apply str_eqb_neq in E.
      assert (Hne : k <> key) by congruence.
      rewrite lookup_update_ne in Hgrp by assumption.
      rewrite Hg1 in Hgrp by assumption.
      destruct (Hl _ _ Hgrp) as [H1 H2]. split; [exact H1|].
      cbn [flat_map]. now rewrite app_nil_r.
  - intros k Hnone. rewrite filter_app. cbn [filter]. fold key.
    destruct (str_eqb key k) eqn:E.
    + apply str_eqb_eq in E. subst k. rewrite lookup_update_eq in Hnone.
      unfold g1 in Hnone. destruct (lookup key g) as [old|] eqn:El.
      * rewrite El in Hnone. discriminate.
      * rewrite lookup_assign_eq in Hnone. discriminate.
    + apply str_eqb_neq in E.
      assert (Hne : k <> key) by congruence.
      rewrite lookup_update_ne in Hnone by assumption.
      rewrite Hg1 in Hnone by assumption.
      now rewrite (Hn _ Hnone).
Qed.

Lemma v1_Grouping_fold l l0 g :
  Grouping V1.groupKey (fun x => [relic x]) l0 g ->
  Grouping V1.groupKey (fun x => [relic x]) (l0 ++ l)
           (fold_left V1.addToGroup l g).
Proof.
  revert l0 g. induction l as [|x l IH]; intros l0 g H; cbn [fold_left].
  - now rewrite app_nil_r.
  - replace (l0 ++ x :: l) with ((l0 ++ [x]) ++ l)
      by (now rewrite <- app_assoc).
    apply IH. now apply (@Grouping_step (fun x => [relic x])).
Qed.

Lemma flat_map_singleton (A B : Type) (f : A -> B) l :
  flat_map (fun x => [f x]) l = map f l.
Proof. induction l as [|x l IH]; [reflexivity|]. cbn. now rewrite IH. Qed.

(** [utils.groupParts] of htmlConverter/htmlConverter.js returns one group
    per distinct key "part|rarity", in the order in which the keys first
    occur among the parts; the relics of a group are the relics of all the
    parts with its key, in order, without repetition, as [sortRelics]
    arranges them. *)
Theorem v1_groupParts_groups
        (sortRelics : list (option str) -> list (option str)) l :
  map groupKeyOf (V1.groupParts sortRelics l) =
    firstSeen [] (map V1.groupKey l) /\
  forall g, In g (V1.groupParts sortRelics l) ->
    relicsOf g =
    sortRelics
      (dedupe (map relic
                   (filter (fun x => str_eqb (V1.groupKey x) (groupKeyOf g))
                           l))).
Proof.
  destruct (@v1_Grouping_fold l [] [] (Grouping_nil _ _)) as (Hk & Hl & _).
  cbn [app] in *. unfold V1.groupParts.
  set (d := fold_left V1.addToGroup l []) in *.
  assert (Hnd : NoDup (keys d)) by (rewrite Hk; apply NoDup_firstSeen).
  assert (Hin : forall kv, In kv d ->
            groupKeyOf (snd kv) = fst kv /\
            relicsOf (snd kv) =
            map relic (filter (fun x => str_eqb (V1.groupKey x) (fst kv)) l)).
  { intros [k grp] H. apply (@lookup_of_In _ k grp d Hnd) in H.
    destruct (Hl _ _ H) as [H1 H2]. split; [exact H1|].
    cbn [fst snd]. now rewrite H2, flat_map_singleton. }
  split.
  - rewrite <- Hk. unfold keys. rewrite map_map. apply map_ext_in.
    intros kv H. apply (Hin kv H).
  - intros g Hg. apply in_map_iff in Hg as (kv & <- & H).
    destruct (Hin kv H) as [H1 H2]. cbn [relicsOf]. rewrite H2.
    unfold groupKeyOf at 1. cbn [groupPart groupRarity].
    fold (groupKeyOf (snd kv)). now rewrite H1.
Qed.

(** The parts [groupParts] of the error-tolerant converter looks at, and
    the relics it keeps. *)
Definition named (x : PartInfo) : bool := negb (isEmpty (part x)).

Definition keptRelic (x : PartInfo) : list (option str) :=
  if truthy (relic x) then [relic x] else [].

Lemma update_same (V : Type) k (f : V -> V) o :
  (forall v, f v = v) -> update k f o = o.
Proof.
  intros H. induction o as [|[k' v] o IH]; [reflexivity|].
  cbn [update]. destruct (str_eqb k k'); [now rewrite H|now rewrite IH].
Qed.

Lemma v2_addToGroup_addWith g x :
  V2.addToGroup g x = if named x then addWith keptRelic g x else g.
Proof.
  unfold V2.addToGroup, named, addWith, keptRelic.
  destruct (isEmpty (part x)); cbn [negb]; [reflexivity|]. cbv zeta.
  destruct (truthy (relic x)); [reflexivity|].
  symmetry. apply update_same. intros [pt rr rs]. cbn.
  now rewrite app_nil_r.
Qed.

Lemma v2_Grouping_fold l l0 g :
  Grouping V1.groupKey keptRelic (filter named l0) g ->
  Grouping V1.groupKey keptRelic (filter named (l0 ++ l))
           (fold_left V2.addToGroup l g).
Proof.
  revert l0 g. induction l as [|x l IH]; intros l0 g H; cbn [fold_left].
  - now rewrite app_nil_r.
  - replace (l0 ++ x :: l) with ((l0 ++ [x]) ++ l)
      by (now rewrite <- app_assoc).
    apply IH. rewrite v2_addToGroup_addWith, filter_app. cbn [filter].
    destruct (named x); [now apply Grouping_step|now rewrite app_nil_r].
Qed.

Lemma filter_keptRelic l :
  filter truthy (flat_map keptRelic l) = flat_map keptRelic l.
Proof.
  induction l as [|x l IH]; [reflexivity|]. cbn [flat_map].
  rewrite filter_app, IH. f_equal. unfold keptRelic.
  destruct (truthy (relic x)) eqn:E; cbn [filter]; [now rewrite E|reflexivity].
Qed.

Lemma flat_map_keptRelic l :
  flat_map keptRelic l = filter truthy (map relic l).
Proof.
  induction l as [|x l IH]; [reflexivity|]. cbn [flat_map map filter].
  rewrite IH. unfold keptRelic. destruct (truthy (relic x)); reflexivity.
Qed.

(** [utils.groupParts] of the error-tolerant converter does the same with
    the parts that have a name, and keeps of their relics those that are
    neither missing nor empty. *)
Theorem v2_groupParts_groups
        (sortRelics : list (option str) -> list (option str)) l :
  map groupKeyOf (V2.groupParts sortRelics l) =
    firstSeen [] (map V2.groupKey (filter named l)) /\
  forall g, In g (V2.groupParts sortRelics l) ->
    relicsOf g =
    sortRelics
      (dedupe
         (filter truthy
            (map relic
               (filter (fun x => str_eqb (V2.groupKey x) (groupKeyOf g))
                       (filter named l))))).
Proof.
  change V2.groupKey with V1.groupKey.
  destruct (@v2_Grouping_fold l [] [] (Grouping_nil _ _)) as (Hk & Hl & _).
  cbn [app] in *. unfold V2.groupParts.
  set (d := fold_left V2.addToGroup l []) in *.
  assert (Hnd : NoDup (keys d)) by (rewrite Hk; apply NoDup_firstSeen).
  assert (Hin : forall kv, In kv d ->
            groupKeyOf (snd kv) = fst kv /\
            relicsOf (snd kv) =
            flat_map keptRelic
              (filter (fun x => str_eqb (V1.groupKey x) (fst kv))
                      (filter named l))).
  { intros [k grp] H. apply (@lookup_of_In _ k grp d Hnd) in H.
    apply (Hl _ _ H). }
  split.
  - rewrite <- Hk. unfold keys. rewrite map_map. apply map_ext_in.
    intros kv H. apply (Hin kv H).
  - intros g Hg. apply in_map_iff in Hg as (kv & <- & H).
    destruct (Hin kv H) as [H1 H2]. cbn [relicsOf]. rewrite H2.
    unfold groupKeyOf at 1. cbn [groupPart groupRarity].
    fold (groupKeyOf (snd kv)).
    now rewrite H1, filter_keptRelic, flat_map_keptRelic.
Qed.

(** ** The set of expanded items *)

(** [state.expandedItems.delete(name)] and [state.expandedItems.add(name)]
    on the members of the set in insertion order. *)
Definition setDelete (name : str) (expandedItems : list str) : list str :=
  filter (fun x => negb (str_eqb x name)) expandedItems.

Definition setAdd (name : str) (expandedItems : list str) : list str :=
  if has name expandedItems then expandedItems else expandedItems ++ [name].

(** [controller.toggleItem(name)], the same in both converters. *)
Definition toggleItem (name : str) (expandedItems : list str) : list str :=
  if has name expandedItems then setDelete name expandedItems
  else setAdd name expandedItems.

Lemma str_eqb_sym a b : str_eqb a b = str_eqb b a.
Proof.
  destruct (str_eqb a b) eqn:E.
  - apply str_eqb_eq in E. subst b. now rewrite str_eqb_refl.
  - destruct (str_eqb b a) eqn:E'; [|reflexivity].
    apply str_eqb_eq in E'. subst b. now rewrite str_eqb_refl in E.
Qed.

Lemma has_setDelete n name s :
  has n (setDelete name s) = has n s && negb (str_eqb n name).
Proof.
  unfold has, setDelete. induction s as [|x s IH]; [reflexivity|].
  cbn [filter existsb]. destruct (str_eqb x name) eqn:E; cbn [negb existsb].
  - rewrite IH. apply str_eqb_eq in E. subst x.
    destruct (str_eqb n name); cbn [orb negb]; [|reflexivity].
    now rewrite andb_false_r.
  - rewrite IH. destruct (str_eqb n x) eqn:E'; cbn [orb]; [|reflexivity].
    apply str_eqb_eq in E'. subst x. now rewrite E.
Qed.

Lemma has_setAdd n name s :
  has n (setAdd name s) = has n s || str_eqb n name.
Proof.
  unfold setAdd. destruct (has name s) eqn:E.
  - destruct (str_eqb n name) eqn:E'; [|now rewrite orb_false_r].
    apply str_eqb_eq in E'. subst n. now rewrite E.
  - unfold has. rewrite existsb_app. cbn [existsb]. now rewrite orb_false_r.
Qed.

(** [toggleItem] flips the state of the item it names and of no other:
    the item is expanded afterwards exactly when it was not before, and
    every other item stays as it was; toggling twice restores every item. *)
Theorem toggleItem_flips name expandedItems n :
  has n (toggleItem name expandedItems) =
    (if str_eqb n name then negb (has n expandedItems)
     else has n expandedItems) /\
  has n (toggleItem name (toggleItem name expandedItems)) =
    has n expandedItems.
Proof.
  assert (H : forall s,
            has n (toggleItem name s) =
            if str_eqb n name then negb (has n s) else has n s).
  { intros s. unfold toggleItem. destruct (has name s) eqn:E.
    - rewrite has_setDelete. destruct (str_eqb n name) eqn:E'; cbn [negb].
      + apply str_eqb_eq in E'. subst n. now rewrite E.
      + now rewrite andb_true_r.
    - rewrite has_setAdd. destruct (str_eqb n name) eqn:E'.
      + apply str_eqb_eq in E'. subst n. now rewrite E.
      + now rewrite orb_false_r. }
  split; [apply H|]. rewrite !H.
  destruct (str_eqb n name); [apply negb_involutive|reflexivity].
Qed.

(** ** The scraped tables *)

(** A row that follows the heading of a subtable: whether it holds a [th],
    and the text of its first [td] if it has one. *)
Record TableRow := mkRow { hasTh : bool; firstTd : option str }.

(** The row loop of [findSubTableData] over the rows between the heading
    and the blank row. *)
Definition subTableRows (rows : list TableRow) : list str :=
  flat_map
    (fun r =>
       match firstTd r with
       | Some text =>
           if negb (hasTh r) && includes (L"Relic") text then [trim text]
           else []
       | None => []
       end)
    rows.

Lemma includes_trimStart t s :
  starts_nonws t = true -> includes t s = true ->
  includes t (trimStart s) = true.
Proof.
  intros Ht. induction s as [|c s IH]; intros H; [exact H|].
  cbn [trimStart]. destruct (is_ws c) eqn:E; [|exact H].
  apply IH. cbn [includes] in H. apply orb_true_iff in H as [H|H]; [|exact H].
  destruct t as [|x t]; [discriminate|]. cbn [startsWith] in H.
  apply andb_true_iff in H as [H _]. apply ch_eqb_eq in H. subst x.
  cbn [starts_nonws] in Ht. rewrite E in Ht. discriminate.
Qed.

Lemma includes_rev t s :
  includes t s = true -> includes (rev t) (rev s) = true.
Proof.
  rewrite !includes_spec. intros (a & b & ->).
  exists (rev b), (rev a). now rewrite !rev_app_distr, app_assoc.
Qed.

Lemma includes_trim t s :
  clean t = true -> includes t s = true -> includes t (trim s) = true.
Proof.
  intros Hc H. apply andb_true_iff in Hc as [Hs He].
  unfold trim, trimEnd. rewrite <- (rev_involutive t).
  apply includes_rev, includes_trimStart; [exact He|].
  apply includes_rev. now apply includes_trimStart.
Qed.

(** Every name [findSubTableData] returns contains "Relic" and is a
    non-empty text with no white space at either end. *)
Theorem subTableRows_names rows n :
  In n (subTableRows rows) ->
  includes (L"Relic") n = true /\ clean n = true.
Proof.
  unfold subTableRows. intros H. apply in_flat_map in H as (r & _ & H).
  destruct (firstTd r) as [text|]; [|destruct H].
  destruct (negb (hasTh r) && includes (L"Relic") text) eqn:E; [|destruct H].
  destruct H as [<-|[]]. apply andb_true_iff in E as [_ E].
  assert (Hi : includes (L"Relic") (trim text) = true)
    by (now apply includes_trim).
  split; [exact Hi|].
  destruct (trim_result text) as [Hn|Hn]; [|exact Hn].
  rewrite Hn in Hi. discriminate.
Qed.

Lemma subTableRows_names_witness :
  includes (L"Relic") (L"Lith A1 Relic") = true /\
  clean (L"Lith A1 Relic") = true.
Proof.
  apply (@subTableRows_names
           [mkRow true None; mkRow false (Some (L"  Lith A1 Relic "));
            mkRow false (Some (L"Rotation A"))]).
  vm_compute. left. reflexivity.
Defined.

Definition knownRarities : list str :=
  [[]; L"Common"; L"Uncommon"; L"Rare"].

Definition hasCells (cells : list str) : bool :=
  match cells with
  | [] => false
  | _ => true
  end.

(** The row loop of [findRelicTableData] raises exactly when some row has
    a single cell.  Otherwise it returns one entry per row that has cells,
    in order: the item is the trimmed text of the first cell, the rarity is
    what the classifier makes of the trimmed second cell, one of "",
    "Common", "Uncommon" and "Rare", and there is no source yet. *)
Theorem relicRows_result rows :
  (Main.relicRows rows = None <->
   exists cells, In cells rows /\ length cells = 1) /\
  forall out, Main.relicRows rows = Some out ->
    out =
    map (fun cells =>
           Main.mkEntry (trim (nth 0 cells []))
                        (Main.classifyRarity (trim (nth 1 cells []))) None)
        (filter hasCells rows) /\
    Forall (fun e => In (Main.rarity e) knownRarities) out.
Proof.
  split.
  - induction rows as [|cells rest IH]; cbn [Main.relicRows].
    + split; [discriminate|]. intros (c & [] & _).
    + destruct cells as [|c0 [|c1 cs]].
      * rewrite IH. split; intros (c & Hc & Hl); exists c.
        -- split; [now right|exact Hl].
        -- destruct Hc as [<-|Hc]; [discriminate|]. now split.
      * split; [intros _|reflexivity]. exists [c0]. split; [now left|auto].
      * destruct (Main.relicRows rest) as [out|].
        -- split; [discriminate|]. intros (c & [<-|Hc] & Hl);
             [discriminate|].
           destruct IH as [_ IH]. exfalso.
           assert (Hx : Some out = None) by (apply IH; now exists c).
           discriminate.
        -- split; [intros _|reflexivity]. destruct IH as [IH _].
           destruct (IH eq_refl) as (c & Hc & Hl). exists c.
           split; [now right|exact Hl].
  - induction rows as [|cells rest IH]; intros out H;
      cbn [Main.relicRows] in H.
    + inversion H. split; [reflexivity|constructor].
    + destruct cells as [|c0 [|c1 cs]]; [now apply IH|discriminate|].
      destruct (Main.relicRows rest) as [out'|]; [|discriminate].
      inversion H; subst out; clear H.
      destruct (IH out' eq_refl) as [E F]. cbn [filter hasCells map nth].
      split; [now rewrite <- E|]. constructor; [|exact F].
      cbn [Main.rarity]. unfold Main.classifyRarity, knownRarities.
      destruct (includes _ _); [cbn; tauto|].
      destruct (includes _ _); [cbn; tauto|].
      destruct (includes _ _); cbn; tauto.
Qed.

(** ** The list of reward names *)

Section CleanAndOrder.

(** [a.localeCompare(b)], whose order belongs to the engine's locale
    data. *)
Variable localeCompare : str -> str -> Z.

Definition tierNames : list str := [L"Lith"; L"Meso"; L"Neo"; L"Axi"].

(** The comparator of [cleanAndOrderRelics]. *)
Definition byTier (a b : str) : Z :=
  let typeA := first (split (L" ") a) in
  let typeB := first (split (L" ") b) in
  if str_eqb typeA typeB then localeCompare a b
  else (indexOf typeA tierNames - indexOf typeB tierNames)%Z.

(** [cleanAndOrderRelics]: the item names of all rows go into a [Set],
    whose members are then sorted. *)
Definition cleanAndOrderRelics (relicsData : dict (list Main.RewardEntry))
  : list str :=
  sort byTier
       (firstSeen [] (flat_map (fun kv => map Main.item (snd kv)) relicsData)).

End CleanAndOrder.

Lemma existsb_str_In x l : existsb (str_eqb x) l = true <-> In x l.
Proof.
  rewrite existsb_exists. split.
  - intros (y & Hy & E). apply str_eqb_eq in E. now subst y.
  - intros H. exists x. split; [exact H|apply str_eqb_refl].
Qed.

Lemma In_firstSeen seen l x :
  In x (firstSeen seen l) <-> In x l /\ ~ In x seen.
Proof.
  revert seen. induction l as [|y l IH]; intros seen; cbn [firstSeen].
  - cbn. tauto.
  - destruct (existsb (str_eqb y) seen) eqn:E.
    + rewrite IH. apply existsb_str_In in E. cbn [In]. split.
      * intros [H1 H2]. split; [now right|exact H2].
      * intros [[<-|H1] H2]; [contradiction|now split].
    + assert (Hy : ~ In y seen).
      { intros H. apply existsb_str_In in H. congruence. }
      cbn [In]. rewrite IH. cbn [In]. split.
      * intros [<-|[H1 H2]]; [split; [now left|exact Hy]|].
        split; [now right|]. intros H. apply H2. now right.
      * intros [[<-|H1] H2]; [now left|].
        destruct (str_eqb y x) eqn:Exy.
        -- apply str_eqb_eq in Exy. now left.
        -- apply str_eqb_neq in Exy. right. split; [exact H1|].
           intros [H|H]; [congruence|contradiction].
Qed.

(** The result of [cleanAndOrderRelics] lists every item name that occurs
    in some row of the dataset, each exactly once, whatever the comparison
    of the locale is. *)
Theorem cleanAndOrderRelics_names (localeCompare : str -> str -> Z)
        relicsData :
  NoDup (cleanAndOrderRelics localeCompare relicsData) /\
  forall n,
    In n (cleanAndOrderRelics localeCompare relicsData) <->
    exists relic rows e,
      In (relic, rows) relicsData /\ In e rows /\ Main.item e = n.
Proof.
  unfold cleanAndOrderRelics.
  set (names := flat_map (fun kv => map Main.item (snd kv)) relicsData).
  pose proof (sort_perm (byTier localeCompare) (firstSeen [] names)) as HP.
  split.
  - apply (Permutation_NoDup HP). apply NoDup_firstSeen.
  - intros n. split.
    + intros H. apply (Permutation_in _ (Permutation_sym HP)) in H.
      apply In_firstSeen in H as [H _]. unfold names in H.
      apply in_flat_map in H as ([relic rows] & Hrel & H).
      apply in_map_iff in H as (e & He & Hin). eauto 6.
    + intros (relic & rows & e & Hrel & He & <-).
      apply (Permutation_in _ HP). apply In_firstSeen. split; [|intros []].
      unfold names. apply in_flat_map. exists (relic, rows).
      split; [exact Hrel|]. now apply in_map.
Qed.

(** ** Searching *)

Inductive category := Warframes | Weapons.

(** [items[category]] for the two categories the page asks for. *)
Definition bucketOf (items : Separated) (c : category) : dict Prime :=
  match c with
  | Warframes => warframes items
  | Weapons => weapons items
  end.

Section Search.

(** [s.toLowerCase()], which belongs to the engine's Unicode tables. *)
Variable toLowerCase : str -> str.

Hypothesis toLowerCase_empty : toLowerCase [] = [].

(** The search of htmlConverter/htmlConverter.js. *)
Definition v1_partMatches (term : str) (p : PartInfo) : bool :=
  includes term (toLowerCase (part p))
  || (truthy (relic p) && includes term (toLowerCase (show (relic p)))).

Definition v1_filterByCategory (items : Separated) (term : str)
           (c : category) : dict Prime :=
  let term := toLowerCase term in
  filter (fun kv =>
            includes term (toLowerCase (fst kv))
            || existsb (v1_partMatches term) (parts (snd kv)))
         (bucketOf items c).

(** [filterItems] is called with the relics, which have no [parts]:
    [info.parts || info.rewards] is their rewards. *)
Definition v1_filterItems (items : dict Relic) (term : str) : dict Relic :=
  let term := toLowerCase term in
  filter (fun kv =>
            includes term (toLowerCase (fst kv))
            || existsb (v1_partMatches term) (rewards (snd kv)))
         items.

(** The search of the error-tolerant converter. *)
Definition v2_partMatches (term : str) (p : PartInfo) : bool :=
  (negb (isEmpty (part p)) && includes term (toLowerCase (part p)))
  || (truthy (relic p) && includes term (toLowerCase (show (relic p)))).

Definition v2_filterByCategory (items : Separated) (term : str)
           (c : category) : dict Prime :=
  if isEmpty term then bucketOf items c
  else
    let term := toLowerCase term in
    filter (fun kv =>
              includes term (toLowerCase (fst kv))
              || existsb (v2_partMatches term) (parts (snd kv)))
           (bucketOf items c).

Definition v2_filterItems (items : dict Relic) (term : str) : dict Relic :=
  if isEmpty term then items
  else
    let term := toLowerCase term in
    filter (fun kv =>
              includes term (toLowerCase (fst kv))
              || existsb (v2_partMatches term) (rewards (snd kv)))
           items.

Lemma includes_trans a b s :
  includes a b = true -> includes b s = true -> includes a s = true.
Proof.
  rewrite !includes_spec. intros (x & y & ->) (u & v & ->).
  exists (u ++ x), (y ++ v). now rewrite <- !app_assoc.
Qed.

Lemma includes_nil_l s : includes [] s = true.
Proof. destruct s; reflexivity. Qed.

Lemma includes_nil_r t : includes t [] = true -> t = [].
Proof. destruct t; [reflexivity|discriminate]. Qed.

Lemma existsb_impl (A : Type) (f g : A -> bool) l :
  (forall x, f x = true -> g x = true) ->
  existsb f l = true -> existsb g l = true.
Proof.
  intros H. rewrite !existsb_exists. intros (x & Hx & Hf). eauto.
Qed.

Lemma v1_partMatches_narrow t1 t2 p :
  includes t1 t2 = true ->
  v1_partMatches t2 p = true -> v1_partMatches t1 p = true.
Proof.
  intros Ht. unfold v1_partMatches. rewrite !orb_true_iff, !andb_true_iff.
  intros [H|[H1 H2]]; [left|right; split; auto];
    eapply includes_trans; eauto.
Qed.

Lemma v2_partMatches_narrow t1 t2 p :
  includes t1 t2 = true ->
  v2_partMatches t2 p = true -> v2_partMatches t1 p = true.
Proof.
  intros Ht. unfold v2_partMatches. rewrite !orb_true_iff, !andb_true_iff.
  intros [[H0 H]|[H1 H2]]; [left|right]; (split; [assumption|]);
    eapply includes_trans; eauto.
Qed.

Lemma filter_narrow (V : Type) (list_of : V -> list PartInfo)
      (m : str -> PartInfo -> bool) t1 t2 (l : dict V) kv :
  includes t1 t2 = true ->
  (forall p, m t2 p = true -> m t1 p = true) ->
  In kv (filter (fun kv => includes t2 (toLowerCase (fst kv))
                           || existsb (m t2) (list_of (snd kv))) l) ->
  In kv (filter (fun kv => includes t1 (toLowerCase (fst kv))
                           || existsb (m t1) (list_of (snd kv))) l).
Proof.
  intros Ht Hm. rewrite !filter_In, !orb_true_iff. intros [Hin [H|H]].
  - split; [exact Hin|]. left. eapply includes_trans; eauto.
  - split; [exact Hin|]. right. eapply existsb_impl; eauto.
Qed.

Lemma filter_all (V : Type) (list_of : V -> list PartInfo)
      (m : str -> PartInfo -> bool) (l : dict V) kv :
  In kv l ->
  In kv (filter (fun kv => includes [] (toLowerCase (fst kv))
                           || existsb (m []) (list_of (snd kv))) l).
Proof.
  intros H. apply filter_In. split; [exact H|].
  now rewrite includes_nil_l.
Qed.

(** Searching for more finds no more: when the lower-cased term [t1]
    occurs inside the lower-cased term [t2], every entry either search
    function returns for [t2] it also returns for [t1], in both
    converters. *)
Theorem search_narrows t1 t2 :
  includes (toLowerCase t1) (toLowerCase t2) = true ->
  (forall items c kv,
     In kv (v1_filterByCategory items t2 c) ->
     In kv (v1_filterByCategory items t1 c)) /\
  (forall items kv,
     In kv (v1_filterItems items t2) -> In kv (v1_filterItems items t1)) /\
  (forall items c kv,
     In kv (v2_filterByCategory items t2 c) ->
     In kv (v2_filterByCategory items t1 c)) /\
  (forall items kv,
     In kv (v2_filterItems items t2) -> In kv (v2_filterItems items t1)).
Proof.
  intros Ht.
  assert (H1 : forall p, v1_partMatches (toLowerCase t2) p = true ->
                         v1_partMatches (toLowerCase t1) p = true)
    by (intros p; now apply v1_partMatches_narrow).
  assert (H2 : forall p, v2_partMatches (toLowerCase t2) p = true ->
                         v2_partMatches (toLowerCase t1) p = true)
    by (intros p; now apply v2_partMatches_narrow).
  assert (Hnil : t2 = [] -> toLowerCase t1 = []).
  { intros ->. rewrite toLowerCase_empty in Ht.
    now apply includes_nil_r. }
  split; [|split; [|split]].
  - intros items c kv. unfold v1_filterByCategory. cbv zeta.
    now apply filter_narrow.
  - intros items kv. unfold v1_filterItems. cbv zeta.
    now apply filter_narrow.
  - intros items c kv. unfold v2_filterByCategory.
    destruct t1 as [|x1 t1]; cbn [isEmpty].
    + destruct t2; cbn [isEmpty]; [auto|]. cbv zeta. intros H.
      now apply filter_In in H as [H _].
    + destruct t2 as [|x2 t2]; cbn [isEmpty]; cbv zeta.
      * rewrite (Hnil eq_refl). apply filter_all.
      * now apply filter_narrow.
  - intros items kv. unfold v2_filterItems.
    destruct t1 as [|x1 t1]; cbn [isEmpty].
    + destruct t2; cbn [isEmpty]; [auto|]. cbv zeta. intros H.
      now apply filter_In in H as [H _].
    + destruct t2 as [|x2 t2]; cbn [isEmpty]; cbv zeta.
      * rewrite (Hnil eq_refl). apply filter_all.
      * now apply filter_narrow.
Qed.

End Search.

(** Lower case for the letters of ASCII. *)
Definition lowerAscii (s : str) : str :=
  map (fun c =>
         let n := nat_of_ascii c in
         if (65 <=? n) && (n <=? 90) then ascii_of_nat (n + 32) else c)
      s.

Lemma search_narrows_witness :
  (forall items c kv,
     In kv (v1_filterByCategory lowerAscii items (L"Volt") c) ->
     In kv (v1_filterByCategory lowerAscii items (L"vo") c)) /\
  (forall items kv,
     In kv (v1_filterItems lowerAscii items (L"Volt")) ->
     In kv (v1_filterItems lowerAscii items (L"vo"))) /\
  (forall items c kv,
     In kv (v2_filterByCategory lowerAscii items (L"Volt") c) ->
     In kv (v2_filterByCategory lowerAscii items (L"vo") c)) /\
  (forall items kv,
     In kv (v2_filterItems lowerAscii items (L"Volt")) ->
     In kv (v2_filterItems lowerAscii items (L"vo"))).
Proof.
  apply (@search_narrows lowerAscii eq_refl (L"vo") (L"Volt")).
  reflexivity.
Defined.

(** ** The order of the relics of a part *)

(** [tierOrder] of the page script, and the value the comparator of
    [utils.sortRelics] (htmlConverter/htmlConverter.js) reads for a relic
    name: [None] when [tierOrder[a.split(' ')[0]]] is not a number
    ([undefined], or a member of [Object.prototype]). *)
Definition tierOrder : dict Z :=
  [(L"Lith", 1); (L"Meso", 2); (L"Neo", 3); (L"Axi", 4)]%Z.

Definition tierOf (a : str) : option Z :=
  lookup (first (split (L" ") a)) tierOrder.

(** The comparator: a difference that is [NaN] counts as zero. *)
Definition byTierOrder (a b : str) : Z :=
  match tierOf a, tierOf b with
  | Some x, Some y => (x - y)%Z
  | _, _ => 0%Z
  end.

Definition defined (l : list (option str)) : list str :=
  flat_map (fun r => match r with Some s => [s] | None => [] end) l.

Definition isUndefined (r : option str) : bool :=
  match r with
  | Some _ => false
  | None => true
  end.

(** [relics.sort(cmp)]: [undefined] elements go last without being
    compared.  When some name has no tier of the table the comparator is
    not consistent and the engine alone fixes the order: the model stands
    for the program on names whose tiers are all known. *)
Definition v1_sortRelics (relics : list (option str)) : list (option str) :=
  map Some (sort byTierOrder (defined relics)) ++ filter isUndefined relics.

Definition tierRank (a : str) : Z :=
  match tierOf a with
  | Some x => x
  | None => 0%Z
  end.

Lemma insert_ext_in (A : Type) (cmp cmp' : A -> A -> Z) x l :
  (forall y, In y l -> cmp x y = cmp' x y) ->
  insert cmp x l = insert cmp' x l.
Proof.
  induction l as [|y l IH]; intros H; [reflexivity|].
  cbn [insert]. rewrite (H y (or_introl eq_refl)).
  destruct (cmp' x y <=? 0)%Z; [reflexivity|].
  f_equal. apply IH. intros z Hz. apply H. now right.
Qed.

Lemma sort_ext_in (A : Type) (cmp cmp' : A -> A -> Z) l :
  (forall x y, In x l -> In y l -> cmp x y = cmp' x y) ->
  sort cmp l = sort cmp' l.
Proof.
  induction l as [|x l IH]; intros H; [reflexivity|].
  cbn [sort]. rewrite IH by (intros a b Ha Hb; apply H; now right).
  apply insert_ext_in. intros y Hy. apply H; [now left|right].
  apply (Permutation_in _ (Permutation_sym (sort_perm cmp' l)) Hy).
Qed.

Lemma tierOf_values a x :
  tierOf a = Some x -> In x [1; 2; 3; 4]%Z.
Proof.
  unfold tierOf, tierOrder. cbn [lookup].
  repeat (destruct (str_eqb _ _);
          [intros H; inversion H; cbn; tauto|]).
  discriminate.
Qed.

(** When every relic of the list is a name whose first word is one of
    "Lith", "Meso", "Neo" and "Axi", [utils.sortRelics] of
    htmlConverter/htmlConverter.js returns the Lith relics, then the Meso,
    the Neo and the Axi ones, each run in the order of the list. *)
Theorem v1_sortRelics_by_tier names :
  Forall (fun a => tierOf a <> None) names ->
  v1_sortRelics (map Some names) =
  map Some
      (filter (fun a => (tierRank a =? 1)%Z) names ++
       filter (fun a => (tierRank a =? 2)%Z) names ++
       filter (fun a => (tierRank a =? 3)%Z) names ++
       filter (fun a => (tierRank a =? 4)%Z) names).
Proof.
  intros Hk. rewrite Forall_forall in Hk. unfold v1_sortRelics.
  assert (Hd : defined (map Some names) = names).
  { unfold defined. induction names as [|a l IH]; [reflexivity|].
    cbn [map flat_map app]. f_equal. apply IH.
    intros x Hx. apply Hk. now right. }
  assert (Hu : filter isUndefined (map Some names) = []).
  { clear. induction names as [|a l IH]; [reflexivity|exact IH]. }
  rewrite Hd, Hu, app_nil_r. f_equal.
  rewrite (@sort_ext_in _ byTierOrder (byRank tierRank)).
  - rewrite (@sort_buckets _ tierRank names [1; 2; 3; 4]%Z).
    + cbn [flat_map]. now rewrite app_nil_r.
    + repeat constructor; lia.
    + intros a Ha. specialize (Hk a Ha). unfold tierRank.
      destruct (tierOf a) as [x|] eqn:E; [|congruence].
      now apply tierOf_values in E.
  - intros a b Ha Hb. unfold byTierOrder, byRank, tierRank.
    pose proof (Hk a Ha). pose proof (Hk b Hb).
    destruct (tierOf a), (tierOf b); congruence.
Qed.

Lemma v1_sortRelics_by_tier_witness :
  v1_sortRelics
    (map Some [L"Axi B2 Relic"; L"Lith A1 Relic"; L"Axi A7 Relic"]) =
  map Some [L"Lith A1 Relic"; L"Axi B2 Relic"; L"Axi A7 Relic"].
Proof.
  apply (@v1_sortRelics_by_tier
           [L"Axi B2 Relic"; L"Lith A1 Relic"; L"Axi A7 Relic"]).
  repeat constructor; discriminate.
Defined.

(** ** A later declaration replaces an earlier one *)

(** The name a line declares when it stands in the primes section, and
    when it stands in the relics section, in each converter. *)
Definition v1_primeName (l : str) : option str :=
  if startsWith (L"- ") l && negb (includes (L"->") l)
  then Some (substring 2 l) else None.

Definition v1_relicName (l : str) : option str :=
  if startsWith (L"## ") l then Some (substring 3 l) else None.

Definition v2_primeName (l : str) : option str :=
  if startsWith (L"- ") l && negb (includes (L"->") l)
  then if isEmpty (trim (substring 2 l)) then None
       else Some (trim (substring 2 l))
  else None.

Definition v2_relicName (l : str) : option str :=
  if startsWith (L"## ") l
  then if isEmpty (trim (substring 3 l)) then None
       else Some (trim (substring 3 l))
  else None.

Definition sec_eqb (a b : sectionValue) : bool :=
  match a, b with
  | SecPrimes, SecPrimes | SecRelics, SecRelics
  | SecInherited, SecInherited => true
  | _, _ => false
  end.

(** Whether one of [lines] declares [n] again in the section [sec]; the
    section a line stands in is the one of the last header before it, and
    [inSec] tells whether the first line stands in [sec]. *)
Fixpoint declaredAgain (nameOf : str -> option str) (sec : sectionValue)
         (n : str) (inSec : bool) (lines : list str) : bool :=
  match lines with
  | [] => false
  | l :: rest =>
      match sections l with
      | Some s => declaredAgain nameOf sec n (sec_eqb s sec) rest
      | None =>
          (inSec && opt_eqb (nameOf l) (Some n))
          || declaredAgain nameOf sec n inSec rest
      end
  end.

(** The lines that follow a declaration up to the next header or the next
    declaration: the lines that can add to the declared entry. *)
Fixpoint ownLines (nameOf : str -> option str) (lines : list str)
  : list str :=
  match lines with
  | [] => []
  | l :: rest =>
      match sections l, nameOf l with
      | None, None => l :: ownLines nameOf rest
      | _, _ => []
      end
  end.

Definition isPartLine (l : str) : bool :=
  startsWith (L"  - ") l || (startsWith (L"- ") l && includes (L"->") l).

Definition isLocationLine (l : str) : bool := startsWith (L"**Location**:") l.

Definition isRewardLine (l : str) : bool := startsWith (L"- ") l.

(** [line.split(':')[1].trim()] and
    [line.split(':').slice(1).join(':').trim()] *)
Definition v1_locationText (l : str) : str :=
  trim (nth 1 (split (L":") l) []).

Definition v2_locationText (l : str) : str :=
  trim (join (L":") (tl (split (L":") l))).

Definition parsed (x : option PartInfo) : list PartInfo :=
  match x with
  | Some y => [y]
  | None => []
  end.

(** What a line can do to the state of the reader. *)
Inductive Effect (nameP nameR : str -> option str) (p : Parser) (line : str)
  : Parser -> Prop :=
| Eff_none : sections line = None -> Effect nameP nameR p line p
| Eff_enter sec :
    sections line = Some sec ->
    Effect nameP nameR p line
           (mkParser (primes p) (relics p) (Some sec) None)
| Eff_openPrime m :
    sections line = None -> inPrimes p = true -> nameP line = Some m ->
    Effect nameP nameR p line (openPrime m p)
| Eff_pushPart ci x :
    sections line = None -> inPrimes p = true -> currentItem p = Some ci ->
    Effect nameP nameR p line (pushPart ci x p)
| Eff_openRelic m :
    sections line = None -> inRelics p = true -> nameR line = Some m ->
    Effect nameP nameR p line (openRelic m p)
| Eff_pushReward ci x :
    sections line = None -> inRelics p = true -> currentItem p = Some ci ->
    Effect nameP nameR p line (pushReward ci x p)
| Eff_setLocation ci loc :
    sections line = None -> inRelics p = true -> currentItem p = Some ci ->
    Effect nameP nameR p line (setLocation ci loc p).

Lemma truthy_Some o : truthy o = true -> o = Some (show o).
Proof. destruct o as [[|c s]|]; try discriminate. reflexivity. Qed.

Lemma v1_effect p line p' :
  V1.processLine p line = Some p' ->
  Effect v1_primeName v1_relicName p line p'.
Proof.
  unfold V1.processLine. destruct (isEmpty line) eqn:Ee.
  { intros H. inversion H; subst. apply Eff_none.
    destruct line; [reflexivity|discriminate]. }
  unfold handleSectionHeaders. destruct (sections line) as [sec|] eqn:Es.
  { intros H. inversion H; subst. now apply Eff_enter. }
  unfold V1.handlePrimeSection.
  destruct (inPrimes p) eqn:Hp; cbn [negb].
  - destruct (startsWith (L"- ") line && negb (includes (L"->") line)) eqn:Ef.
    { intros H. inversion H; subst. apply Eff_openPrime; auto.
      unfold v1_primeName. now rewrite Ef. }
    destruct ((startsWith (L"  - ") line
               || startsWith (L"- ") line && includes (L"->") line)
              && truthy (currentItem p)) eqn:E.
    + apply andb_true_iff in E as [_ Ht].
      destruct (lookup (show (currentItem p)) (primes p)); [|discriminate].
      intros H. inversion H; subst. apply Eff_pushPart; auto.
      now apply truthy_Some.
    + unfold V1.handleRelicSection.
      rewrite (not_inRelics_of_inPrimes _ Hp). cbn [negb].
      intros H. inversion H; subst. now apply Eff_none.
  - unfold V1.handleRelicSection.
    destruct (inRelics p) eqn:Hr; cbn [negb].
    2:{ intros H. inversion H; subst. now apply Eff_none. }
    destruct (startsWith (L"## ") line) eqn:Eh.
    { intros H. inversion H; subst. apply Eff_openRelic; auto.
      unfold v1_relicName. now rewrite Eh. }
    destruct (startsWith (L"**Location**:") line && truthy (currentItem p))
      eqn:El.
    { apply andb_true_iff in El as [_ Ht].
      destruct (lookup (show (currentItem p)) (relics p)); [|discriminate].
      destruct (nth_error (split (L":") line) 1); [|discriminate].
      intros H. inversion H; subst. apply Eff_setLocation; auto.
      now apply truthy_Some. }
    destruct (startsWith (L"- ") line && truthy (currentItem p)) eqn:Ed.
    { apply andb_true_iff in Ed as [_ Ht].
      destruct (lookup (show (currentItem p)) (relics p)); [|discriminate].
      intros H. inversion H; subst. apply Eff_pushReward; auto.
      now apply truthy_Some. }
    intros H. inversion H; subst. now apply Eff_none.
Qed.

Lemma v2_effect p line p' :
  V2.processLine p line = Some p' ->
  Effect v2_primeName v2_relicName p line p'.
Proof.
  unfold V2.processLine. destruct (isEmpty line) eqn:Ee.
  { intros H. inversion H; subst. apply Eff_none.
    destruct line; [reflexivity|discriminate]. }
  unfold handleSectionHeaders. destruct (sections line) as [sec|] eqn:Es.
  { intros H. inversion H; subst. now apply Eff_enter. }
  unfold V2.handlePrimeSection.
  destruct (inPrimes p) eqn:Hp; cbn [negb].
  - unfold V2.handleRelicSection.
    rewrite (not_inRelics_of_inPrimes _ Hp). cbn [negb].
    destruct (startsWith (L"- ") line && negb (includes (L"->") line)) eqn:Ef.
    { destruct (isEmpty (trim (substring 2 line))) eqn:En;
        intros H; inversion H; subst; [now apply Eff_none|].
      apply Eff_openPrime; auto. unfold v2_primeName. now rewrite Ef, En. }
    destruct (truthy (currentItem p)
              && (startsWith (L"  - ") line
                  || startsWith (L"- ") line && includes (L"->") line))
      eqn:E.
    + apply andb_true_iff in E as [Ht _].
      destruct (V2.parsePartInfo line);
        [|intros H; inversion H; subst; now apply Eff_none].
      destruct (lookup (show (currentItem p)) (primes p));
        intros H; inversion H; subst; [|now apply Eff_none].
      apply Eff_pushPart; auto. now apply truthy_Some.
    + intros H. inversion H; subst. now apply Eff_none.
  - unfold V2.handleRelicSection.
    destruct (inRelics p) eqn:Hr; cbn [negb].
    2:{ intros H. inversion H; subst. now apply Eff_none. }
    destruct (startsWith (L"## ") line) eqn:Eh.
    { destruct (isEmpty (trim (substring 3 line))) eqn:En;
        intros H; inversion H; subst; [now apply Eff_none|].
      apply Eff_openRelic; auto. unfold v2_relicName. now rewrite Eh, En. }
    destruct (truthy (currentItem p)) eqn:Ht; cbn [negb].
    2:{ intros H. inversion H; subst. now apply Eff_none. }
    destruct (startsWith (L"**Location**:") line).
    { destruct (lookup (show (currentItem p)) (relics p)); [|discriminate].
      intros H. inversion H; subst. apply Eff_setLocation; auto.
      now apply truthy_Some. }
    destruct (startsWith (L"- ") line).
    { destruct (V2.parseRewardInfo line);
        [|intros H; inversion H; subst; now apply Eff_none].
      destruct (lookup (show (currentItem p)) (relics p));
        intros H; inversion H; subst; [|now apply Eff_none].
      apply Eff_pushReward; auto. now apply truthy_Some. }
    intros H. inversion H; subst. now apply Eff_none.
Qed.

Lemma opt_eqb_Some a b : opt_eqb (Some a) (Some b) = false -> a <> b.
Proof. cbn [opt_eqb]. apply str_eqb_neq. Qed.

Lemma inPrimes_enter pr rl sec ci :
  inPrimes (mkParser pr rl (Some sec) ci) = sec_eqb sec SecPrimes.
Proof. now destruct sec. Qed.

Lemma inRelics_enter pr rl sec ci :
  inRelics (mkParser pr rl (Some sec) ci) = sec_eqb sec SecRelics.
Proof. now destruct sec. Qed.

Section Frozen.

Variable step : Parser -> str -> option Parser.
Variables nameP nameR : str -> option str.
Hypothesis step_effect :
  forall p line p', step p line = Some p' -> Effect nameP nameR p line p'.

(** Once another item is open, or the section is left, the entry of a
    prime stays as it is until the name is declared again. *)
Lemma frozen_prime n e lines p p' :
  lookup n (primes p) = Some e ->
  (inPrimes p = true -> currentItem p <> Some n) ->
  declaredAgain nameP SecPrimes n (inPrimes p) lines = false ->
  runWith step p lines = Some p' ->
  lookup n (primes p') = Some e.
Proof.
  revert p. induction lines as [|l rest IH]; intros p He Hc Hd Hrun.
  - inversion Hrun; subst. exact He.
  - cbn [runWith] in Hrun. destruct (step p l) as [p1|] eqn:Es;
      [|discriminate].
    apply step_effect in Es. cbn [declaredAgain] in Hd.
    destruct Es as [Hs|sec Hs|m Hs Hp Hm|ci x Hs Hp Hci|m Hs Hr Hm
                   |ci x Hs Hr Hci|ci loc Hs Hr Hci];
      rewrite Hs in Hd; try (apply orb_false_iff in Hd as [Hd1 Hd2]).
    + apply (IH p); assumption.
    + apply (IH (mkParser (primes p) (relics p) (Some sec) None));
        [exact He| |rewrite inPrimes_enter; exact Hd|exact Hrun].
      intros _. cbn. discriminate.
    + rewrite Hp, Hm in Hd1. cbn [andb] in Hd1. apply opt_eqb_Some in Hd1.
      apply (IH (openPrime m p)); [| |exact Hd2|exact Hrun].
      * cbn [openPrime primes]. rewrite lookup_assign_ne; [exact He|].
        congruence.
      * intros _. cbn. congruence.
    + assert (Hne : n <> ci) by (intros ->; now apply Hc).
      apply (IH (pushPart ci x p)); [|exact Hc|exact Hd2|exact Hrun].
      cbn [pushPart primes]. now rewrite lookup_update_ne.
    + assert (Hp : inPrimes p = false)
        by now apply not_inPrimes_of_inRelics.
      assert (Hp' : inPrimes (openRelic m p) = inPrimes p) by reflexivity.
      apply (IH (openRelic m p));
        [exact He| |rewrite Hp'; exact Hd2|exact Hrun].
      rewrite Hp', Hp. discriminate.
    + apply (IH (pushReward ci x p)); assumption.
    + apply (IH (setLocation ci loc p)); assumption.
Qed.

(** The same for the entry of a relic. *)
Lemma frozen_relic n e lines p p' :
  lookup n (relics p) = Some e ->
  (inRelics p = true -> currentItem p <> Some n) ->
  declaredAgain nameR SecRelics n (inRelics p) lines = false ->
  runWith step p lines = Some p' ->
  lookup n (relics p') = Some e.
Proof.
  revert p. induction lines as [|l rest IH]; intros p He Hc Hd Hrun.
  - inversion Hrun; subst. exact He.
  - cbn [runWith] in Hrun. destruct (step p l) as [p1|] eqn:Es;
      [|discriminate].
    apply step_effect in Es. cbn [declaredAgain] in Hd.
    destruct Es as [Hs|sec Hs|m Hs Hp Hm|ci x Hs Hp Hci|m Hs Hr Hm
                   |ci x Hs Hr Hci|ci loc Hs Hr Hci];
      rewrite Hs in Hd; try (apply orb_false_iff in Hd as [Hd1 Hd2]).
    + apply (IH p); assumption.
    + apply (IH (mkParser (primes p) (relics p) (Some sec) None));
        [exact He| |rewrite inRelics_enter; exact Hd|exact Hrun].
      intros _. cbn. discriminate.
    + assert (Hr : inRelics p = false)
        by now apply not_inRelics_of_inPrimes.
      assert (Hr' : inRelics (openPrime m p) = inRelics p) by reflexivity.
      apply (IH (openPrime m p));
        [exact He| |rewrite Hr'; exact Hd2|exact Hrun].
      rewrite Hr', Hr. discriminate.
    + apply (IH (pushPart ci x p)); assumption.
    + rewrite Hr, Hm in Hd1. cbn [andb] in Hd1. apply opt_eqb_Some in Hd1.
      apply (IH (openRelic m p)); [| |exact Hd2|exact Hrun].
      * cbn [openRelic relics]. rewrite lookup_assign_ne; [exact He|].
        congruence.
      * intros _. cbn. congruence.
    + assert (Hne : n <> ci) by (intros ->; now apply Hc).
      apply (IH (pushReward ci x p)); [|exact Hc|exact Hd2|exact Hrun].
      cbn [pushReward relics]. now rewrite lookup_update_ne.
    + assert (Hne : n <> ci) by (intros ->; now apply Hc).
      apply (IH (setLocation ci loc p)); [|exact Hc|exact Hd2|exact Hrun].
      cbn [setLocation relics]. now rewrite lookup_update_ne.
Qed.

End Frozen.

Lemma last_cons (A : Type) (a d : A) l : last (a :: l) d = last l a.
Proof.
  revert a d. induction l as [|b l IH]; intros a d; [reflexivity|].
  change (last (a :: b :: l) d) with (last (b :: l) d).
  now rewrite (IH b d), (IH b a).
Qed.

Section After.

Variable step : Parser -> str -> option Parser.
Variables nameP nameR : str -> option str.
Hypothesis step_effect :
  forall p line p', step p line = Some p' -> Effect nameP nameR p line p'.
Hypothesis step_total :
  forall p line, Inv p -> exists p', step p line = Some p' /\ Inv p'.
Hypothesis step_enter :
  forall p line sec, sections line = Some sec ->
    step p line = Some (mkParser (primes p) (relics p) (Some sec) None).

Lemma runWith_total lines p :
  Inv p -> exists p', runWith step p lines = Some p' /\ Inv p'.
Proof.
  revert p. induction lines as [|l rest IH]; intros p HI; cbn [runWith].
  - eauto.
  - destruct (@step_total p l HI) as (p1 & -> & HI1). now apply IH.
Qed.

(** The parts a line adds to the open prime, the rewards it adds to the
    open relic, and the location it gives it. *)
Variable partsOf : str -> list PartInfo.
Variable rewardsOf : str -> list PartInfo.
Variable locationText : str -> str.

Hypothesis step_openPrime :
  forall p line m, inPrimes p = true -> sections line = None ->
    nameP line = Some m -> step p line = Some (openPrime m p).
Hypothesis step_openRelic :
  forall p line m, inRelics p = true -> sections line = None ->
    nameR line = Some m -> step p line = Some (openRelic m p).
Hypothesis step_ownPrime :
  forall p line n e, inPrimes p = true -> currentItem p = Some n ->
    n <> [] -> lookup n (primes p) = Some e ->
    sections line = None -> nameP line = None ->
    exists p', step p line = Some p' /\ inPrimes p' = true /\
               currentItem p' = Some n /\
               lookup n (primes p') =
               Some (mkPrime (name e) (parts e ++ partsOf line)).
Hypothesis step_ownRelic :
  forall p line n e, inRelics p = true -> currentItem p = Some n ->
    n <> [] -> lookup n (relics p) = Some e ->
    sections line = None -> nameR line = None ->
    exists p', step p line = Some p' /\ inRelics p' = true /\
               currentItem p' = Some n /\
               lookup n (relics p') =
               Some (mkRelic (if isLocationLine line then locationText line
                              else location e)
                             (rewards e ++ rewardsOf line)).

Lemma after_prime n post acc p :
  Inv p -> inPrimes p = true -> currentItem p = Some n -> n <> [] ->
  lookup n (primes p) = Some (mkPrime n acc) ->
  declaredAgain nameP SecPrimes n true post = false ->
  exists p', runWith step p post = Some p' /\ Inv p' /\
             lookup n (primes p') =
             Some (mkPrime n (acc ++ flat_map partsOf (ownLines nameP post))).
Proof.
  revert acc p. induction post as [|l rest IH];
    intros acc p HI Hp Hci Hn He Hd.
  - exists p. cbn. rewrite app_nil_r. auto.
  - destruct (runWith_total (l :: rest) HI) as (p' & Hrun & HI').
    cbn [declaredAgain ownLines] in *.
    destruct (sections l) as [sec|] eqn:Es.
    + exists p'. split; [exact Hrun|]. split; [exact HI'|].
      cbn [flat_map]. rewrite app_nil_r.
      cbn [runWith] in Hrun. rewrite (@step_enter p l sec Es) in Hrun.
      apply (@frozen_prime step nameP nameR step_effect n _ rest
               (mkParser (primes p) (relics p) (Some sec) None) p');
        [exact He| |rewrite inPrimes_enter; exact Hd|exact Hrun].
      intros _. cbn. discriminate.
    + apply orb_false_iff in Hd as [Hd1 Hd2]. cbn [andb] in Hd1.
      destruct (nameP l) as [m|] eqn:Em.
      * exists p'. split; [exact Hrun|]. split; [exact HI'|].
        cbn [flat_map]. rewrite app_nil_r. apply opt_eqb_Some in Hd1.
        cbn [runWith] in Hrun. rewrite (@step_openPrime p l m Hp Es Em) in Hrun.
        apply (@frozen_prime step nameP nameR step_effect n _ rest
                 (openPrime m p) p');
          [| |change (inPrimes (openPrime m p)) with (inPrimes p);
               rewrite Hp; exact Hd2|exact Hrun].
        -- cbn [openPrime primes]. rewrite lookup_assign_ne; [exact He|].
           congruence.
        -- intros _. cbn. congruence.
      * destruct (@step_ownPrime p l n _ Hp Hci Hn He Es Em)
          as (p1 & Hs1 & Hp1 & Hci1 & He1).
        destruct (@step_total p l HI) as (p1' & Hs1' & HI1).
        rewrite Hs1 in Hs1'. inversion Hs1'; subst p1'; clear Hs1'.
        cbn [name parts] in He1.
        destruct (IH (acc ++ partsOf l) p1 HI1 Hp1 Hci1 Hn He1 Hd2)
          as (p2 & Hrun2 & HI2 & He2).
        exists p2. cbn [runWith]. rewrite Hs1. split; [exact Hrun2|].
        split; [exact HI2|]. cbn [flat_map]. now rewrite app_assoc.
Qed.

Lemma after_relic n post loc acc p :
  Inv p -> inRelics p = true -> currentItem p = Some n -> n <> [] ->
  lookup n (relics p) = Some (mkRelic loc acc) ->
  declaredAgain nameR SecRelics n true post = false ->
  exists p', runWith step p post = Some p' /\ Inv p' /\
             lookup n (relics p') =
             Some (mkRelic
                     (last (map locationText
                                (filter isLocationLine (ownLines nameR post)))
                           loc)
                     (acc ++ flat_map rewardsOf (ownLines nameR post))).
Proof.
  revert loc acc p. induction post as [|l rest IH];
    intros loc acc p HI Hp Hci Hn He Hd.
  - exists p. cbn. rewrite app_nil_r. auto.
  - destruct (runWith_total (l :: rest) HI) as (p' & Hrun & HI').
    cbn [declaredAgain ownLines] in *.
    destruct (sections l) as [sec|] eqn:Es.
    + exists p'. split; [exact Hrun|]. split; [exact HI'|].
      cbn [flat_map filter map last]. rewrite app_nil_r.
      cbn [runWith] in Hrun. rewrite (@step_enter p l sec Es) in Hrun.
      apply (@frozen_relic step nameP nameR step_effect n _ rest
               (mkParser (primes p) (relics p) (Some sec) None) p');
        [exact He| |rewrite inRelics_enter; exact Hd|exact Hrun].
      intros _. cbn. discriminate.
    + apply orb_false_iff in Hd as [Hd1 Hd2]. cbn [andb] in Hd1.
      destruct (nameR l) as [m|] eqn:Em.
      * exists p'. split; [exact Hrun|]. split; [exact HI'|].
        cbn [flat_map filter map last]. rewrite app_nil_r.
        apply opt_eqb_Some in Hd1.
        cbn [runWith] in Hrun. rewrite (@step_openRelic p l m Hp Es Em) in Hrun.
        apply (@frozen_relic step nameP nameR step_effect n _ rest
                 (openRelic m p) p');
          [| |change (inRelics (openRelic m p)) with (inRelics p);
               rewrite Hp; exact Hd2|exact Hrun].
        -- cbn [openRelic relics]. rewrite lookup_assign_ne; [exact He|].
           congruence.
        -- intros _. cbn. congruence.
      * destruct (@step_ownRelic p l n _ Hp Hci Hn He Es Em)
          as (p1 & Hs1 & Hp1 & Hci1 & He1).
        destruct (@step_total p l HI) as (p1' & Hs1' & HI1).
        rewrite Hs1 in Hs1'. inversion Hs1'; subst p1'; clear Hs1'.
        cbn [location rewards] in He1.
        destruct (IH _ _ p1 HI1 Hp1 Hci1 Hn He1 Hd2)
          as (p2 & Hrun2 & HI2 & He2).
        exists p2. cbn [runWith]. rewrite Hs1. split; [exact Hrun2|].
        split; [exact HI2|]. rewrite He2. cbn [flat_map filter].
        rewrite app_assoc. f_equal. f_equal.
        destruct (isLocationLine l); [|reflexivity].
        cbn [map]. now rewrite last_cons.
Qed.

End After.

(** What a line that follows a declaration adds to the declared entry. *)
Definition v1_partsOf (l : str) : list PartInfo :=
  if isPartLine l then [V1.parsePartInfo l] else [].

Definition v2_partsOf (l : str) : list PartInfo :=
  if isPartLine l then parsed (V2.parsePartInfo l) else [].

Definition v1_rewardsOf (l : str) : list PartInfo :=
  if isRewardLine l then [V1.parseRewardInfo l] else [].

Definition v2_rewardsOf (l : str) : list PartInfo :=
  if isRewardLine l then parsed (V2.parseRewardInfo l) else [].

Lemma prime_same e : e = mkPrime (name e) (parts e ++ []).
Proof. destruct e. cbn. now rewrite app_nil_r. Qed.

Lemma relic_same e : e = mkRelic (location e) (rewards e ++ []).
Proof. destruct e. cbn. now rewrite app_nil_r. Qed.

Lemma truthy_nonempty n : n <> [] -> truthy (Some n) = true.
Proof. destruct n; [congruence|reflexivity]. Qed.

Lemma v1_openPrime_step p line m :
  inPrimes p = true -> sections line = None -> v1_primeName line = Some m ->
  V1.processLine p line = Some (openPrime m p).
Proof.
  intros Hp _. unfold v1_primeName.
  destruct (startsWith (L"- ") line && negb (includes (L"->") line)) eqn:E;
    [|discriminate].
  intros H. inversion H; subst m. apply andb_true_iff in E as [E1 E2].
  apply negb_true_iff in E2. now apply v1_step_open.
Qed.

Lemma v1_openRelic_step p line m :
  inRelics p = true -> sections line = None -> v1_relicName line = Some m ->
  V1.processLine p line = Some (openRelic m p).
Proof.
  intros Hp _. unfold v1_relicName.
  destruct (startsWith (L"## ") line) eqn:E; [|discriminate].
  intros H. inversion H; subst m. now apply v1_step_relic.
Qed.

Lemma v2_openPrime_step p line m :
  inPrimes p = true -> sections line = None -> v2_primeName line = Some m ->
  V2.processLine p line = Some (openPrime m p).
Proof.
  intros Hp _. unfold v2_primeName.
  destruct (startsWith (L"- ") line && negb (includes (L"->") line)) eqn:E;
    [|discriminate].
  destruct (isEmpty (trim (substring 2 line))) eqn:En; [discriminate|].
  intros H. inversion H; subst m. apply andb_true_iff in E as [E1 E2].
  apply negb_true_iff in E2. now apply v2_step_open.
Qed.

Lemma v2_openRelic_step p line m :
  inRelics p = true -> sections line = None -> v2_relicName line = Some m ->
  V2.processLine p line = Some (openRelic m p).
Proof.
  intros Hp _. unfold v2_relicName.
  destruct (startsWith (L"## ") line) eqn:E; [|discriminate].
  destruct (isEmpty (trim (substring 3 line))) eqn:En; [discriminate|].
  intros H. inversion H; subst m. now apply v2_step_relic.
Qed.

Lemma v1_ownPrime_step p line n e :
  inPrimes p = true -> currentItem p = Some n -> n <> [] ->
  lookup n (primes p) = Some e ->
  sections line = None -> v1_primeName line = None ->
  exists p', V1.processLine p line = Some p' /\ inPrimes p' = true /\
             currentItem p' = Some n /\
             lookup n (primes p') =
             Some (mkPrime (name e) (parts e ++ v1_partsOf line)).
Proof.
  intros Hp Hci Hn He Es Em. unfold V1.processLine, v1_partsOf.
  destruct (isEmpty line) eqn:Ee.
  { destruct line; [|discriminate]. exists p. repeat split; auto.
    change (isPartLine []) with false. now rewrite <- prime_same. }
  unfold handleSectionHeaders. rewrite Es.
  unfold V1.handlePrimeSection. rewrite Hp. cbn [negb].
  unfold v1_primeName in Em.
  destruct (startsWith (L"- ") line && negb (includes (L"->") line));
    [discriminate|].
  rewrite Hci, (truthy_nonempty Hn), andb_true_r. cbn [show].
  change (startsWith (L"  - ") line
          || startsWith (L"- ") line && includes (L"->") line)
    with (isPartLine line).
  destruct (isPartLine line).
  - rewrite He. eexists. split; [reflexivity|]. repeat split; auto.
    now apply lookup_pushPart.
  - unfold V1.handleRelicSection. rewrite (not_inRelics_of_inPrimes _ Hp).
    cbn [negb]. exists p. repeat split; auto. now rewrite <- prime_same.
Qed.

Lemma v2_ownPrime_step p line n e :
  inPrimes p = true -> currentItem p = Some n -> n <> [] ->
  lookup n (primes p) = Some e ->
  sections line = None -> v2_primeName line = None ->
  exists p', V2.processLine p line = Some p' /\ inPrimes p' = true /\
             currentItem p' = Some n /\
             lookup n (primes p') =
             Some (mkPrime (name e) (parts e ++ v2_partsOf line)).
Proof.
  intros Hp Hci Hn He Es Em. unfold V2.processLine, v2_partsOf.
  destruct (isEmpty line) eqn:Ee.
  { destruct line; [|discriminate]. exists p. repeat split; auto.
    change (isPartLine []) with false. now rewrite <- prime_same. }
  unfold handleSectionHeaders. rewrite Es.
  unfold V2.handlePrimeSection, V2.handleRelicSection.
  rewrite Hp, (not_inRelics_of_inPrimes _ Hp). cbn [negb].
  unfold v2_primeName in Em.
  destruct (startsWith (L"- ") line && negb (includes (L"->") line)) eqn:Ef.
  { destruct (isEmpty (trim (substring 2 line))); [|discriminate].
    apply andb_true_iff in Ef as [E1 E2]. apply negb_true_iff in E2.
    unfold isPartLine.
    rewrite (@startsWith_excl (L"- ") (L"  - ") line E1 eq_refl eq_refl).
    rewrite E2, andb_false_r. cbn [orb].
    exists p. repeat split; auto. now rewrite <- prime_same. }
  rewrite Hci, (truthy_nonempty Hn). cbn [andb show].
  change (startsWith (L"  - ") line
          || startsWith (L"- ") line && includes (L"->") line)
    with (isPartLine line).
  destruct (isPartLine line).
  - rewrite He. destruct (V2.parsePartInfo line) as [x|]; cbn [parsed].
    + eexists. split; [reflexivity|]. repeat split; auto.
      now apply lookup_pushPart.
    + exists p. repeat split; auto. now rewrite <- prime_same.
  - exists p. repeat split; auto. now rewrite <- prime_same.
Qed.

Lemma location_second_piece line :
  startsWith (L"**Location**:") line = true ->
  exists loc, nth_error (split (L":") line) 1 = Some loc /\
              nth 1 (split (L":") line) [] = loc.
Proof.
  intros H. apply startsWith_spec in H as [rest ->].
  rewrite split_location.
  generalize (@split_not_nil (L":") rest).
  destruct (split (L":") rest) as [|x t]; [congruence|]. intros _.
  exists x. split; reflexivity.
Qed.

Lemma v1_ownRelic_step p line n e :
  inRelics p = true -> currentItem p = Some n -> n <> [] ->
  lookup n (relics p) = Some e ->
  sections line = None -> v1_relicName line = None ->
  exists p', V1.processLine p line = Some p' /\ inRelics p' = true /\
             currentItem p' = Some n /\
             lookup n (relics p') =
             Some (mkRelic (if isLocationLine line then v1_locationText line
                            else location e)
                           (rewards e ++ v1_rewardsOf line)).
Proof.
  intros Hp Hci Hn He Es Em. unfold V1.processLine, v1_rewardsOf.
  destruct (isEmpty line) eqn:Ee.
  { destruct line; [|discriminate]. exists p. repeat split; auto.
    change (isLocationLine []) with false.
    change (isRewardLine []) with false. cbv iota; now rewrite <- relic_same. }
  unfold handleSectionHeaders. rewrite Es.
  unfold V1.handlePrimeSection, V1.handleRelicSection.
  rewrite Hp, (not_inPrimes_of_inRelics _ Hp). cbn [negb].
  unfold v1_relicName in Em.
  destruct (startsWith (L"## ") line); [discriminate|].
  rewrite Hci, (truthy_nonempty Hn), !andb_true_r. cbn [show].
  unfold isLocationLine, isRewardLine, v1_locationText.
  destruct (startsWith (L"**Location**:") line) eqn:El.
  - rewrite He. destruct (location_second_piece _ El) as (loc & H1 & H2).
    rewrite H1, H2.
    rewrite (@startsWith_excl (L"**Location**:") (L"- ") line El
               eq_refl eq_refl).
    eexists. split; [reflexivity|]. repeat split; auto.
    cbn [setLocation relics]. rewrite lookup_update_eq, He. cbn.
    now rewrite app_nil_r.
  - destruct (startsWith (L"- ") line).
    + rewrite He. eexists. split; [reflexivity|]. repeat split; auto.
      now apply lookup_pushReward.
    + exists p. repeat split; auto. cbv iota; now rewrite <- relic_same.
Qed.

Lemma v2_ownRelic_step p line n e :
  inRelics p = true -> currentItem p = Some n -> n <> [] ->
  lookup n (relics p) = Some e ->
  sections line = None -> v2_relicName line = None ->
  exists p', V2.processLine p line = Some p' /\ inRelics p' = true /\
             currentItem p' = Some n /\
             lookup n (relics p') =
             Some (mkRelic (if isLocationLine line then v2_locationText line
                            else location e)
                           (rewards e ++ v2_rewardsOf line)).
Proof.
  intros Hp Hci Hn He Es Em. unfold V2.processLine, v2_rewardsOf.
  destruct (isEmpty line) eqn:Ee.
  { destruct line; [|discriminate]. exists p. repeat split; auto.
    change (isLocationLine []) with false.
    change (isRewardLine []) with false. cbv iota; now rewrite <- relic_same. }
  unfold handleSectionHeaders. rewrite Es.
  unfold V2.handlePrimeSection, V2.handleRelicSection.
  rewrite Hp, (not_inPrimes_of_inRelics _ Hp). cbn [negb].
  unfold v2_relicName in Em. unfold isLocationLine, isRewardLine.
  destruct (startsWith (L"## ") line) eqn:Eh.
  { destruct (isEmpty (trim (substring 3 line))); [|discriminate].
    rewrite (@startsWith_excl (L"## ") (L"**Location**:") line Eh
               eq_refl eq_refl).
    rewrite (@startsWith_excl (L"## ") (L"- ") line Eh eq_refl eq_refl).
    exists p. repeat split; auto. cbv iota; now rewrite <- relic_same. }
  rewrite Hci, (truthy_nonempty Hn). cbn [negb show].
  destruct (startsWith (L"**Location**:") line) eqn:El.
  - rewrite He.
    rewrite (@startsWith_excl (L"**Location**:") (L"- ") line El
               eq_refl eq_refl).
    eexists. split; [reflexivity|]. repeat split; auto.
    cbn [setLocation relics]. rewrite lookup_update_eq, He. cbn.
    now rewrite app_nil_r.
  - destruct (startsWith (L"- ") line).
    + rewrite He. destruct (V2.parseRewardInfo line) as [x|]; cbn [parsed].
      * eexists. split; [reflexivity|]. repeat split; auto.
        now apply lookup_pushReward.
      * exists p. repeat split; auto. cbv iota; now rewrite <- relic_same.
    + exists p. repeat split; auto. cbv iota; now rewrite <- relic_same.
Qed.

Lemma declared_name_nonempty content pre line post pfx text :
  linesOf content = pre ++ line :: post ->
  line = pfx ++ text ->
  (clean (pfx ++ text) = true -> trim text <> []) ->
  pfx <> [] -> text <> [].
Proof.
  intros Hl -> Hc Hp ->.
  assert (Hin : In (pfx ++ []) (linesOf content))
    by (rewrite Hl; apply in_or_app; right; now left).
  apply linesOf_clean in Hin as [Hin|Hin].
  - destruct pfx; [congruence|discriminate].
  - now apply Hc in Hin.
Qed.

Lemma v1_primeName_Some line n :
  v1_primeName line = Some n -> line = L"- " ++ n.
Proof.
  unfold v1_primeName.
  destruct (startsWith (L"- ") line && negb (includes (L"->") line)) eqn:E;
    [|discriminate].
  intros H. inversion H. apply andb_true_iff in E as [E _].
  apply startsWith_spec in E as [r ->]. reflexivity.
Qed.

Lemma v1_relicName_Some line n :
  v1_relicName line = Some n -> line = L"## " ++ n.
Proof.
  unfold v1_relicName. destruct (startsWith (L"## ") line) eqn:E;
    [|discriminate].
  intros H. inversion H. apply startsWith_spec in E as [r ->]. reflexivity.
Qed.

Lemma v2_primeName_Some line n :
  v2_primeName line = Some n ->
  startsWith (L"- ") line = true /\ n <> [].
Proof.
  unfold v2_primeName.
  destruct (startsWith (L"- ") line && negb (includes (L"->") line)) eqn:E;
    [|discriminate].
  destruct (trim (substring 2 line)) eqn:En; [discriminate|].
  intros H. inversion H. apply andb_true_iff in E as [E _].
  split; [exact E|discriminate].
Qed.

Lemma v2_relicName_Some line n :
  v2_relicName line = Some n ->
  startsWith (L"## ") line = true /\ n <> [].
Proof.
  unfold v2_relicName. destruct (startsWith (L"## ") line) eqn:E;
    [|discriminate].
  destruct (trim (substring 3 line)) eqn:En; [discriminate|].
  intros H. inversion H. split; [reflexivity|discriminate].
Qed.

(** C10: the entry [parse] returns for a name is fixed by the lines behind
    the last declaration of that name alone.  When a line declares the
    prime [n] in the primes section ("- n") and no later line declares [n]
    again there, the dataset has one entry per name and its entry for [n]
    is the prime [n] with exactly the parts of the part lines that follow
    the declaration up to the next header or declaration; whatever earlier
    declarations of [n] had collected is gone.  Likewise for a relic
    declared in the relics section ("## n"): its entry holds the rewards of
    the reward lines that follow the declaration up to the next header or
    "## " line, and the location of the last location line among them (the
    empty location if there is none).  Both converters behave so; nothing
    is raised. *)
Theorem last_declaration_wins (content : str) (pre post : list str)
        (line n : str) :
  linesOf content = pre ++ line :: post ->
  (forall p, V1.run newParser pre = Some p -> inPrimes p = true ->
     v1_primeName line = Some n ->
     declaredAgain v1_primeName SecPrimes n true post = false ->
     exists d,
       V1.parse content = Some d /\
       lookup n (parsedPrimes d) =
       Some (mkPrime n (flat_map v1_partsOf (ownLines v1_primeName post))) /\
       NoDup (keys (parsedPrimes d))) /\
  (forall p, V1.run newParser pre = Some p -> inRelics p = true ->
     v1_relicName line = Some n ->
     declaredAgain v1_relicName SecRelics n true post = false ->
     exists d,
       V1.parse content = Some d /\
       lookup n (parsedRelics d) =
       Some (mkRelic
               (last (map v1_locationText
                          (filter isLocationLine
                                  (ownLines v1_relicName post))) [])
               (flat_map v1_rewardsOf (ownLines v1_relicName post))) /\
       NoDup (keys (parsedRelics d))) /\
  (forall p, V2.run newParser pre = Some p -> inPrimes p = true ->
     v2_primeName line = Some n ->
     declaredAgain v2_primeName SecPrimes n true post = false ->
     exists d,
       V2.parse content = Some d /\
       lookup n (parsedPrimes d) =
       Some (mkPrime n (flat_map v2_partsOf (ownLines v2_primeName post))) /\
       NoDup (keys (parsedPrimes d))) /\
  (forall p, V2.run newParser pre = Some p -> inRelics p = true ->
     v2_relicName line = Some n ->
     declaredAgain v2_relicName SecRelics n true post = false ->
     exists d,
       V2.parse content = Some d /\
       lookup n (parsedRelics d) =
       Some (mkRelic
               (last (map v2_locationText
                          (filter isLocationLine
                                  (ownLines v2_relicName post))) [])
               (flat_map v2_rewardsOf (ownLines v2_relicName post))) /\
       NoDup (keys (parsedRelics d))).
Proof.
  intros Hlines. split; [|split; [|split]].
  - intros p Hrun Hp Hname Hd.
    destruct (v1_run_total pre Inv_newParser) as (p0 & Hp0 & HI).
    rewrite Hrun in Hp0. inversion Hp0; subst p0; clear Hp0.
    pose proof (v1_primeName_Some _ Hname) as Hline.
    assert (Hn : n <> []).
    { apply (@declared_name_nonempty content pre line post (L"- ") n);
        auto using clean_dash_text. discriminate. }
    assert (Hs : sections line = None)
      by (apply sections_none_dash; rewrite Hline; apply startsWith_app).
    pose proof (@v1_openPrime_step p line n Hp Hs Hname) as Hstep.
    destruct (@after_prime V1.processLine v1_primeName v1_relicName
                v1_effect v1_processLine_total v1_step_enter v1_partsOf
                v1_openPrime_step v1_ownPrime_step
                n post [] (openPrime n p))
      as (p' & Hrun' & (_ & HN & _) & He); auto.
    { now apply Inv_openPrime. }
    { cbn [openPrime primes]. apply lookup_assign_eq. }
    exists (mkParsed (primes p') (relics p')).
    split; [|split; [exact He|exact HN]].
    unfold V1.parse. rewrite Hlines, v1_run_app, Hrun. cbn [V1.run].
    rewrite Hstep, <- v1_runWith, Hrun'. reflexivity.
  - intros p Hrun Hp Hname Hd.
    destruct (v1_run_total pre Inv_newParser) as (p0 & Hp0 & HI).
    rewrite Hrun in Hp0. inversion Hp0; subst p0; clear Hp0.
    pose proof (v1_relicName_Some _ Hname) as Hline.
    assert (Hn : n <> []).
    { apply (@declared_name_nonempty content pre line post (L"## ") n);
        auto using clean_hash_text. discriminate. }
    assert (Hs : sections line = None)
      by (apply sections_none_hashes; rewrite Hline; apply startsWith_app).
    pose proof (@v1_openRelic_step p line n Hp Hs Hname) as Hstep.
    destruct (@after_relic V1.processLine v1_primeName v1_relicName
                v1_effect v1_processLine_total v1_step_enter
                v1_rewardsOf v1_locationText
                v1_openRelic_step v1_ownRelic_step
                n post [] [] (openRelic n p))
      as (p' & Hrun' & (_ & _ & HN) & He); auto.
    { now apply Inv_openRelic. }
    { cbn [openRelic relics]. apply lookup_assign_eq. }
    exists (mkParsed (primes p') (relics p')).
    split; [|split; [exact He|exact HN]].
    unfold V1.parse. rewrite Hlines, v1_run_app, Hrun. cbn [V1.run].
    rewrite Hstep, <- v1_runWith, Hrun'. reflexivity.
  - intros p Hrun Hp Hname Hd.
    destruct (v2_run_total pre Inv_newParser) as (p0 & Hp0 & HI).
    rewrite Hrun in Hp0. inversion Hp0; subst p0; clear Hp0.
    destruct (v2_primeName_Some _ Hname) as [Hstart Hn].
    assert (Hs : sections line = None) by now apply sections_none_dash.
    pose proof (@v2_openPrime_step p line n Hp Hs Hname) as Hstep.
    destruct (@after_prime V2.processLine v2_primeName v2_relicName
                v2_effect v2_processLine_total v2_step_enter v2_partsOf
                v2_openPrime_step v2_ownPrime_step
                n post [] (openPrime n p))
      as (p' & Hrun' & (_ & HN & _) & He); auto.
    { now apply Inv_openPrime. }
    { cbn [openPrime primes]. apply lookup_assign_eq. }
    exists (mkParsed (primes p') (relics p')).
    split; [|split; [exact He|exact HN]].
    unfold V2.parse. rewrite Hlines, v2_run_app, Hrun. cbn [V2.run].
    rewrite Hstep, <- v2_runWith, Hrun'. reflexivity.
  - intros p Hrun Hp Hname Hd.
    destruct (v2_run_total pre Inv_newParser) as (p0 & Hp0 & HI).
    rewrite Hrun in Hp0. inversion Hp0; subst p0; clear Hp0.
    destruct (v2_relicName_Some _ Hname) as [Hstart Hn].
    assert (Hs : sections line = None) by now apply sections_none_hashes.
    pose proof (@v2_openRelic_step p line n Hp Hs Hname) as Hstep.
    destruct (@after_relic V2.processLine v2_primeName v2_relicName
                v2_effect v2_processLine_total v2_step_enter
                v2_rewardsOf v2_locationText
                v2_openRelic_step v2_ownRelic_step
                n post [] [] (openRelic n p))
      as (p' & Hrun' & (_ & _ & HN) & He); auto.
    { now apply Inv_openRelic. }
    { cbn [openRelic relics]. apply lookup_assign_eq. }
    exists (mkParsed (primes p') (relics p')).
    split; [|split; [exact He|exact HN]].
    unfold V2.parse. rewrite Hlines, v2_run_app, Hrun. cbn [V2.run].
    rewrite Hstep, <- v2_runWith, Hrun'. reflexivity.
Qed.

(** "Lith A1 Relic" declared twice, with a reward and a location after each
    declaration. *)
Definition relicTwiceDeclared : str :=
  L"# Relics" ++ NL ++
  L"## Lith A1 Relic" ++ NL ++
  L"- Forma Blueprint (Common)" ++ NL ++
  L"**Location**: Void/Hepit (Capture)" ++ NL ++
  L"## Lith A1 Relic" ++ NL ++
  L"- Volt Prime Systems (Rare)" ++ NL ++
  L"**Location**: Lua: Apollo".

Lemma last_declaration_wins_witness :
  (exists d,
     V1.parse twiceDeclared = Some d /\
     lookup (L"Volt Prime") (parsedPrimes d) =
     Some (mkPrime (L"Volt Prime")
             [mkPart (L"Volt Prime Chassis") (L"Common")
                     (Some (L"Axi B2 Relic"))]) /\
     NoDup (keys (parsedPrimes d))) /\
  (exists d,
     V1.parse relicTwiceDeclared = Some d /\
     lookup (L"Lith A1 Relic") (parsedRelics d) =
     Some (mkRelic (L"Lua")
             [mkPart (L"Volt Prime Systems") (L"Rare") None]) /\
     NoDup (keys (parsedRelics d))) /\
  (exists d,
     V2.parse twiceDeclared = Some d /\
     lookup (L"Volt Prime") (parsedPrimes d) =
     Some (mkPrime (L"Volt Prime")
             [mkPart (L"Volt Prime Chassis") (L"Common")
                     (Some (L"Axi B2 Relic"))]) /\
     NoDup (keys (parsedPrimes d))) /\
  (exists d,
     V2.parse relicTwiceDeclared = Some d /\
     lookup (L"Lith A1 Relic") (parsedRelics d) =
     Some (mkRelic (L"Lua: Apollo")
             [mkPart (L"Volt Prime Systems") (L"Rare") None]) /\
     NoDup (keys (parsedRelics d))).
Proof.
  destruct (@last_declaration_wins twiceDeclared
              [L"# Primes"; L"- Volt Prime";
               L"- Volt Prime Systems (Rare) -> Lith A1 Relic"]
              [L"- Volt Prime Chassis (Common) -> Axi B2 Relic"]
              (L"- Volt Prime") (L"Volt Prime") eq_refl)
    as (P1 & _ & P2 & _).
  destruct (@last_declaration_wins relicTwiceDeclared
              [L"# Relics"; L"## Lith A1 Relic";
               L"- Forma Blueprint (Common)";
               L"**Location**: Void/Hepit (Capture)"]
              [L"- Volt Prime Systems (Rare)"; L"**Location**: Lua: Apollo"]
              (L"## Lith A1 Relic") (L"Lith A1 Relic") eq_refl)
    as (_ & R1 & _ & R2).
  pose (p := mkParser
               [(L"Volt Prime",
                 mkPrime (L"Volt Prime")
                   [mkPart (L"Volt Prime Systems") (L"Rare")
                           (Some (L"Lith A1 Relic"))])]
               [] (Some SecPrimes) (Some (L"Volt Prime"))).
  pose (r := mkParser []
               [(L"Lith A1 Relic",
                 mkRelic (L"Void/Hepit (Capture)")
                   [mkPart (L"Forma Blueprint") (L"Common") None])]
               (Some SecRelics) (Some (L"Lith A1 Relic"))).
  split; [|split; [|split]].
  - destruct (P1 p eq_refl eq_refl eq_refl eq_refl) as (d & Hd & Hl & Hn).
    exists d. split; [exact Hd|]. split; [|exact Hn]. rewrite Hl.
    vm_compute. reflexivity.
  - destruct (R1 r eq_refl eq_refl eq_refl eq_refl) as (d & Hd & Hl & Hn).
    exists d. split; [exact Hd|]. split; [|exact Hn]. rewrite Hl.
    vm_compute. reflexivity.
  - destruct (P2 p eq_refl eq_refl eq_refl eq_refl) as (d & Hd & Hl & Hn).
    exists d. split; [exact Hd|]. split; [|exact Hn]. rewrite Hl.
    vm_compute. reflexivity.
  - destruct (R2 r eq_refl eq_refl eq_refl eq_refl) as (d & Hd & Hl & Hn).
    exists d. split; [exact Hd|]. split; [|exact Hn]. rewrite Hl.
    vm_compute. reflexivity.
Defined.

(** ** The round trip of the dataset *)








